(** * social-media-meta: scheduling, trigger and cleanup pipeline

    A shallow embedding of the scheduling orchestrator of the repository
    (app/database/crud.py, app/services/*.py, app/routes/schedular.py,
    app/routes/instagram_webhook.py) and the properties of its specification,
    followed by further properties of the same code and of its neighbours
    (app/utils/retry.py, app/services/r2_service.py, the media fetch of
    app/routes/webhook.py, app/routes/calendar_webhook.py).

    External systems (Postgres, Google Drive and Calendar, Cloudflare R2, the
    Graph API, the file system, PIL's decoder and encoder) are oracles of a
    [World]; every call to one of them advances a tick counter and is
    recorded on a trace, so an oracle may answer differently at each call. *)

From Stdlib Require Import ZArith List String Ascii Bool Lia.
From Stdlib Require Import Floats Uint63.
From Stdlib Require Import Sorting.Sorted Permutation.
Import ListNotations.

Set Warnings "-register-all,-inexact-float".
Open Scope string_scope.
Open Scope list_scope.
Open Scope Z_scope.

(* ------------------------------------------------------------------ *)
(** ** Python values, truthiness and strings *)

Module Py.

(** Truthiness of [Optional[str]]: [None] and the empty string are falsy. *)
Definition truthy_str (o : option string) : bool :=
  match o with
  | Some s => negb (String.eqb s "")
  | None => false
  end.

(** [a or b] on optional strings. *)
Definition or_str (a b : option string) : option string :=
  if truthy_str a then a else b.

(** [s.startswith(p)] *)
Definition startswith (s p : string) : bool := String.prefix p s.

(** [o and isinstance(o, str) and o.startswith(p)] *)
Definition opt_startswith (o : option string) (p : string) : bool :=
  match o with
  | Some s => negb (String.eqb s "") && startswith s p
  | None => false
  end.

(** [s.startswith(('http://', 'https://'))] *)
Definition is_http_url (s : string) : bool :=
  startswith s "http://" || startswith s "https://".

(** [s.replace(a, b)] for one-character [a] and [b]. *)
Fixpoint replace_char (a b : ascii) (s : string) : string :=
  match s with
  | EmptyString => EmptyString
  | String c rest =>
      String (if Ascii.eqb c a then b else c) (replace_char a b rest)
  end.

(** [sep.join(l)] *)
Fixpoint join (sep : string) (l : list string) : string :=
  match l with
  | [] => ""
  | [x] => x
  | x :: rest => (x ++ sep ++ join sep rest)%string
  end.

(** [s.lstrip(c)] for one character [c]. *)
Fixpoint lstrip_char (c : ascii) (s : string) : string :=
  match s with
  | String a rest => if Ascii.eqb a c then lstrip_char c rest else s
  | EmptyString => EmptyString
  end.

(** [s.split(c)[-1]]: what follows the last [c]. *)
Fixpoint last_segment (c : ascii) (s acc : string) : string :=
  match s with
  | EmptyString => acc
  | String a rest =>
      if Ascii.eqb a c then last_segment c rest ""
      else last_segment c rest (acc ++ String a "")%string
  end.

(** [repr] of a list of strings (escapes apart). *)
Definition repr_list (l : list string) : string :=
  ("[" ++ join ", " (map (fun x => "'" ++ x ++ "'") l) ++ "]")%string.

(** An optional string inside an f-string. *)
Definition fmt_opt (o : option string) : string :=
  match o with Some s => s | None => "None" end.

(** JSON documents as [json.loads] and [resp.json()] return them.  A [JObj]
    is the parsed dict (keys distinct, insertion order). *)
Inductive json : Type :=
| JNull
| JBool (b : bool)
| JNum (z : Z)
| JStr (s : string)
| JArr (l : list json)
| JObj (fields : list (string * json)).

Definition truthy (j : json) : bool :=
  match j with
  | JNull => false
  | JBool b => b
  | JNum z => negb (z =? 0)
  | JStr s => negb (String.eqb s "")
  | JArr l => match l with [] => false | _ => true end
  | JObj f => match f with [] => false | _ => true end
  end.

Fixpoint lookup (k : string) (fields : list (string * json)) : json :=
  match fields with
  | [] => JNull
  | (k', v) :: rest => if String.eqb k k' then v else lookup k rest
  end.

(** The exceptions the modelled code raises or catches.  [HttpError] is
    googleapiclient's (it carries [resp.status]); [HTTPException] is
    FastAPI's; every other exception class is a [PyError] with its class
    name.  All three are subclasses of [Exception]. *)
Inductive exn : Type :=
| HttpError (resp_status : Z) (msg : string)
| HTTPException (status_code : Z) (detail : string)
| PyError (kind : string) (msg : string).

(** [str(e)] *)
Definition str_exn (e : exn) : string :=
  match e with
  | HttpError _ m => m
  | HTTPException _ d => d
  | PyError _ m => m
  end.

Definition is_HttpError (e : exn) : bool :=
  match e with HttpError _ _ => true | _ => false end.

(** Outcome of running a piece of code: a value, a raised exception, or
    [Diverge] when a [while] loop was cut off by its fuel. *)
Inductive result (A : Type) : Type :=
| Ok (a : A)
| Raise (e : exn)
| Diverge.
Arguments Ok {A} a.
Arguments Raise {A} e.
Arguments Diverge {A}.

End Py.
Import Py.

(* ------------------------------------------------------------------ *)
(** ** app/models/schemas.py and app/config.py *)

(** A media entry dict: the keys of [schemas.MediaEntry] and the [url] key
    that [publisher_service.get_media_bytes] also reads. *)
Record MediaEntry : Type := mkMediaEntry {
  requested_path : option string;
  r2_url : option string;
  uploaded_file_id : option string;
  file_name : option string;
  mime_type : option string;
  url : option string
}.

Record ScheduleRequest : Type := mkScheduleRequest {
  selected_media : list string;
  selected_caption : string;
  req_scheduled_time : string;
  req_post_type : string;
  timezone : option string
}.

Record ScheduleResponse : Type := mkScheduleResponse {
  message : string;
  folder_id : string;
  event_id : string;
  webhook_sent : bool;
  webhook_status : option string
}.

(** The constructor of the pydantic model: [folder_id: str] and
    [event_id: str] are required strings, so [None] fails validation. *)
Definition ScheduleResponse_init (msg : string) (fid eid : option string)
    (sent : bool) (st : option string) : result ScheduleResponse :=
  match fid, eid with
  | Some f, Some e => Ok (mkScheduleResponse msg f e sent st)
  | _, _ => Raise (PyError "ValidationError" "Input should be a valid string")
  end.

Record Settings : Type := mkSettings {
  CLOUDFLARE_R2_BUCKET : option string;
  CLOUDFLARE_R2_ENDPOINT : option string;
  CLOUDFLARE_R2_PUBLIC_URL : option string;
  FACEBOOK_PAGE_ACCESS_TOKEN : option string;
  INSTAGRAM_USER_ID : option string;
  FACEBOOK_GRAPH_API_VERSION : string;
  FACEBOOK_WEBHOOK_VERIFY_TOKEN : option string;
  FACEBOOK_APP_SECRET : option string
}.

(** app/constants.py *)
Definition DELETE_DELAY_HOURS : Z := 1.

(* ------------------------------------------------------------------ *)
(** ** The scheduled_posts table (app/database/connection.py) *)

(** One row.  [TIMESTAMP] values are microseconds since the epoch. *)
Record ScheduledPost : Type := mkPost {
  id : Z;
  post_type : string;
  caption : string;
  scheduled_time : Z;
  google_drive_folder_id : option string;
  google_calendar_event_id : option string;
  status : string;
  media_paths : option (list MediaEntry);
  created_at : Z
}.

Definition set_status (st : string) (p : ScheduledPost) : ScheduledPost :=
  mkPost (id p) (post_type p) (caption p) (scheduled_time p)
         (google_drive_folder_id p) (google_calendar_event_id p)
         st (media_paths p) (created_at p).

Definition MINUTE : Z := 60000000.
Definition HOUR : Z := 60 * MINUTE.

(* ------------------------------------------------------------------ *)
(** ** The world outside the process *)

Definition bytes : Type := list Byte.byte.

(** What an external call answers: a value or a raised exception. *)
Inductive reply (A : Type) : Type :=
| Returns (a : A)
| Raises (e : exn).
Arguments Returns {A} a.
Arguments Raises {A} e.

(** A failure of a call that never raises googleapiclient's [HttpError]
    (psycopg2, google.auth, the file system): class name and message. *)
Definition fault : Type := option (string * string).

(** [requests.post] / [requests.get] responses. *)
Record http_response : Type := mkHttpResponse {
  r_status : Z;
  r_json : option json;   (* [None]: [resp.json()] raises *)
  r_text : string;
  r_content : bytes;
  r_content_type : option string
}.

(** [files().create(body=..., media_body=...)] *)
Record drive_create : Type := mkDriveCreate {
  dc_name : string;
  dc_mime : string;
  dc_parents : option (list (option string))
}.

(** Result of [google_drive.download_file_bytes]. *)
Record file_info : Type := mkFileInfo {
  fi_bytes : bytes;
  fi_file_name : option string;
  fi_mime_type : option string
}.

(** The external calls, as recorded on the trace. *)
Inductive call : Type :=
| CallNow
| CallQuery (what : string)
| CallGetCreds
| CallBuild (api : string)
| CallRequestsPost (url : string) (data : list (string * json))
| CallRequestsGet (url : string)
| CallOpenRead (path : string)
| CallPathExists (path : string)
| CallUuid4
| CallR2Download (url : string)
| CallR2PutObject (key : string)
| CallR2UploadFile (path : string) (key_prefix : string)
| CallR2UploadFileobj (filename : string) (key_prefix : string)
| CallDriveList (query : string)
| CallDriveCreate (req : drive_create)
| CallDriveDelete (file_id : option string)
| CallDriveGetMeta (file_id : string)
| CallDriveGetMedia (file_id : string)
| CallDrivePermission (file_id : option string)
| CallCalendarInsert (start : string) (summary : string) (link : string)
| CallCalendarGet (event_id : option string)
| CallJpegSave (width height quality : Z).

Record World : Type := mkWorld {
  settings : Settings;
  (* clocks and names *)
  clock : nat -> Z;
  strftime : Z -> string;
  uuid4 : nat -> string;
  (* Postgres *)
  db_fault : nat -> fault;
  pg_timestamp : string -> option Z;
  (* Google credentials and discovery *)
  creds_fault : nat -> fault;
  build_fault : nat -> string -> option exn;
  (* requests *)
  requests_post : nat -> string -> list (string * json) -> reply http_response;
  requests_get : nat -> string -> reply http_response;
  (* file system *)
  open_read : nat -> string -> reply bytes;
  path_exists : nat -> string -> bool;
  (* Cloudflare R2 *)
  r2_download : nat -> string -> reply bytes;
  r2_put_object : nat -> string -> bytes -> option exn;
  r2_upload_file : nat -> string -> string -> reply (option string);
  r2_upload_fileobj : nat -> string -> string -> reply (option string);
  (* Google Drive *)
  drive_list : nat -> string -> reply (list string);
  drive_create_file : nat -> drive_create -> reply (option string);
  drive_delete : nat -> option string -> option exn;
  drive_get_meta : nat -> string -> reply (option string * option string);
  drive_get_media : nat -> string -> reply bytes;
  drive_permission : nat -> option string -> option exn;
  (* Google Calendar *)
  fromisoformat : string -> bool;
  calendar_insert : nat -> string -> string -> string -> reply (option string);
  calendar_get : nat -> option string -> option exn;
  (* PIL *)
  image_open : bytes -> option (Z * Z);
  jpeg_save : nat -> Z * Z -> Z -> reply Z;
  (* file names and MIME types, which no property here depends on *)
  url_file_name : string -> string;
  basename : string -> string;
  url_extension : string -> option string -> string;
  mime_of_name : string -> string
}.

(** What the loggers of the two periodic jobs record, one constructor per
    message of the source. *)
Inductive log_event : Type :=
| LogFoundToTrigger (n : nat)
| LogUsingR2 (u : string)
| LogNoDriveId (idx : nat)
| LogMediaError (idx : nat) (e : exn)
| LogNoValidUrls (post_id : Z)
| LogUnsupportedPostType (pt : string)
| LogPublished (post_id : Z) (status_msg : string)
| LogPublishFailed (post_id : Z) (status_msg : string)
| LogTriggerError (post_id : Z) (e : exn)
| LogNormalizeError (e : exn)
| LogNoPostsForDeletion
| LogDeleted (post_id : Z)
| LogDeleteError (post_id : Z) (e : exn)
| LogCleanupComplete (deleted errors : Z)
| LogCleanupCritical (e : exn)
| LogDriveUploadError (m : string)
| LogCalendarError (m : string)
| LogDatabaseSaveError (m : string)
| LogSchedulingCritical (e : exn).

(** The state the process and its surroundings share. *)
Record state : Type := mkState {
  tick : nat;
  db : list ScheduledPost;
  next_id : Z;
  calls : list call;
  log : list log_event
}.

(* ------------------------------------------------------------------ *)
(** ** State and exception monad *)

Definition M (A : Type) : Type := state -> result A * state.

Definition ret {A} (a : A) : M A := fun s => (Ok a, s).

Definition bind {A B} (m : M A) (k : A -> M B) : M B :=
  fun s =>
    match m s with
    | (Ok a, s') => k a s'
    | (Raise e, s') => (Raise e, s')
    | (Diverge, s') => (Diverge, s')
    end.

Definition raise {A} (e : exn) : M A := fun s => (Raise e, s).

Definition diverge {A} : M A := fun s => (Diverge, s).

(** [try: m except Exception as e: h e] *)
Definition try_except {A} (m : M A) (h : exn -> M A) : M A :=
  fun s =>
    match m s with
    | (Raise e, s') => h e s'
    | r => r
    end.

(** [try: m except HttpError as e: h e] *)
Definition try_except_HttpError {A} (m : M A) (h : Z -> string -> M A) : M A :=
  fun s =>
    match m s with
    | (Raise (HttpError st msg), s') => h st msg s'
    | r => r
    end.

Definition lift {A} (r : result A) : M A := fun s => (r, s).

Declare Scope monad_scope.
Delimit Scope monad_scope with monad.
Notation "x <- m ;; k" := (bind m (fun x => k))
  (at level 100, m at next level, right associativity) : monad_scope.
Notation "' pat <- m ;; k" := (bind m (fun x => match x with pat => k end))
  (at level 100, pat pattern, m at next level, right associativity)
  : monad_scope.
Notation "m ;; k" := (bind m (fun _ => k))
  (at level 100, right associativity) : monad_scope.
Open Scope monad_scope.

Definition step_world (c : call) (s : state) : state :=
  mkState (S (tick s)) (db s) (next_id s) (calls s ++ [c]) (log s).

(** One external call: the oracle is asked at the current tick. *)
Definition ask {A} (c : call) (f : nat -> reply A) : M A :=
  fun s =>
    match f (tick s) with
    | Returns a => (Ok a, step_world c s)
    | Raises e => (Raise e, step_world c s)
    end.

Definition ask_exn (c : call) (f : nat -> option exn) : M unit :=
  ask c (fun t => match f t with None => Returns tt | Some e => Raises e end).

Definition ask_fault (c : call) (f : nat -> fault) : M unit :=
  ask c (fun t => match f t with
                  | None => Returns tt
                  | Some (k, m) => Raises (PyError k m)
                  end).

Definition ask_pure {A} (c : call) (f : nat -> A) : M A :=
  ask c (fun t => Returns (f t)).

Definition logger (ev : log_event) : M unit :=
  fun s => (Ok tt, mkState (tick s) (db s) (next_id s) (calls s) (log s ++ [ev])).

Definition get_db : M (list ScheduledPost) := fun s => (Ok (db s), s).

Definition put_db (d : list ScheduledPost) : M unit :=
  fun s => (Ok tt, mkState (tick s) d (next_id s) (calls s) (log s)).

Definition fresh_id : M Z :=
  fun s => (Ok (next_id s), mkState (tick s) (db s) (next_id s + 1) (calls s) (log s)).

(** [for x in l: body x] *)
Fixpoint for_each {A} (l : list A) (body : A -> M unit) : M unit :=
  match l with
  | [] => ret tt
  | x :: rest => body x ;; for_each rest body
  end.

(** A [for] loop that threads an accumulator. *)
Fixpoint fold_m {A B} (l : list A) (acc : B) (body : B -> A -> M B) : M B :=
  match l with
  | [] => ret acc
  | x :: rest => acc' <- body acc x ;; fold_m rest acc' body
  end.

(* ------------------------------------------------------------------ *)
(** ** app/database/crud.py *)

Module crud.

Definition is_scheduled (p : ScheduledPost) : bool :=
  String.eqb (status p) "scheduled".

(** [ORDER BY scheduled_time ASC], as a stable insertion sort. *)
Fixpoint insert_by_time (p : ScheduledPost) (l : list ScheduledPost)
    : list ScheduledPost :=
  match l with
  | [] => [p]
  | q :: rest =>
      if scheduled_time p <=? scheduled_time q
      then p :: l
      else q :: insert_by_time p rest
  end.

Definition order_by_scheduled_time (l : list ScheduledPost)
    : list ScheduledPost :=
  fold_right insert_by_time [] l.

(** The [SELECT] of [find_posts_to_trigger], run at time [now]. *)
Definition select_to_trigger (now : Z) (rows : list ScheduledPost)
    : list ScheduledPost :=
  let now_minus_one := now - MINUTE in
  order_by_scheduled_time
    (filter (fun p => (now_minus_one <=? scheduled_time p)
                      && (scheduled_time p <=? now)
                      && is_scheduled p) rows).

(** The [SELECT] of [find_posts_for_deletion]. *)
Definition select_for_deletion (now delay_hours : Z)
    (rows : list ScheduledPost) : list ScheduledPost :=
  let threshold_time := now - delay_hours * HOUR in
  filter (fun p => (scheduled_time p <? threshold_time) && is_scheduled p) rows.

(** [UPDATE scheduled_posts SET status = %s WHERE id = %s] *)
Definition update_rows (post_id : Z) (new_status : string)
    (rows : list ScheduledPost) : list ScheduledPost :=
  map (fun p => if id p =? post_id then set_status new_status p else p) rows.

(** [UPDATE ... SET status = 'cancelled'
     WHERE google_calendar_event_id = %s AND status = 'scheduled'];
    a [NULL] on either side of [=] matches nothing. *)
Definition cancel_rows (ev : option string) (rows : list ScheduledPost)
    : list ScheduledPost :=
  map (fun p =>
         match ev, google_calendar_event_id p with
         | Some e, Some e' =>
             if String.eqb e' e && is_scheduled p
             then set_status "cancelled" p else p
         | _, _ => p
         end) rows.

Section WithWorld.
Variable W : World.

(** [connection.execute_query]: opens a connection and runs the statement;
    answers the server's [CURRENT_TIMESTAMP]. *)
Definition execute_query (what : string) : M Z :=
  ask (CallQuery what)
      (fun t => match db_fault W t with
                | None => Returns (clock W t)
                | Some (k, m) => Raises (PyError k m)
                end).

Definition add_scheduled_post (pt cap sched : string)
    (folder event : option string) (media : list MediaEntry) : M unit :=
  let media_paths_json :=
    match media with [] => None | _ => Some media end in
  current_timestamp <- execute_query "INSERT INTO scheduled_posts" ;;
  match pg_timestamp W sched with
  | None => raise (PyError "DataError" "invalid input syntax for type timestamp")
  | Some t =>
      i <- fresh_id ;;
      rows <- get_db ;;
      put_db (rows ++ [mkPost i pt cap t folder event "scheduled"
                              media_paths_json current_timestamp])
  end.

Definition find_posts_for_deletion (delay_hours : Z)
    : M (list ScheduledPost) :=
  now <- ask_pure CallNow (clock W) ;;
  execute_query "SELECT for deletion" ;;
  rows <- get_db ;;
  ret (select_for_deletion now delay_hours rows).

Definition find_posts_to_trigger : M (list ScheduledPost) :=
  now <- ask_pure CallNow (clock W) ;;
  execute_query "SELECT to trigger" ;;
  rows <- get_db ;;
  ret (select_to_trigger now rows).

Definition update_post_status (post_id : Z) (new_status : string) : M unit :=
  execute_query "UPDATE status" ;;
  rows <- get_db ;;
  put_db (update_rows post_id new_status rows).

Definition cancel_post_by_event_id (ev : option string) : M unit :=
  execute_query "UPDATE cancelled" ;;
  rows <- get_db ;;
  put_db (cancel_rows ev rows).

End WithWorld.
End crud.

(* ------------------------------------------------------------------ *)
(** ** app/services/facebook_graph.py *)

Module facebook_graph.

(** The dict [_post] returns. *)
Record post_result : Type := mkPostResult {
  status_code : Z;
  json_body : json;
  text : string
}.

Definition ok_status (z : Z) : bool := (z =? 200) || (z =? 201).

Definition json_of_opt (o : option string) : json :=
  match o with Some s => JStr s | None => JNull end.

(** [j.get(k)]: only a dict has [get]. *)
Definition py_get (j : json) (k : string) : result json :=
  match j with
  | JObj f => Ok (lookup k f)
  | _ => Raise (PyError "AttributeError" "object has no attribute 'get'")
  end.

(** The strings of a list whose items are all [str]. *)
Fixpoint strs_of (l : list json) : option (list string) :=
  match l with
  | [] => Some []
  | JStr s :: rest =>
      match strs_of rest with Some r => Some (s :: r) | None => None end
  | _ :: _ => None
  end.

(** [",".join(child_ids)] *)
Definition join_ids (child_ids : list json) : result string :=
  match strs_of child_ids with
  | Some l => Ok (join "," l)
  | None => Raise (PyError "TypeError" "sequence item: expected str instance")
  end.

Section WithWorld.
Variable W : World.

Definition version : string :=
  let v := FACEBOOK_GRAPH_API_VERSION (settings W) in
  if String.eqb v "" then "v17.0" else v.

Definition _graph_url (path : string) : string :=
  ("https://graph.facebook.com/" ++ version ++ "/" ++ path)%string.

Definition post_to (u : string) (data : list (string * json)) : M post_result :=
  resp <- ask (CallRequestsPost u data) (fun t => requests_post W t u data) ;;
  ret (mkPostResult (r_status resp)
                    (match r_json resp with Some j => j | None => JNull end)
                    (r_text resp)).

Definition _post (path : string) (data : list (string * json)) : M post_result :=
  post_to (_graph_url path) data.

Definition _video_post (path : string) (data : list (string * json))
    : M post_result :=
  post_to ("https://graph-video.facebook.com/" ++ version ++ "/" ++ path)%string
          data.

Definition publish_photo (image_url : option string) (cap : string)
    : M (bool * string) :=
  let token := FACEBOOK_PAGE_ACCESS_TOKEN (settings W) in
  let ig_user := INSTAGRAM_USER_ID (settings W) in
  match token, ig_user with
  | Some tok, Some ig =>
      if negb (truthy_str token) || negb (truthy_str ig_user)
      then ret (false, "Facebook/Instagram credentials not configured")
      else
        res_create <- _post (ig ++ "/media")
                        [("image_url", json_of_opt image_url);
                         ("caption", JStr cap);
                         ("access_token", JStr tok)] ;;
        if negb (ok_status (status_code res_create))
           || negb (truthy (json_body res_create))
        then ret (false, ("Failed to create media container: "
                          ++ text res_create)%string)
        else
          creation_id <- lift (py_get (json_body res_create) "id") ;;
          if negb (truthy creation_id)
          then ret (false, ("No creation id returned: "
                            ++ text res_create)%string)
          else
            res_publish <- _post (ig ++ "/media_publish")
                             [("creation_id", creation_id);
                              ("access_token", JStr tok)] ;;
            if ok_status (status_code res_publish)
            then ret (true, ("Published: " ++ text res_publish)%string)
            else ret (false, ("Publish failed: " ++ text res_publish)%string)
  | _, _ => ret (false, "Facebook/Instagram credentials not configured")
  end.

(** The [for url in image_urls] loop of [publish_carousel]; [inl] is the
    early [return] on the first child that fails. *)
Fixpoint create_children (tok ig : string) (image_urls : list (option string))
    (child_ids : list json) : M ((bool * string) + list json) :=
  match image_urls with
  | [] => ret (inr child_ids)
  | u :: rest =>
      res <- _post (ig ++ "/media")
               [("image_url", json_of_opt u);
                ("is_carousel_item", JBool true);
                ("access_token", JStr tok)] ;;
      if negb (ok_status (status_code res)) || negb (truthy (json_body res))
      then ret (inl (false, ("Failed creating child media: " ++ text res)%string))
      else
        cid <- lift (py_get (json_body res) "id") ;;
        if negb (truthy cid)
        then ret (inl (false, ("No child id returned: " ++ text res)%string))
        else create_children tok ig rest (child_ids ++ [cid])
  end.

Definition publish_carousel (image_urls : list (option string)) (cap : string)
    : M (bool * string) :=
  let token := FACEBOOK_PAGE_ACCESS_TOKEN (settings W) in
  let ig_user := INSTAGRAM_USER_ID (settings W) in
  match token, ig_user with
  | Some tok, Some ig =>
      if negb (truthy_str token) || negb (truthy_str ig_user)
      then ret (false, "Facebook/Instagram credentials not configured")
      else
        children <- create_children tok ig image_urls [] ;;
        match children with
        | inl early => ret early
        | inr child_ids =>
            children_param <- lift (join_ids child_ids) ;;
            res_parent <- _post (ig ++ "/media")
                            [("children", JStr children_param);
                             ("caption", JStr cap);
                             ("access_token", JStr tok)] ;;
            if negb (ok_status (status_code res_parent))
               || negb (truthy (json_body res_parent))
            then ret (false, ("Failed to create parent carousel container: "
                              ++ text res_parent)%string)
            else
              creation_id <- lift (py_get (json_body res_parent) "id") ;;
              if negb (truthy creation_id)
              then ret (false, ("No creation id for carousel: "
                                ++ text res_parent)%string)
              else
                res_publish <- _post (ig ++ "/media_publish")
                                 [("creation_id", creation_id);
                                  ("access_token", JStr tok)] ;;
                if ok_status (status_code res_publish)
                then ret (true, ("Carousel published: "
                                 ++ text res_publish)%string)
                else ret (false, ("Carousel publish failed: "
                                  ++ text res_publish)%string)
        end
  | _, _ => ret (false, "Facebook/Instagram credentials not configured")
  end.

Definition publish_video (video_url : option string) (cap : string)
    : M (bool * string) :=
  let token := FACEBOOK_PAGE_ACCESS_TOKEN (settings W) in
  let ig_user := INSTAGRAM_USER_ID (settings W) in
  match token, ig_user with
  | Some tok, Some ig =>
      if negb (truthy_str token) || negb (truthy_str ig_user)
      then ret (false, "Facebook/Instagram credentials not configured")
      else
        res_create <- _video_post (ig ++ "/media")
                        [("video_url", json_of_opt video_url);
                         ("caption", JStr cap);
                         ("access_token", JStr tok)] ;;
        if negb (ok_status (status_code res_create))
           || negb (truthy (json_body res_create))
        then ret (false, ("Failed to create video container: "
                          ++ text res_create)%string)
        else
          creation_id <- lift (py_get (json_body res_create) "id") ;;
          if negb (truthy creation_id)
          then ret (false, ("No creation id returned for video: "
                            ++ text res_create)%string)
          else
            res_publish <- _post (ig ++ "/media_publish")
                             [("creation_id", creation_id);
                              ("access_token", JStr tok)] ;;
            if ok_status (status_code res_publish)
            then ret (true, ("Video published: " ++ text res_publish)%string)
            else ret (false, ("Video publish failed: "
                              ++ text res_publish)%string)
  | _, _ => ret (false, "Facebook/Instagram credentials not configured")
  end.

End WithWorld.
End facebook_graph.

(* ------------------------------------------------------------------ *)
(** ** app/utils/auth.py and app/services/google_drive.py *)

Module google_drive.
Section WithWorld.
Variable W : World.

Definition get_google_creds : M unit :=
  ask_fault CallGetCreds (creds_fault W).

Definition build (api : string) : M unit :=
  ask_exn (CallBuild api) (fun t => build_fault W t api).

Definition files_create (req : drive_create) : M (option string) :=
  ask (CallDriveCreate req) (fun t => drive_create_file W t req).

Definition files_delete (file_id : option string) : M unit :=
  ask_exn (CallDriveDelete file_id) (fun t => drive_delete W t file_id).

(** [requests.get(u, timeout=20)] followed by [raise_for_status()], which
    raises for a status from 400 to 599. *)
Definition requests_get_ok (u : string) : M http_response :=
  resp <- ask (CallRequestsGet u) (fun t => requests_get W t u) ;;
  if (400 <=? r_status resp) && (r_status resp <? 600)
  then raise (PyError "HTTPError" (r_text resp))
  else ret resp.

Definition FOLDER_MIME : string := "application/vnd.google-apps.folder".

Definition create_social_media_root_folder : M (option string) :=
  items <- ask (CallDriveList "name='Social Media Automation'")
               (fun t => drive_list W t "name='Social Media Automation'") ;;
  match items with
  | first :: _ => ret (Some first)
  | [] => files_create (mkDriveCreate "Social Media Automation" FOLDER_MIME None)
  end.

Definition r2_enabled : bool := truthy_str (CLOUDFLARE_R2_BUCKET (settings W)).

(** The URL branch of the upload loop (lines 68-144): fetch, stage in R2,
    upload to the post folder.  Any exception marks the media missing. *)
Definition upload_url (post_folder_id : option string) (media_path : string)
    (acc : list MediaEntry * list string)
    : M (list MediaEntry * list string) :=
  let '(uploaded_media, missing_media) := acc in
  try_except
    (resp <- requests_get_ok media_path ;;
     let content := r_content resp in
     let ext := url_extension W media_path (r_content_type resp) in
     r2 <- (if r2_enabled
            then try_except
                   (u <- ask_pure CallUuid4 (uuid4 W) ;;
                    let temp_key := ("temp_" ++ u ++ ext)%string in
                    ask_exn (CallR2PutObject temp_key)
                            (fun t => r2_put_object W t temp_key content) ;;
                    ret (Some
                      (if truthy_str (CLOUDFLARE_R2_PUBLIC_URL (settings W))
                       then (fmt_opt (CLOUDFLARE_R2_PUBLIC_URL (settings W))
                             ++ "/" ++ temp_key)%string
                       else ("https://"
                             ++ fmt_opt (CLOUDFLARE_R2_BUCKET (settings W))
                             ++ ".r2.cloudflarestorage.com/" ++ temp_key)%string)))
                   (fun _ => ret None)
            else ret None) ;;
     drive_content <- (if truthy_str r2
                       then drive_resp <- requests_get_ok (fmt_opt r2) ;;
                            ret (r_content drive_resp)
                       else ret content) ;;
     u <- ask_pure CallUuid4 (uuid4 W) ;;
     let name := ("media_" ++ u ++ ext)%string in
     let mime := mime_of_name W ext in
     file_id <- files_create (mkDriveCreate name mime (Some [post_folder_id])) ;;
     ret (uploaded_media
            ++ [mkMediaEntry (Some media_path) r2 file_id (Some name)
                             (Some mime) None],
          missing_media))
    (fun _ => ret (uploaded_media, missing_media ++ [media_path])).

(** Lines 149-154: a path under one of the temp directories is taken
    relative to app/frontend. *)
Definition abs_path (media_path : string) : string :=
  if startswith media_path "/temp_generated_images/"
     || startswith media_path "/temp_generated_videos/"
  then ("app/frontend/" ++ lstrip_char "/"%char media_path)%string
  else media_path.

(** The local-file branch (lines 147-200). *)
Definition upload_local (post_folder_id : option string) (media_path : string)
    (acc : list MediaEntry * list string)
    : M (list MediaEntry * list string) :=
  let '(uploaded_media, missing_media) := acc in
  let abs_media_path := abs_path media_path in
  found <- ask_pure (CallPathExists abs_media_path)
                    (fun t => path_exists W t abs_media_path) ;;
  if negb found
  then ret (uploaded_media, missing_media ++ [abs_media_path])
  else
    let name := basename W abs_media_path in
    let mime := mime_of_name W name in
    r2 <- (if r2_enabled
           then try_except
                  (ask (CallR2UploadFile abs_media_path "drive_backup")
                       (fun t => r2_upload_file W t abs_media_path "drive_backup"))
                  (fun _ => ret None)
           else ret None) ;;
    (if truthy_str r2
     then try_except
            (requests_get_ok (fmt_opt r2) ;; ret tt)
            (fun _ =>
               ask (CallOpenRead abs_media_path)
                   (fun t => open_read W t abs_media_path) ;; ret tt)
     else ask (CallOpenRead abs_media_path)
              (fun t => open_read W t abs_media_path) ;; ret tt) ;;
    file_id <- files_create (mkDriveCreate name mime (Some [post_folder_id])) ;;
    ret (uploaded_media
           ++ [mkMediaEntry (Some media_path) r2 file_id (Some name)
                            (Some mime) None],
         missing_media).

(** One iteration of [for i, media_path in enumerate(selected_media_paths)]. *)
Definition upload_one (post_folder_id : option string)
    (acc : list MediaEntry * list string) (media_path : string)
    : M (list MediaEntry * list string) :=
  try_except
    (if is_http_url media_path
     then upload_url post_folder_id media_path acc
     else upload_local post_folder_id media_path acc)
    (fun _ => ret (fst acc, snd acc ++ [media_path])).

(** Lines 207-226: abort and clean up when media are missing, else upload
    the caption and return. *)
Definition finish_upload (post_folder_id : option string)
    (uploaded_media : list MediaEntry) (missing_media : list string)
    : M (option string * list MediaEntry) :=
  match missing_media with
  | _ :: _ =>
      try_except (files_delete post_folder_id) (fun _ => ret tt) ;;
      raise (PyError "Exception"
                     ("Missing media files: " ++ repr_list missing_media))
  | [] =>
      files_create (mkDriveCreate "caption.txt" "text/plain"
                                  (Some [post_folder_id])) ;;
      ret (post_folder_id, uploaded_media)
  end.

(** Both [except] clauses of the function print and re-raise. *)
Definition upload_files_to_drive (selected_media_paths : list string)
    (selected_caption : string) (pt : option string)
    : M (option string * list MediaEntry) :=
  get_google_creds ;;
  build "drive" ;;
  root_folder_id <- create_social_media_root_folder ;;
  now <- ask_pure CallNow (clock W) ;;
  let timestamp := strftime W now in
  let post_folder_name :=
    if truthy_str pt then (fmt_opt pt ++ "_" ++ timestamp)%string
    else timestamp in
  post_folder_id <- files_create
    (mkDriveCreate post_folder_name FOLDER_MIME (Some [root_folder_id])) ;;
  '(uploaded_media, missing_media) <-
    fold_m selected_media_paths ([], []) (upload_one post_folder_id) ;;
  finish_upload post_folder_id uploaded_media missing_media.

Definition delete_drive_folder (fid : option string) : M unit :=
  get_google_creds ;;
  try_except_HttpError
    (build "drive" ;; files_delete fid)
    (fun st _ => if st =? 404 then ret tt else ret tt).

Definition get_public_download_url (file_id : option string) : M string :=
  get_google_creds ;;
  build "drive" ;;
  ask_exn (CallDrivePermission file_id) (fun t => drive_permission W t file_id) ;;
  ret ("https://drive.google.com/uc?export=download&id=" ++ fmt_opt file_id)%string.

(** The chunked download loop is inside the [drive_get_media] oracle. *)
Definition download_file_bytes (file_id : string) : M file_info :=
  get_google_creds ;;
  build "drive" ;;
  '(name, mime) <- ask (CallDriveGetMeta file_id)
                       (fun t => drive_get_meta W t file_id) ;;
  data <- ask (CallDriveGetMedia file_id) (fun t => drive_get_media W t file_id) ;;
  ret (mkFileInfo data name mime).

End WithWorld.
End google_drive.

(* ------------------------------------------------------------------ *)
(** ** app/services/publisher_service.py *)

Module publisher_service.

Record media_bytes : Type := mkMediaBytes {
  mb_bytes : bytes;
  mb_file_name : option string;
  mb_mime_type : option string;
  source : string
}.

(** [try: return m except Exception: pass] *)
Definition attempt {A} (m : M A) : M (option A) :=
  try_except (a <- m ;; ret (Some a)) (fun _ => ret None).

Definition nonempty_or (s d : string) : string :=
  if String.eqb s "" then d else s.

Section WithWorld.
Variable W : World.

Definition get_media_bytes (media_entry : MediaEntry) : M media_bytes :=
  (* 1. Prefer R2 *)
  let r2 := or_str (r2_url media_entry) (url media_entry) in
  from_r2 <-
    match r2 with
    | Some u =>
        if truthy_str r2 && is_http_url u
        then attempt
               (data <- ask (CallR2Download u) (fun t => r2_download W t u) ;;
                ret (mkMediaBytes data (Some (url_file_name W u)) None "r2"))
        else ret None
    | None => ret None
    end ;;
  match from_r2 with
  | Some r => ret r
  | None =>
  (* 2. If Drive file id present, download from Drive *)
  from_drive <-
    match uploaded_file_id media_entry with
    | Some drive_id =>
        if truthy_str (Some drive_id)
        then attempt
               (info <- google_drive.download_file_bytes W drive_id ;;
                ret (mkMediaBytes (fi_bytes info) (fi_file_name info)
                                  (fi_mime_type info) "drive"))
        else ret None
    | None => ret None
    end ;;
  match from_drive with
  | Some r => ret r
  | None =>
  (* 3. If requested_path is a URL, fetch it over HTTP *)
  let req := or_str (requested_path media_entry) (url media_entry) in
  from_http <-
    match req with
    | Some q =>
        if truthy_str req && is_http_url q
        then attempt
               (resp <- google_drive.requests_get_ok W q ;;
                ret (mkMediaBytes (r_content resp)
                       (Some (nonempty_or (url_file_name W q) "file"))
                       (r_content_type resp) "http"))
        else ret None
    | None => ret None
    end ;;
  match from_http with
  | Some r => ret r
  | None =>
  (* 4. If requested_path is a local file path, read it *)
  from_local <-
    match req with
    | Some q =>
        if truthy_str req && negb (is_http_url q)
        then attempt
               (data <- ask (CallOpenRead q) (fun t => open_read W t q) ;;
                ret (mkMediaBytes data
                       (Some (nonempty_or (last_segment "/"%char q "")
                                          (last_segment "\"%char q "")))
                       None "local"))
        else ret None
    | None => ret None
    end ;;
  match from_local with
  | Some r => ret r
  | None => raise (PyError "RuntimeError"
                           "No available source found for media entry")
  end end end end.

End WithWorld.
End publisher_service.

(* ------------------------------------------------------------------ *)
(** ** Python's [float] (IEEE 754 binary64) and its conversions *)

Module pyfloat.

(** [float(z)] for [0 <= z < 2^53] (image sizes and JPEG qualities). *)
Definition of_Z (z : Z) : float := PrimFloat.of_uint63 (Uint63.of_Z z).

(** [a / b] *)
Definition truediv (a b : float) : result float :=
  if PrimFloat.eqb b 0%float
  then Raise (PyError "ZeroDivisionError" "float division by zero")
  else Ok (PrimFloat.div a b).

(** [int(x)]: truncation towards zero. *)
Definition to_int (x : float) : result Z :=
  match Prim2SF x with
  | S754_zero _ => Ok 0
  | S754_finite s m e =>
      let v := if 0 <=? e then Zpos m * 2 ^ e else Zpos m / 2 ^ (- e) in
      Ok (if s then - v else v)
  | S754_infinity _ =>
      Raise (PyError "OverflowError" "cannot convert float infinity to integer")
  | S754_nan => Raise (PyError "ValueError" "cannot convert float NaN to integer")
  end.

(** [round(x)]: to the nearest integer, ties to even. *)
Definition round (x : float) : result Z :=
  match Prim2SF x with
  | S754_zero _ => Ok 0
  | S754_finite s m e =>
      let v :=
        if 0 <=? e then Zpos m * 2 ^ e
        else
          let d := 2 ^ (- e) in
          let q := Zpos m / d in
          let r := Zpos m mod d in
          match 2 * r ?= d with
          | Lt => q
          | Gt => q + 1
          | Eq => if Z.even q then q else q + 1
          end in
      Ok (if s then - v else v)
  | S754_infinity _ =>
      Raise (PyError "OverflowError" "cannot convert float infinity to integer")
  | S754_nan => Raise (PyError "ValueError" "cannot convert float NaN to integer")
  end.

(** [min(a, b)] and [max(a, b)]: the first argument unless the second is
    strictly better. *)
Definition min (a b : float) : float := if PrimFloat.ltb b a then b else a.
Definition max (a b : float) : float := if PrimFloat.ltb a b then b else a.

Definition rbind {A B} (r : result A) (k : A -> result B) : result B :=
  match r with
  | Ok a => k a
  | Raise e => Raise e
  | Diverge => Diverge
  end.

End pyfloat.

(* ------------------------------------------------------------------ *)
(** ** app/services/cleanup_service.py *)

Module cleanup_service.

Definition MIN_RATIO : float := PrimFloat.div 4%float 5%float.
Definition MAX_RATIO : float := 1.91%float.
Definition MIN_WIDTH : Z := 320.
Definition MAX_WIDTH : Z := 1440.
Definition MAX_BYTES : Z := 8 * 1024 * 1024.

(** [img.resize((new_w, new_h), Image.LANCZOS)]: PIL refuses an empty size. *)
Definition resize (new_w new_h : Z) : result (Z * Z) :=
  if (new_w <? 1) || (new_h <? 1)
  then Raise (PyError "ValueError" "height and width must be > 0")
  else Ok (new_w, new_h).

(** Resize to width [new_w], keeping [ratio]; answers the new size and ratio. *)
Definition resize_width (new_w : Z) (ratio : float) : result (Z * Z * float) :=
  pyfloat.rbind (pyfloat.truediv (pyfloat.of_Z new_w) ratio) (fun x =>
  pyfloat.rbind (pyfloat.to_int x) (fun new_h =>
  pyfloat.rbind (resize new_w new_h) (fun '(width, height) =>
  pyfloat.rbind (pyfloat.truediv (pyfloat.of_Z width) (pyfloat.of_Z height))
    (fun ratio' => Ok (width, height, ratio'))))).

(** Lines 176-214: the size of the image that is encoded, from the size of
    the decoded one. *)
Definition prepare_geometry (width0 height0 : Z) : result (Z * Z) :=
  pyfloat.rbind
    (if height0 =? 0 then Ok 0%float
     else pyfloat.truediv (pyfloat.of_Z width0) (pyfloat.of_Z height0))
    (fun ratio0 =>
  pyfloat.rbind
    (if width0 <? MIN_WIDTH then resize_width MIN_WIDTH ratio0
     else if width0 >? MAX_WIDTH then resize_width MAX_WIDTH ratio0
     else Ok (width0, height0, ratio0))
    (fun '(width, height, ratio) =>
  if PrimFloat.ltb ratio MIN_RATIO || PrimFloat.ltb MAX_RATIO ratio
  then
    let target_ratio := pyfloat.max MIN_RATIO (pyfloat.min MAX_RATIO ratio) in
    let target_w := width in
    pyfloat.rbind (pyfloat.truediv (pyfloat.of_Z target_w) target_ratio) (fun x =>
    pyfloat.rbind (pyfloat.round x) (fun target_h =>
    if target_h <=? height
    then Ok (target_w, target_h)
    else
      let target_h := height in
      pyfloat.rbind
        (pyfloat.round (PrimFloat.mul (pyfloat.of_Z target_h) target_ratio))
        (fun target_w => Ok (target_w, target_h))))
  else Ok (width, height))).

(** [quality = int(quality * 0.85)] *)
Definition next_quality (quality : Z) : result Z :=
  pyfloat.to_int (PrimFloat.mul (pyfloat.of_Z quality) 0.85%float).

Section WithWorld.
Variable W : World.

(** The [while True] loop of lines 221-227; [fuel] bounds the number of
    iterations the model follows.  Answers the last quality and size. *)
Fixpoint encode_loop (fuel : nat) (dims : Z * Z) (quality : Z) : M (Z * Z) :=
  match fuel with
  | O => diverge
  | S fuel' =>
      size <- ask (CallJpegSave (fst dims) (snd dims) quality)
                  (fun t => jpeg_save W t dims quality) ;;
      if (size <=? MAX_BYTES) || (quality <=? 40)
      then ret (quality, size)
      else
        quality' <- lift (next_quality quality) ;;
        encode_loop fuel' dims quality'
  end.

Definition r2_configured : bool :=
  truthy_str (CLOUDFLARE_R2_BUCKET (settings W))
  && truthy_str (CLOUDFLARE_R2_ENDPOINT (settings W)).

Definition validate_and_prepare_image (fuel : nat) (source_url : option string)
    (source_bytes : bytes) : M (option string) :=
  try_except
    (match image_open W source_bytes with
     | None => raise (PyError "UnidentifiedImageError" "cannot identify image file")
     | Some (width, height) =>
         dims <- lift (prepare_geometry width height) ;;
         u <- ask_pure CallUuid4 (uuid4 W) ;;
         let tmp_filename := (u ++ ".jpg")%string in
         let tmp_path :=
           ("app/frontend/temp_generated_images/" ++ tmp_filename)%string in
         encode_loop fuel dims 95 ;;
         if r2_configured
         then ask (CallR2UploadFile tmp_path "instagram_ready")
                  (fun t => r2_upload_file W t tmp_path "instagram_ready")
         else
           google_drive.get_google_creds W ;;
           google_drive.build W "drive" ;;
           ask (CallOpenRead tmp_path) (fun t => open_read W t tmp_path) ;;
           file_id <- google_drive.files_create W
                        (mkDriveCreate tmp_filename "image/jpeg" None) ;;
           public_url <- google_drive.get_public_download_url W file_id ;;
           ret (Some public_url)
     end)
    (fun e => logger (LogNormalizeError e) ;; raise e).

(** One iteration of [for post in posts_to_delete]. *)
Definition delete_one (counts : Z * Z) (post : ScheduledPost) : M (Z * Z) :=
  let '(deleted_count, error_count) := counts in
  try_except
    (google_drive.delete_drive_folder W (google_drive_folder_id post) ;;
     crud.update_post_status W (id post) "deleted" ;;
     logger (LogDeleted (id post)) ;;
     ret (deleted_count + 1, error_count))
    (fun e =>
       logger (LogDeleteError (id post) e) ;;
       ret (deleted_count, error_count + 1)).

Definition check_and_delete_posts : M unit :=
  try_except
    (posts_to_delete <- crud.find_posts_for_deletion W DELETE_DELAY_HOURS ;;
     match posts_to_delete with
     | [] => logger LogNoPostsForDeletion
     | _ :: _ =>
         '(deleted_count, error_count) <- fold_m posts_to_delete (0, 0) delete_one ;;
         logger (LogCleanupComplete deleted_count error_count)
     end)
    (fun e => logger (LogCleanupCritical e)).

(** Lines 85-127: the [else] branch of the media loop, which downloads the
    media from Drive and stages it; any exception skips the media. *)
Definition prepare_from_drive (fuel : nat) (post : ScheduledPost) (idx : nat)
    (m : MediaEntry) (insta_urls : list (option string))
    : M (list (option string)) :=
  match uploaded_file_id m with
  | None => logger (LogNoDriveId idx) ;; ret insta_urls
  | Some drive_id =>
      if negb (truthy_str (Some drive_id))
      then logger (LogNoDriveId idx) ;; ret insta_urls
      else
        try_except
          (info <- google_drive.download_file_bytes W drive_id ;;
           if String.eqb (post_type post) "video" then
             if r2_configured then
               u <- ask_pure CallUuid4 (uuid4 W) ;;
               let tmp_filename := (u ++ ".mp4")%string in
               final_url <- ask (CallR2UploadFileobj tmp_filename "videos")
                 (fun t => r2_upload_fileobj W t tmp_filename "videos") ;;
               ret (insta_urls ++ [final_url])
             else
               (* [BytesIO] is bound only by the import in the other
                  branch, so its use here is an UnboundLocalError *)
               google_drive.get_google_creds W ;;
               google_drive.build W "drive" ;;
               raise (PyError "UnboundLocalError"
                        "cannot access local variable 'BytesIO'")
           else
             final_url <- validate_and_prepare_image fuel (file_name m)
                            (fi_bytes info) ;;
             ret (insta_urls ++ [final_url]))
          (fun e => logger (LogMediaError idx e) ;; ret insta_urls)
  end.

(** One iteration of [for idx, m in enumerate(media_paths)]: the URLs
    collected so far, extended or not. *)
Definition prepare_media (fuel : nat) (post : ScheduledPost) (idx : nat)
    (m : MediaEntry) (insta_urls : list (option string))
    : M (list (option string)) :=
  if opt_startswith (r2_url m) "http"
  then logger (LogUsingR2 (fmt_opt (r2_url m))) ;;
       ret (insta_urls ++ [r2_url m])
  else prepare_from_drive fuel post idx m insta_urls.

Fixpoint prepare_all (fuel : nat) (post : ScheduledPost) (idx : nat)
    (media : list MediaEntry) (insta_urls : list (option string))
    : M (list (option string)) :=
  match media with
  | [] => ret insta_urls
  | m :: rest =>
      insta_urls' <- prepare_media fuel post idx m insta_urls ;;
      prepare_all fuel post (S idx) rest insta_urls'
  end.

(** The body of [for post in posts_to_trigger], inside its [try]. *)
Definition trigger_one (fuel : nat) (post : ScheduledPost) : M unit :=
  match media_paths post with
  | None => raise (PyError "TypeError" "'NoneType' object is not iterable")
  | Some media =>
      insta_urls <- prepare_all fuel post 0 media [] ;;
      match insta_urls with
      | [] => logger (LogNoValidUrls (id post))
      | first :: _ =>
          let pt := post_type post in
          let cap := caption post in
          outcome <-
            (if String.eqb pt "static" then
               r <- facebook_graph.publish_photo W first cap ;; ret (Some r)
             else if startswith pt "carousel" || String.eqb pt "carousel" then
               r <- facebook_graph.publish_carousel W insta_urls cap ;;
               ret (Some r)
             else if String.eqb pt "video" then
               r <- facebook_graph.publish_video W first cap ;; ret (Some r)
             else logger (LogUnsupportedPostType pt) ;; ret None) ;;
          match outcome with
          | None => ret tt
          | Some (published, status_msg) =>
              if published : bool
              then logger (LogPublished (id post) status_msg) ;;
                   crud.update_post_status W (id post) "triggered"
              else logger (LogPublishFailed (id post) status_msg)
          end
      end
  end.

Definition trigger_each (fuel : nat) (post : ScheduledPost) : M unit :=
  try_except (trigger_one fuel post)
             (fun e => logger (LogTriggerError (id post) e)).

Definition check_and_trigger_posts (fuel : nat) : M unit :=
  posts_to_trigger <- crud.find_posts_to_trigger W ;;
  logger (LogFoundToTrigger (List.length posts_to_trigger)) ;;
  for_each posts_to_trigger (trigger_each fuel).

End WithWorld.
End cleanup_service.

(* ------------------------------------------------------------------ *)
(** ** app/services/google_calender.py *)

Module google_calender.
Section WithWorld.
Variable W : World.

(** The [except HttpError] clause prints and re-raises. *)
Definition create_calendar_event (scheduled_time_str cap : string)
    (drive_folder_id : option string) (pt : string) (tz : option string)
    : M (option string) :=
  google_drive.get_google_creds W ;;
  google_drive.build W "calendar" ;;
  if negb (fromisoformat W scheduled_time_str)
  then raise (PyError "ValueError" "Invalid isoformat string")
  else
    let drive_folder_link :=
      ("https://drive.google.com/drive/folders/"
       ++ fmt_opt drive_folder_id)%string in
    ask (CallCalendarInsert scheduled_time_str cap drive_folder_link)
        (fun t => calendar_insert W t scheduled_time_str cap drive_folder_link).

Definition handle_calendar_notification (resourceId : option string) : M unit :=
  let ev := resourceId in
  google_drive.get_google_creds W ;;
  try_except
    (google_drive.build W "calendar" ;;
     try_except_HttpError
       (ask_exn (CallCalendarGet ev) (fun t => calendar_get W t ev))
       (fun st _ =>
          if st =? 404 then crud.cancel_post_by_event_id W ev else ret tt))
    (fun _ => ret tt).

End WithWorld.
End google_calender.

(* ------------------------------------------------------------------ *)
(** ** app/routes/schedular.py *)

Module schedular.
Section WithWorld.
Variable W : World.

(** [f"{prefix}_{post_type}_{scheduled_time.replace(':', '-').replace('T', '_')}"] *)
Definition placeholder (prefix pt sched : string) : string :=
  (prefix ++ "_" ++ pt ++ "_"
   ++ replace_char "T"%char "_"%char (replace_char ":"%char "-"%char sched))%string.

Definition schedule_post (req : ScheduleRequest) : M ScheduleResponse :=
  try_except
    ((* 1. Upload selected files to Google Drive *)
     '(fid, uploaded_media, drive_upload_success) <-
        try_except
          ('(f, um) <- google_drive.upload_files_to_drive W
                         (selected_media req) (selected_caption req)
                         (Some (req_post_type req)) ;;
           ret (f, Some um, truthy_str f))
          (fun drive_e =>
             logger (LogDriveUploadError (str_exn drive_e)) ;;
             ret (None, None, false)) ;;
     (* 2. Create Google Calendar event *)
     eid <-
       (if (drive_upload_success : bool) && truthy_str fid
        then try_except
               (google_calender.create_calendar_event W
                  (req_scheduled_time req) (selected_caption req) fid
                  (req_post_type req) (timezone req))
               (fun cal_e =>
                  logger (LogCalendarError (str_exn cal_e)) ;; ret None)
        else ret None) ;;
     (* 3. Save record to the database *)
     try_except
       (let final_folder_id :=
          if truthy_str fid then fid
          else Some (placeholder "no_drive" (req_post_type req)
                                 (req_scheduled_time req)) in
        let final_event_id :=
          if truthy_str eid then eid
          else Some (placeholder "no_calendar" (req_post_type req)
                                 (req_scheduled_time req)) in
        let final_uploaded_media :=
          match uploaded_media with Some um => um | None => [] end in
        crud.add_scheduled_post W (req_post_type req) (selected_caption req)
          (req_scheduled_time req) final_folder_id final_event_id
          final_uploaded_media)
       (fun db_e =>
          logger (LogDatabaseSaveError (str_exn db_e)) ;;
          raise (PyError "Exception"
                   ("Failed to save to database: " ++ str_exn db_e))) ;;
     (* 4. The webhook is left to the background job *)
     lift (ScheduleResponse_init
             "Post scheduled successfully. Webhook will be triggered at the scheduled time."
             fid eid false (Some "Pending - will be sent at scheduled time")))
    (fun e =>
       logger (LogSchedulingCritical e) ;;
       raise (HTTPException 500 ("Scheduling failed: " ++ str_exn e))).

End WithWorld.
End schedular.

(* ------------------------------------------------------------------ *)
(** ** app/routes/instagram_webhook.py *)

Module instagram_webhook.

Definition verify_webhook (cfg : Settings)
    (hub_mode hub_challenge hub_verify_token : string) : result string :=
  if String.eqb hub_mode "subscribe"
     && match FACEBOOK_WEBHOOK_VERIFY_TOKEN cfg with
        | Some secret => String.eqb hub_verify_token secret
        | None => false
        end
  then Ok hub_challenge
  else Raise (HTTPException 403 "Verification failed").

End instagram_webhook.

(* ------------------------------------------------------------------ *)
(** ** The entry points that write the table, and runs of them *)

Module pipeline.

(** The periodic jobs and request handlers that read or write
    scheduled_posts.  [Insert] stands for the webhook routes, which call
    [crud.add_scheduled_post] with references of their own. *)
Inductive op : Type :=
| Trigger (fuel : nat)
| Cleanup
| CalendarNotification (resourceId : option string)
| Schedule (req : ScheduleRequest)
| Insert (pt cap sched : string) (folder event : option string)
         (media : list MediaEntry).

Definition run_op (W : World) (o : op) : M unit :=
  match o with
  | Trigger fuel => cleanup_service.check_and_trigger_posts W fuel
  | Cleanup => cleanup_service.check_and_delete_posts W
  | CalendarNotification r => google_calender.handle_calendar_notification W r
  | Schedule req => schedular.schedule_post W req ;; ret tt
  | Insert pt cap sched folder event media =>
      crud.add_scheduled_post W pt cap sched folder event media
  end.

(** Each job or request runs to its end, whatever its outcome, before the
    next one starts. *)
Fixpoint run_ops (W : World) (ops : list op) (s : state) : state :=
  match ops with
  | [] => s
  | o :: rest => run_ops W rest (snd (run_op W o s))
  end.

(** The log lines that record a call of the Publish Target Client for a post. *)
Definition is_publish_event (ev : log_event) : bool :=
  match ev with
  | LogPublished _ _ | LogPublishFailed _ _ => true
  | _ => false
  end.

Definition publish_event_of (i : Z) (ev : log_event) : bool :=
  match ev with
  | LogPublished j _ | LogPublishFailed j _ => j =? i
  | _ => false
  end.

Definition publish_attempts (i : Z) (l : list log_event) : list log_event :=
  filter (publish_event_of i) l.

(** Ids come from the table's serial counter. *)
Definition ids_below_counter (s : state) : Prop :=
  forall p, In p (db s) -> id p < next_id s.

Definition has_post (i : Z) (s : state) : Prop :=
  exists p, In p (db s) /\ id p = i.

Definition post_has_status (i : Z) (st : string) (s : state) : Prop :=
  forall p, In p (db s) -> id p = i -> status p = st.

End pipeline.

(* ------------------------------------------------------------------ *)
(** ** Concrete worlds and inputs *)

Module examples.

Definition cfg : Settings :=
  mkSettings (Some "bucket") (Some "https://acc.r2.cloudflarestorage.com")
             (Some "https://pub.r2.dev") (Some "token") (Some "1784")
             "v17.0" (Some "s3cret") None.

Definition ok_response : http_response :=
  mkHttpResponse 200 (Some (JObj [("id", JStr "17890")])) "{id: 17890}" [] None.

(** A world in which every service answers, up to the oracles given. *)
Definition world (posts : nat -> string -> list (string * json) -> reply http_response)
    (creds : nat -> fault) (exists_ : nat -> string -> bool)
    (delete : nat -> option string -> option exn)
    (decode : bytes -> option (Z * Z)) (save : nat -> Z * Z -> Z -> reply Z)
    : World :=
  mkWorld cfg
    (fun _ => 0) (fun _ => "2025-01-01_10-00-00") (fun _ => "uuid")
    (fun _ => None) (fun _ => Some 0)
    creds (fun _ _ => None)
    posts (fun _ _ => Returns ok_response)
    (fun _ _ => Returns []) exists_
    (fun _ _ => Returns []) (fun _ _ _ => None)
    (fun _ p _ => Returns (Some ("https://pub.r2.dev/" ++ p)%string))
    (fun _ p _ => Returns (Some ("https://pub.r2.dev/" ++ p)%string))
    (fun _ _ => Returns ["root"]) (fun _ r => Returns (Some ("id:" ++ dc_name r)%string))
    delete
    (fun _ _ => Returns (Some "a.png", Some "image/png"))
    (fun _ _ => Returns [])
    (fun _ _ => None)
    (fun _ => true) (fun _ _ _ _ => Returns (Some "evt123")) (fun _ _ => None)
    decode save
    (fun u => u) (fun p => p) (fun _ _ => ".png") (fun _ => "image/png").

Definition healthy : World :=
  world (fun _ _ _ => Returns ok_response) (fun _ => None) (fun _ _ => true)
        (fun _ _ => None) (fun _ => Some (1080, 1080)) (fun _ _ _ => Returns 1000).

(** The Graph API is unreachable: [requests.post] raises. *)
Definition graph_unreachable : World :=
  world (fun _ _ _ => Raises (PyError "ConnectionError" "Max retries exceeded"))
        (fun _ => None) (fun _ _ => true) (fun _ _ => None)
        (fun _ => Some (1080, 1080)) (fun _ _ _ => Returns 1000).

(** Google credentials cannot be obtained: every Drive call fails. *)
Definition drive_unreachable : World :=
  world (fun _ _ _ => Returns ok_response)
        (fun _ => Some ("FileNotFoundError", "Credentials file not found"))
        (fun _ _ => true) (fun _ _ => None)
        (fun _ => Some (1080, 1080)) (fun _ _ _ => Returns 1000).


(** Drive answers every folder deletion with a 500. *)
Definition drive_delete_500 : World :=
  world (fun _ _ _ => Returns ok_response) (fun _ => None) (fun _ _ => true)
        (fun _ _ => Some (HttpError 500 "backendError"))
        (fun _ => Some (1080, 1080)) (fun _ _ _ => Returns 1000).

(** Every image decodes to 1000 x 100 pixels. *)
Definition wide_image : World :=
  world (fun _ _ _ => Returns ok_response) (fun _ => None) (fun _ _ => true)
        (fun _ _ => None) (fun _ => Some (1000, 100)) (fun _ _ _ => Returns 1000).

(** Every JPEG comes out at 9 MiB, whatever the quality. *)
Definition huge_jpeg : World :=
  world (fun _ _ _ => Returns ok_response) (fun _ => None) (fun _ _ => true)
        (fun _ _ => None) (fun _ => Some (1080, 1080))
        (fun _ _ _ => Returns (9 * 1024 * 1024)).

Definition empty_state : state := mkState 0 [] 1 [] [].

Definition request : ScheduleRequest :=
  mkScheduleRequest ["/temp_generated_images/a.png"] "Hello"
                    "2025-01-01T10:00:00" "static" None.

Definition entry : MediaEntry :=
  mkMediaEntry (Some "/temp_generated_images/a.png")
               (Some "https://pub.r2.dev/a.png") (Some "drive1")
               (Some "a.png") (Some "image/png") None.

Definition post (i t : Z) (st : string) : ScheduledPost :=
  mkPost i "static" "Hello" t (Some "folder1") (Some "evt123") st
         (Some [entry]) 0.

Definition state_with (rows : list ScheduledPost) : state :=
  mkState 0 rows 10 [] [].

(** The table and log after a first trigger pass has published post 1. *)
Definition after_first_trigger : state :=
  pipeline.run_ops healthy [pipeline.Trigger 6]
                   (state_with [post 1 0 "scheduled"]).

End examples.

(* ------------------------------------------------------------------ *)
(** ** Predicates of the specification *)

Import cleanup_service.
Import pipeline.

Definition by_time (a b : ScheduledPost) : Prop :=
  scheduled_time a <= scheduled_time b.

(** From quality [q] the loop ends within [n] iterations, whatever the
    encoder answers, and more fuel changes nothing. *)
Definition settles (W : World) (dims : Z * Z) (q : Z) (n : nat) : Prop :=
  forall k s,
    let run := encode_loop W (n + k) dims q s in
    run = encode_loop W n dims q s
    /\ fst run <> Diverge
    /\ (forall q' size, fst run = Ok (q', size) -> size <= MAX_BYTES \/ q' = 40)
    /\ (tick (snd run) <= tick s + n)%nat.






(** A response body the client copes with: not JSON, falsy, or an object
    whose "id" is a string or falsy. *)
Definition graph_body (r : http_response) : bool :=
  match r_json r with
  | None => true
  | Some (JObj f) =>
      match lookup "id" f with
      | JStr _ => true
      | v => negb (truthy v)
      end
  | Some j => negb (truthy j)
  end.

(** Every POST is answered, with whatever status, by such a body. *)
Definition posts_answered (W : World) : Prop :=
  forall t u d, exists r, requests_post W t u d = Returns r /\ graph_body r = true.

(** [silent m]: running [m] changes neither the rows, nor the id counter,
    nor the publish lines of the log. *)
Definition silent {A} (m : M A) : Prop :=
  forall s,
    db (snd (m s)) = db s
    /\ next_id (snd (m s)) = next_id s
    /\ filter pipeline.is_publish_event (log (snd (m s)))
       = filter pipeline.is_publish_event (log s).




(** What every job and request preserves once post [i] is 'triggered':
    ids come from the counter, the post is there, every row with its id is
    'triggered', and the log holds the same publish lines [n] for it. *)
Definition Inv (i : Z) (n : list log_event) (s : state) : Prop :=
  ids_below_counter s
  /\ has_post i s
  /\ post_has_status i "triggered" s
  /\ publish_attempts i (log s) = n.

Definition keeps (i : Z) (n : list log_event) {A} (m : M A) : Prop :=
  forall s, Inv i n s -> Inv i n (snd (m s)).

(** [stable P]: [P] looks only at the rows, the id counter and the publish
    lines of the log. *)
Definition stable (P : state -> Prop) : Prop :=
  forall s s',
    db s' = db s -> next_id s' = next_id s ->
    filter is_publish_event (log s') = filter is_publish_event (log s) ->
    P s -> P s'.

(** [hoare P m Q]: from a state with [P], whatever the outcome of [m], the
    state it leaves has [Q]. *)
Definition hoare (P : state -> Prop) {A} (m : M A) (Q : state -> Prop) : Prop :=
  forall s, P s -> Q (snd (m s)).

(** How cleanup may change a row: not at all, or to 'deleted' when a
    selected post has its id. *)
Definition deleted_step (selected : list ScheduledPost)
    (p p' : ScheduledPost) : Prop :=
  p' = p
  \/ (p' = set_status "deleted" p /\ exists q, In q selected /\ id q = id p).

(** How a calendar notification for event [ev] may change a row. *)
Definition cancel_step (ev : option string) (p p' : ScheduledPost) : Prop :=
  p' = p
  \/ (status p = "scheduled" /\ ev <> None
      /\ google_calendar_event_id p = ev /\ p' = set_status "cancelled" p).

(** Credentials and database work, and Drive fails, if at all, with an
    HttpError. *)
Definition drive_fails_with_http_only (W : World) : Prop :=
  (forall t, creds_fault W t = None)
  /\ (forall t, db_fault W t = None)
  /\ (forall t, build_fault W t "drive" = None)
  /\ (forall t fid,
        drive_delete W t fid = None
        \/ exists st msg, drive_delete W t fid = Some (HttpError st msg)).

(** The rows after every post of [selected] has been marked 'deleted'. *)
Definition mark_deleted (selected rows : list ScheduledPost)
    : list ScheduledPost :=
  map (fun p => if existsb (fun q => id q =? id p) selected
                then set_status "deleted" p else p) rows.

(** More concrete worlds. *)
Module more_examples.

(** A healthy world, up to what Drive answers to a deletion, what the
    calendar answers to events().get and whether the database works. *)
Definition world (delete : nat -> option string -> option exn)
    (get_event : nat -> option string -> option exn)
    (database : nat -> fault) : World :=
  mkWorld examples.cfg
    (fun _ => 0) (fun _ => "2025-01-01_10-00-00") (fun _ => "uuid")
    database (fun _ => Some 0)
    (fun _ => None) (fun _ _ => None)
    (fun _ _ _ => Returns examples.ok_response)
    (fun _ _ => Returns examples.ok_response)
    (fun _ _ => Returns []) (fun _ _ => true)
    (fun _ _ => Returns []) (fun _ _ _ => None)
    (fun _ p _ => Returns (Some ("https://pub.r2.dev/" ++ p)%string))
    (fun _ p _ => Returns (Some ("https://pub.r2.dev/" ++ p)%string))
    (fun _ _ => Returns ["root"])
    (fun _ r => Returns (Some ("id:" ++ dc_name r)%string))
    delete
    (fun _ _ => Returns (Some "a.png", Some "image/png"))
    (fun _ _ => Returns [])
    (fun _ _ => None)
    (fun _ => true) (fun _ _ _ _ => Returns (Some "evt123")) get_event
    (fun _ => Some (1080, 1080)) (fun _ _ _ => Returns 1000)
    (fun u => u) (fun p => p) (fun _ _ => ".png") (fun _ => "image/png").

(** The calendar event is gone: events().get answers 404. *)
Definition event_deleted : World :=
  world (fun _ _ => None) (fun _ _ => Some (HttpError 404 "Not Found"))
        (fun _ => None).

(** The database is down. *)
Definition database_down : World :=
  world (fun _ _ => None) (fun _ _ => None)
        (fun _ => Some ("OperationalError", "connection refused")).

End more_examples.

(** How a trigger pass may change a row: not at all, or to 'triggered'
    when the pass logged a successful publish for its id. *)
Definition triggered_step (added : list log_event)
    (p p' : ScheduledPost) : Prop :=
  p' = p
  \/ (p' = set_status "triggered" p
      /\ exists msg, In (LogPublished (id p) msg) added).

(** The state during a trigger pass over [posts] that started with rows
    [d0], counter [n0] and log [l0]: [added] are the publish lines logged
    since, each for one of the posts. *)
Definition trigger_frame (posts d0 : list ScheduledPost) (n0 : Z)
    (l0 : list log_event) (s : state) : Prop :=
  next_id s = n0
  /\ exists added,
       filter is_publish_event (log s) = filter is_publish_event l0 ++ added
       /\ Forall2 (triggered_step added) d0 (db s)
       /\ Forall (fun ev => exists q, In q posts
                                      /\ publish_event_of (id q) ev = true)
                 added.

(** What makes a single-media publish succeed: both credentials are set, the
    container POST (to [endpoint], with the media URL under [field]) was
    answered 200 or 201 by a JSON object with a truthy id, and the
    media_publish POST that carries this id was answered 200 or 201. *)
Definition two_step_publish (W : World) (endpoint : string -> string)
    (field prefix : string) (media_url : option string) (cap : string)
    (s : state) (msg : string) (s' : state) : Prop :=
  exists tok ig r1 fields r2,
    let create := [(field, facebook_graph.json_of_opt media_url);
                   ("caption", JStr cap);
                   ("access_token", JStr tok)] in
    let publish := [("creation_id", lookup "id" fields);
                    ("access_token", JStr tok)] in
    let create_url := endpoint (ig ++ "/media")%string in
    let publish_url := facebook_graph._graph_url W (ig ++ "/media_publish")%string in
    FACEBOOK_PAGE_ACCESS_TOKEN (settings W) = Some tok /\ tok <> ""%string
    /\ INSTAGRAM_USER_ID (settings W) = Some ig /\ ig <> ""%string
    /\ requests_post W (tick s) create_url create = Returns r1
    /\ facebook_graph.ok_status (r_status r1) = true
    /\ r_json r1 = Some (JObj fields)
    /\ truthy (lookup "id" fields) = true
    /\ requests_post W (S (tick s)) publish_url publish = Returns r2
    /\ facebook_graph.ok_status (r_status r2) = true
    /\ msg = (prefix ++ r_text r2)%string
    /\ s' = step_world (CallRequestsPost publish_url publish)
              (step_world (CallRequestsPost create_url create) s).

Definition video_url_of (W : World) (path : string) : string :=
  ("https://graph-video.facebook.com/" ++ facebook_graph.version W ++ "/" ++ path)%string.

(** The state after the external calls [cs], made one after the other. *)
Definition after_calls (cs : list call) (s : state) : state :=
  fold_left (fun s c => step_world c s) cs s.

(** The POST that creates the child container of one carousel image. *)
Definition child_data (tok : string) (u : option string) : list (string * json) :=
  [("image_url", facebook_graph.json_of_opt u);
   ("is_carousel_item", JBool true);
   ("access_token", JStr tok)].

Definition child_call (W : World) (ig tok : string) (u : option string) : call :=
  CallRequestsPost (facebook_graph._graph_url W (ig ++ "/media")%string)
                   (child_data tok u).

(** From tick [t] on, the child POSTs for [urls] were answered, one after the
    other, 200 or 201 by JSON objects whose truthy ids are [ids]. *)
Fixpoint children_answered (W : World) (ig tok : string) (t : nat)
    (urls : list (option string)) (ids : list json) : Prop :=
  match urls, ids with
  | [], [] => True
  | u :: urls', cid :: ids' =>
      (exists r fields,
          requests_post W t (facebook_graph._graph_url W (ig ++ "/media")%string)
                        (child_data tok u) = Returns r
          /\ facebook_graph.ok_status (r_status r) = true
          /\ r_json r = Some (JObj fields)
          /\ lookup "id" fields = cid
          /\ truthy cid = true)
      /\ children_answered W ig tok (S t) urls' ids'
  | _, _ => False
  end.

(** What makes a carousel publish succeed. *)
Definition carousel_publish (W : World) (urls : list (option string))
    (cap : string) (s : state) (msg : string) (s' : state) : Prop :=
  exists tok ig ids r1 fields r2,
    let n := List.length urls in
    let parent := [("children", JStr (join "," ids));
                   ("caption", JStr cap);
                   ("access_token", JStr tok)] in
    let publish := [("creation_id", lookup "id" fields);
                    ("access_token", JStr tok)] in
    let parent_url := facebook_graph._graph_url W (ig ++ "/media")%string in
    let publish_url := facebook_graph._graph_url W (ig ++ "/media_publish")%string in
    FACEBOOK_PAGE_ACCESS_TOKEN (settings W) = Some tok /\ tok <> ""%string
    /\ INSTAGRAM_USER_ID (settings W) = Some ig /\ ig <> ""%string
    /\ children_answered W ig tok (tick s) urls (map JStr ids)
    /\ requests_post W (tick s + n) parent_url parent = Returns r1
    /\ facebook_graph.ok_status (r_status r1) = true
    /\ r_json r1 = Some (JObj fields)
    /\ truthy (lookup "id" fields) = true
    /\ requests_post W (S (tick s + n)) publish_url publish = Returns r2
    /\ facebook_graph.ok_status (r_status r2) = true
    /\ msg = ("Carousel published: " ++ r_text r2)%string
    /\ s' = after_calls (map (child_call W ig tok) urls
                         ++ [CallRequestsPost parent_url parent;
                             CallRequestsPost publish_url publish]) s.

(** The credentials check all three publish functions begin with. *)
Definition configured (W : World) : bool :=
  truthy_str (FACEBOOK_PAGE_ACCESS_TOKEN (settings W))
  && truthy_str (INSTAGRAM_USER_ID (settings W)).

(** What the Graph API answered to [c], the call number [i] (from 0) of a
    run begun in [s], when [c] is an HTTP POST. *)
Definition post_reply (W : World) (s : state) (i : nat) (c : call)
    : option (reply http_response) :=
  match c with
  | CallRequestsPost u d => Some (requests_post W (tick s + i) u d)
  | _ => None
  end.

(** The POST that publishes a container sends its [creation_id]; every other
    POST creates a container. *)
Definition publish_step (c : call) : bool :=
  match c with
  | CallRequestsPost _ ((k, _) :: _) => String.eqb k "creation_id"
  | _ => false
  end.

(** An answer the code goes on from: status 200 or 201 and, when a container
    was to be created, a JSON object with a truthy id.  Any other answer is a
    refused or incomplete one. *)
Definition accepted (c : call) (r : http_response) : bool :=
  facebook_graph.ok_status (r_status r)
  && (publish_step c
      || match r_json r with
         | Some (JObj fields) => truthy (lookup "id" fields)
         | _ => false
         end).

(** [run], begun in [s], returns a pair made from the answers to its POSTs:
    every POST was answered; an answer that is not accepted ends the run with
    (False, reason ++ response text); False comes from nothing else but
    missing credentials; and True comes with the text of the accepted answer
    to the publishing POST, which is the last call. *)
Definition pair_from_answers (W : World) (reasons : list string)
    (success : string) (s : state) (run : result (bool * string) * state)
    : Prop :=
  exists b msg new,
    fst run = Ok (b, msg)
    /\ snd run = after_calls new s
    /\ (forall i c, nth_error new i = Some c ->
          exists r, post_reply W s i c = Some (Returns r)
                    /\ (accepted c r = false ->
                        b = false /\ S i = List.length new
                        /\ exists reason, In reason reasons
                                          /\ msg = (reason ++ r_text r)%string))
    /\ (b = false ->
        (configured W = false /\ new = []
         /\ msg = "Facebook/Instagram credentials not configured"%string)
        \/ exists i c r, nth_error new i = Some c
                         /\ post_reply W s i c = Some (Returns r)
                         /\ accepted c r = false)
    /\ (b = true ->
        configured W = true
        /\ exists pre c r, new = pre ++ [c]
                           /\ publish_step c = true
                           /\ post_reply W s (List.length pre) c = Some (Returns r)
                           /\ msg = (success ++ r_text r)%string).

(** An exception of any POST of [run], begun in [s], is the outcome of
    [run]. *)
Definition post_errors_pass (W : World) {A} (s : state)
    (run : result A * state) : Prop :=
  exists new,
    snd run = after_calls new s
    /\ forall i c e, nth_error new i = Some c ->
                     post_reply W s i c = Some (Raises e) ->
                     fst run = Raise e.

Definition photo_reasons : list string :=
  ["Failed to create media container: "; "No creation id returned: ";
   "Publish failed: "].

Definition carousel_reasons : list string :=
  ["Failed creating child media: "; "No child id returned: ";
   "Failed to create parent carousel container: ";
   "No creation id for carousel: "; "Carousel publish failed: "].

Definition video_reasons : list string :=
  ["Failed to create video container: "; "No creation id returned for video: ";
   "Video publish failed: "].

(** [m] comes to an end from every state: it returns or raises. *)
Definition converges {A} (m : M A) : Prop :=
  forall s, fst (m s) <> Diverge.

(** [m] returns from every state: it neither raises nor runs on. *)
Definition returns {A} (m : M A) : Prop :=
  forall s, exists a, fst (m s) = Ok a.

(** The row [schedule_post] stores for a request, as far as the request
    determines it. *)
Definition stored_by (W : World) (req : ScheduleRequest) (s : state)
    (row : ScheduledPost) : Prop :=
  id row = next_id s
  /\ status row = "scheduled"%string
  /\ post_type row = req_post_type req
  /\ caption row = selected_caption req
  /\ pg_timestamp W (req_scheduled_time req) = Some (scheduled_time row).

(** [m] makes only external calls that [P] allows, whatever its outcome. *)
Definition only_calls (P : call -> bool) {A} (m : M A) : Prop :=
  forall s, exists cs,
    calls (snd (m s)) = calls s ++ cs /\ forallb P cs = true.

(** The external calls of each entry point. *)
Definition cleanup_call (c : call) : bool :=
  match c with
  | CallNow | CallQuery _ | CallGetCreds | CallBuild _ | CallDriveDelete _ => true
  | _ => false
  end.

Definition notification_call (c : call) : bool :=
  match c with
  | CallGetCreds | CallBuild _ | CallCalendarGet _ | CallQuery _ => true
  | _ => false
  end.

Definition trigger_call (c : call) : bool :=
  match c with
  | CallNow | CallQuery _ | CallGetCreds | CallBuild _
  | CallDriveGetMeta _ | CallDriveGetMedia _ | CallUuid4 | CallJpegSave _ _ _
  | CallR2UploadFile _ _ | CallR2UploadFileobj _ _ | CallOpenRead _
  | CallDriveCreate _ | CallDrivePermission _ | CallRequestsPost _ _ => true
  | _ => false
  end.

Definition schedule_call (c : call) : bool :=
  match c with
  | CallNow | CallQuery _ | CallGetCreds | CallBuild _
  | CallDriveList _ | CallDriveCreate _ | CallDriveDelete _
  | CallRequestsGet _ | CallUuid4 | CallR2PutObject _ | CallR2UploadFile _ _
  | CallPathExists _ | CallOpenRead _ | CallCalendarInsert _ _ _ => true
  | _ => false
  end.

(** Calls that only read: a download, a GET, a look at the file system. *)
Definition read_call (c : call) : bool :=
  match c with
  | CallR2Download _ | CallDriveGetMeta _ | CallDriveGetMedia _
  | CallRequestsGet _ | CallPathExists _ | CallOpenRead _ => true
  | _ => false
  end.

(** Obtaining the Google credentials and the API client.  This is no read:
    [auth.get_google_creds] may refresh the token or run the OAuth flow, and
    then rewrites the token file. *)
Definition auth_call (c : call) : bool :=
  match c with
  | CallGetCreds | CallBuild _ => true
  | _ => false
  end.

(** The calls of a media fetch: reads and, for Drive, the credentials. *)
Definition fetch_call (c : call) : bool := read_call c || auth_call c.

(** Calls to the Graph API: POSTs to one of its two hosts. *)
Definition graph_call (c : call) : bool :=
  match c with
  | CallRequestsPost u _ =>
      startswith u "https://graph.facebook.com/"
      || startswith u "https://graph-video.facebook.com/"
  | _ => false
  end.

(** The calls of an upload that goes through: everything a scheduling
    request may call but the folder deletion, the calendar and the table. *)
Definition upload_call (c : call) : bool :=
  match c with
  | CallNow | CallGetCreds | CallBuild _
  | CallDriveList _ | CallDriveCreate _
  | CallRequestsGet _ | CallUuid4 | CallR2PutObject _ | CallR2UploadFile _ _
  | CallPathExists _ | CallOpenRead _ => true
  | _ => false
  end.






(* ------------------------------------------------------------------ *)
(** ** app/utils/retry.py *)

Module retry.
Section Retry.

(** [func], called with its arguments, is any piece of code over the
    caller's state; [exceptions] tells which exceptions the [except] clause
    catches. *)
Context {St A : Type}.
Variable func : St -> result A * St.
Variable exceptions : exn -> bool.
Variable retries : Z.
Variable delay : float.
Variable backoff : float.

(** Python's [backoff ** attempt] on a float and an int, which answers a
    float or raises (OverflowError when the result is out of range), and
    [time.sleep], which raises instead of sleeping when the length is
    negative or not a number (ValueError) or too large (OverflowError). *)
Variable float_pow : float -> Z -> float + exn.
Variable time_sleep : float -> option exn.

(** [raise last_exc] *)
Definition raise_last (last_exc : option exn) : result A :=
  match last_exc with
  | Some e => Raise e
  | None => Raise (PyError "TypeError" "exceptions must derive from BaseException")
  end.

(** [time.sleep(delay * (backoff ** attempt))]: the length slept, or the
    exception raised instead. *)
Definition sleep_after (attempt : Z) : float + exn :=
  match float_pow backoff attempt with
  | inl p =>
      let secs := PrimFloat.mul delay p in
      match time_sleep secs with
      | None => inl secs
      | Some e => inr e
      end
  | inr e => inr e
  end.

(** The [while attempt < retries] loop; [fuel] bounds the iterations the
    model follows.  [sleeps] collects the lengths slept.  The sleep stands in
    the [except] clause, so an exception of it leaves [retry]. *)
Fixpoint loop (fuel : nat) (attempt : Z) (last_exc : option exn) (s : St)
    (sleeps : list float) : result A * St * list float :=
  match fuel with
  | O => (Diverge, s, sleeps)
  | S fuel' =>
      if attempt <? retries
      then match func s with
           | (Ok a, s') => (Ok a, s', sleeps)
           | (Raise e, s') =>
               if exceptions e
               then match sleep_after attempt with
                    | inl secs =>
                        loop fuel' (attempt + 1) (Some e) s' (sleeps ++ [secs])
                    | inr e' => (Raise e', s', sleeps)
                    end
               else (Raise e, s', sleeps)
           | (Diverge, s') => (Diverge, s', sleeps)
           end
      else (raise_last last_exc, s, sleeps)
  end.

Definition retry (fuel : nat) (s : St) : result A * St * list float :=
  loop fuel 0 None s [].

(** [failures k attempt s s' last0 last sleeps]: from [s] and attempt number
    [attempt], [k] calls in a row raised a caught exception and were each
    followed by a sleep, of the lengths [sleeps], leaving state [s'] and the
    exception [last] ([last0] when [k] is 0). *)
Inductive failures
  : nat -> Z -> St -> St -> option exn -> option exn -> list float -> Prop :=
| failures_none attempt s last0 : failures 0 attempt s s last0 last0 []
| failures_next k attempt s s1 s2 e last0 last secs sleeps :
    func s = (Raise e, s1) -> exceptions e = true ->
    sleep_after attempt = inl secs ->
    failures k (attempt + 1) s1 s2 (Some e) last sleeps ->
    failures (S k) attempt s s2 last0 last (secs :: sleeps).

(** A call that is not a caught failure: it ends the loop. *)
Definition ends_loop (r : result A) : Prop :=
  match r with
  | Raise e => exceptions e = false
  | _ => True
  end.

End Retry.
End retry.

(** A function that fails twice and then answers, over a call counter. *)
Definition flaky (n : nat) : result nat * nat :=
  if (n <? 2)%nat then (Raise (PyError "ConnectionError" "reset"), S n)
  else (Ok n, S n).

(** For the examples: powers by repeated multiplication, which is exact for
    the powers of 2.0 taken here, and a sleep that refuses negative
    lengths. *)
Definition repeated_mul (b : float) (n : Z) : float + exn :=
  inl (Z.iter n (PrimFloat.mul b) 1%float).

Definition sleep_nonnegative (secs : float) : option exn :=
  if PrimFloat.ltb secs 0%float
  then Some (PyError "ValueError" "sleep length must be non-negative")
  else None.

(* ------------------------------------------------------------------ *)
(** ** app/routes/webhook.py: fetching the media of a request *)

Module webhook.
Section WithWorld.
Variable W : World.
Variable float_pow : float -> Z -> float + exn.
Variable time_sleep : float -> option exn.

(** Lines 42-46 (and 321-325): the bytes of one media entry, fetched with
    [retry(publisher_service.get_media_bytes, retries=2, delay=1.0,
    backoff=2.0, args=(entry_dict,))]; a failure becomes a 502.  Answers the
    bytes and the lengths of the sleeps made. *)
Definition fetch_media (fuel : nat) (entry : MediaEntry)
    : state -> result publisher_service.media_bytes * state * list float :=
  fun s =>
    (* [entry.dict()] has the keys of the schema, so no [url] *)
    let entry_dict :=
      mkMediaEntry (requested_path entry) (r2_url entry)
                   (uploaded_file_id entry) (file_name entry)
                   (mime_type entry) None in
    match retry.retry (publisher_service.get_media_bytes W entry_dict)
                      (fun _ => true) 2 1%float 2%float float_pow time_sleep
                      fuel s with
    | (Raise e, s', sleeps) =>
        (Raise (HTTPException 502
                  ("Failed to fetch media: "
                   ++ fmt_opt (or_str (requested_path entry) (r2_url entry))
                   ++ " - " ++ str_exn e)),
         s', sleeps)
    | r => r
    end.

End WithWorld.
End webhook.

(* ------------------------------------------------------------------ *)
(** ** app/routes/instagram_webhook.py: the notification endpoint *)

Module instagram_events.

(** [s.isascii()] *)
Definition is_ascii_char (c : ascii) : bool :=
  match c with Ascii _ _ _ _ _ _ _ b7 => negb b7 end.

Fixpoint isascii (s : string) : bool :=
  match s with
  | EmptyString => true
  | String c rest => is_ascii_char c && isascii rest
  end.

(** [hmac.compare_digest(a, b)] on two [str]: it refuses strings that are
    not ASCII. *)
Definition compare_digest (a b : string) : result bool :=
  if isascii a && isascii b then Ok (String.eqb a b)
  else Raise (PyError "TypeError"
                "comparing strings with non-ASCII characters is not supported").

(** [d.get(k, default)] on a dict. *)
Fixpoint dict_get (k : string) (fields : list (string * json)) (default : json)
    : json :=
  match fields with
  | [] => default
  | (k', v) :: rest => if String.eqb k k' then v else dict_get k rest default
  end.

(** [v.get(k, default)] on any value: only a dict has [get]. *)
Definition value_get (v : json) (k : string) (default : json) : result json :=
  match v with
  | JObj f => Ok (dict_get k f default)
  | _ => Raise (PyError "AttributeError" "object has no attribute 'get'")
  end.

(** [a or b] *)
Definition or_json (a b : json) : json := if truthy a then a else b.

(** [schemas.InstagramWebhookEntry]; each change is a dict. *)
Record InstagramWebhookEntry : Type := mkInstagramWebhookEntry {
  entry_id : string;
  entry_time : Z;
  changes : list (list (string * json))
}.

(** What [json.loads(body)] does: it returns the document, raises
    [json.JSONDecodeError], or raises an exception of another class (a
    [UnicodeDecodeError] on bytes that are not UTF-8). *)
Inductive loads_outcome : Type :=
| Loaded (payload : json)
| DecodeError
| OtherError (kind msg : string).

(** What the handler logs for a change. *)
Inductive event : Type :=
| MediaEvent (media_id permalink cap timestamp : json)
| CommentEvent (comment_id text from_user : json)
| UnhandledEvent (field value : json).

(** Lines 78-104: one change of an entry. *)
Definition process_change (change : list (string * json)) : result event :=
  let field := dict_get "field" change JNull in
  let value := dict_get "value" change (JObj []) in
  match field with
  | JStr f =>
      if String.eqb f "media" then
        pyfloat.rbind (value_get value "id" JNull) (fun a =>
        pyfloat.rbind (if truthy a then Ok a
                       else value_get value "media_id" JNull) (fun media_id =>
        pyfloat.rbind (value_get value "permalink" JNull) (fun permalink =>
        pyfloat.rbind (value_get value "caption" JNull) (fun cap =>
        pyfloat.rbind (value_get value "timestamp" JNull) (fun timestamp =>
        Ok (MediaEvent media_id permalink cap timestamp))))))
      else if String.eqb f "comments" then
        pyfloat.rbind (value_get value "id" JNull) (fun a =>
        pyfloat.rbind (if truthy a then Ok a
                       else value_get value "comment_id" JNull) (fun comment_id =>
        pyfloat.rbind (value_get value "text" JNull) (fun text =>
        pyfloat.rbind (value_get value "from" (JObj [])) (fun from =>
        pyfloat.rbind (value_get from "username" (JStr "unknown")) (fun from_user =>
        Ok (CommentEvent comment_id text from_user))))))
      else Ok (UnhandledEvent field value)
  | _ => Ok (UnhandledEvent field value)
  end.

(** The two nested [for] loops, over all changes of all entries in order;
    answers the events logged and the exception that stopped it, if any. *)
Fixpoint process_changes (cs : list (list (string * json))) (logged : list event)
    : option exn * list event :=
  match cs with
  | [] => (None, logged)
  | c :: rest =>
      match process_change c with
      | Ok ev => process_changes rest (logged ++ [ev])
      | Raise e => (Some e, logged)
      | Diverge => (None, logged)
      end
  end.

Section WithSettings.
Variable cfg : Settings.
(** [hmac.new(key.encode('utf-8'), body, hashlib.sha256).hexdigest()] *)
Variable hmac_sha256_hexdigest : string -> bytes -> string.
(** [json.loads(body)] *)
Variable json_loads : bytes -> loads_outcome.
(** The entries of the [schemas.InstagramWebhookRequest] built from the
    payload, [None] when the construction raises. *)
Variable validate : json -> option (list InstagramWebhookEntry).

Definition verify_signature (request_body : bytes) (signature : string)
    : result bool :=
  match FACEBOOK_APP_SECRET cfg with
  | Some secret =>
      if negb (truthy_str (Some secret)) then Ok true
      else compare_digest
             ("sha256=" ++ hmac_sha256_hexdigest secret request_body)
             signature
  | None => Ok true
  end.

(** Lines 61-107: what follows the signature check. *)
Definition handle_verified (body : bytes) : result json * list event :=
  match json_loads body with
  | DecodeError => (Raise (HTTPException 400 "Invalid JSON"), [])
  | OtherError kind msg => (Raise (PyError kind msg), [])
  | Loaded payload =>
      match validate payload with
      | None => (Raise (HTTPException 400 "Invalid payload structure"), [])
      | Some entries =>
          match process_changes (flat_map changes entries) [] with
          | (Some e, logged) => (Raise e, logged)
          | (None, logged) => (Ok (JObj [("status", JStr "ok")]), logged)
          end
      end
  end.

Definition handle_webhook (signature : option string) (body : bytes)
    : result json * list event :=
  match signature with
  | None => (Raise (HTTPException 403 "Missing signature"), [])
  | Some sig =>
      if negb (truthy_str signature)
      then (Raise (HTTPException 403 "Missing signature"), [])
      else
        match verify_signature body sig with
        | Raise e => (Raise e, [])
        | Diverge => (Diverge, [])
        | Ok false => (Raise (HTTPException 403 "Invalid signature"), [])
        | Ok true => handle_verified body
        end
  end.

End WithSettings.
End instagram_events.

(** The request passes the signature check: it carries a signature, and
    either no app secret is configured or the signature is the HMAC of the
    body under the secret. *)
Definition signed (cfg : Settings) (hmac : string -> bytes -> string)
    (signature : option string) (body : bytes) : Prop :=
  exists sig,
    signature = Some sig /\ sig <> ""%string
    /\ (truthy_str (FACEBOOK_APP_SECRET cfg) = false
        \/ exists secret,
             FACEBOOK_APP_SECRET cfg = Some secret
             /\ sig = ("sha256=" ++ hmac secret body)%string).

(** The calls that prepare the media of a post: the calls of the trigger
    job but the POSTs to the Graph API and the table. *)
Definition prepare_call (c : call) : bool :=
  match c with
  | CallGetCreds | CallBuild _
  | CallDriveGetMeta _ | CallDriveGetMedia _ | CallUuid4 | CallJpegSave _ _ _
  | CallR2UploadFile _ _ | CallR2UploadFileobj _ _ | CallOpenRead _
  | CallDriveCreate _ | CallDrivePermission _ => true
  | _ => false
  end.

(** Posts the trigger job cannot publish: the row has no media list, its
    type is none of the three the job knows, or it is a video none of whose
    media has a usable R2 URL while R2 is not configured. *)
Definition never_publishable (W : World) (p : ScheduledPost) : Prop :=
  media_paths p = None
  \/ (String.eqb (post_type p) "static" = false
      /\ startswith (post_type p) "carousel" = false
      /\ String.eqb (post_type p) "video" = false)
  \/ (post_type p = "video"%string
      /\ r2_configured W = false
      /\ forall media, media_paths p = Some media ->
           Forall (fun m => opt_startswith (r2_url m) "http" = false) media).

(** A result of [m], when it returns one, is [urls] with at most one URL
    added at the end. *)
Definition appends (urls : list (option string))
    (m : M (list (option string))) : Prop :=
  forall s urls',
    fst (m s) = Ok urls' ->
    exists piece, urls' = urls ++ piece /\ (List.length piece <= 1)%nat.

(* ------------------------------------------------------------------ *)
(** ** app/routes/calendar_webhook.py *)

Module calendar_route.

(** [headers.get(name)] on the dict made of the request headers. *)
Fixpoint header_get (name : string) (headers : list (string * string))
    : option string :=
  match headers with
  | [] => None
  | (k, v) :: rest => if String.eqb name k then Some v else header_get name rest
  end.

Section WithWorld.
Variable W : World.
(** [json.loads(body)] *)
Variable json_loads : bytes -> instagram_events.loads_outcome.

(** Lines 21-35: the notification data are the parsed body, when there is
    one and it parses, updated with the five header values; [update] needs
    a dict.  What is handed on is its [resourceId], which the update has set
    from the header. *)
Definition notification_resource_id (headers : list (string * string))
    (body : bytes) : M (option string) :=
  match body with
  | [] => ret tt
  | _ :: _ =>
      match json_loads body with
      | instagram_events.Loaded (JObj _) => ret tt
      | instagram_events.Loaded _ =>
          raise (PyError "AttributeError" "object has no attribute 'update'")
      | instagram_events.DecodeError => ret tt
      | instagram_events.OtherError kind msg => raise (PyError kind msg)
      end
  end ;;
  ret (header_get "X-Goog-Resource-ID" headers).

Definition calendar_webhook (headers : list (string * string)) (body : bytes)
    : M json :=
  try_except
    (resourceId <- notification_resource_id headers body ;;
     google_calender.handle_calendar_notification W resourceId ;;
     ret (JObj [("status", JStr "ok")]))
    (fun e => raise (HTTPException 500 "Internal server error")).

End WithWorld.
End calendar_route.

(** A body the calendar route can work with: empty, not JSON, or a JSON
    object. *)
Definition usable_body (json_loads : bytes -> instagram_events.loads_outcome)
    (body : bytes) : Prop :=
  body = []
  \/ json_loads body = instagram_events.DecodeError
  \/ exists fields, json_loads body = instagram_events.Loaded (JObj fields).

(* ------------------------------------------------------------------ *)
(** ** app/services/r2_service.py *)

Module r2_service.

(** [s.endswith(suffix)] *)
Fixpoint endswith (s suffix : string) : bool :=
  if String.eqb s suffix then true
  else match s with
       | EmptyString => false
       | String _ rest => endswith rest suffix
       end.

(** [s[:-1]] *)
Fixpoint drop_last (s : string) : string :=
  match s with
  | EmptyString => EmptyString
  | String c EmptyString => EmptyString
  | String c rest => String c (drop_last rest)
  end.

(** [s.split(c, 1)], when [c] occurs in [s]: what precedes and what follows
    its first occurrence. *)
Fixpoint split_once (c : ascii) (s : string) : option (string * string) :=
  match s with
  | EmptyString => None
  | String a rest =>
      if Ascii.eqb a c then Some (EmptyString, rest)
      else match split_once c rest with
           | Some (before, after) => Some (String a before, after)
           | None => None
           end
  end.

Definition SUFFIX : string := ".r2.cloudflarestorage.com".

Section WithSettings.
Variable cfg : Settings.
(** Whether CLOUDFLARE_R2_ACCESS_KEY_ID and CLOUDFLARE_R2_SECRET_ACCESS_KEY
    are set. *)
Variable has_keys : bool.
(** [urlparse(url)]: its [netloc] and [path]. *)
Variable urlparse : string -> string * string.
(** [s3.upload_fileobj] of the file at a path, under a key. *)
Variable s3_upload : string -> string -> option exn.
(** [s3.get_object(Bucket=..., Key=key)['Body'].read()] *)
Variable s3_get_object : string -> reply bytes.

(** [R2Client()]: the bucket of the client. *)
Definition R2Client : result string :=
  if negb has_keys
     || negb (truthy_str (CLOUDFLARE_R2_ENDPOINT cfg))
     || negb (truthy_str (CLOUDFLARE_R2_BUCKET cfg))
  then Raise (PyError "RuntimeError"
                "R2 not configured. Please set CLOUDFLARE_R2_ACCESS_KEY_ID, CLOUDFLARE_R2_SECRET_ACCESS_KEY, CLOUDFLARE_R2_ENDPOINT and CLOUDFLARE_R2_BUCKET in .env")
  else Ok (fmt_opt (CLOUDFLARE_R2_BUCKET cfg)).

(** Lines 41-56: the URL of an uploaded object. *)
Definition object_url (bucket key : string) (public : bool) : string :=
  let e := fmt_opt (CLOUDFLARE_R2_ENDPOINT cfg) in
  let endpoint := if endswith e "/" then drop_last e else e in
  if public
  then if truthy_str (CLOUDFLARE_R2_PUBLIC_URL cfg)
       then (fmt_opt (CLOUDFLARE_R2_PUBLIC_URL cfg) ++ "/" ++ key)%string
       else ("https://" ++ bucket ++ ".r2.cloudflarestorage.com/" ++ key)%string
  else (endpoint ++ "/" ++ bucket ++ "/" ++ key)%string.

(** Answers the key and the URL of the object. *)
Definition upload_file_to_r2 (file_path key_prefix : string) (public : bool)
    : result (string * string) :=
  pyfloat.rbind R2Client (fun bucket =>
  let filename := last_segment "/"%char file_path "" in
  let key := (key_prefix ++ "/" ++ filename)%string in
  match s3_upload file_path key with
  | Some e => Raise e
  | None => Ok (key, object_url bucket key public)
  end).

(** Lines 128-132: a [ClientError] becomes a [RuntimeError]. *)
Definition get_object (key : string) : result bytes :=
  match s3_get_object key with
  | Returns b => Ok b
  | Raises (PyError "ClientError" m) =>
      Raise (PyError "RuntimeError"
               ("Failed to download object from R2: " ++ m))
  | Raises e => Raise e
  end.

Definition download_bytes_from_r2_url (url : string) : result bytes :=
  pyfloat.rbind R2Client (fun bucket =>
  let '(netloc, parsed_path) := urlparse url in
  let path := lstrip_char "/"%char parsed_path in
  pyfloat.rbind
    (if endswith netloc SUFFIX then Ok path
     else match split_once "/"%char path with
          | Some (_, key) => Ok key
          | None => Raise (PyError "ValueError"
                             ("Could not parse R2 URL to extract key: " ++ url))
          end)
    get_object).

End WithSettings.
End r2_service.

(** [c not in s] *)
Fixpoint lacks (c : ascii) (s : string) : bool :=
  match s with
  | EmptyString => true
  | String a rest => negb (Ascii.eqb a c) && lacks c rest
  end.

(** A bucket that holds one object and answers NoSuchKey for any other key. *)
Definition one_object (key : string) (k : string) : reply bytes :=
  if String.eqb k key then Returns []
  else Raises (PyError "ClientError" "NoSuchKey").

(** [m] only appends to the log. *)
Definition log_grows {A} (m : M A) : Prop :=
  forall s, exists new, log (snd (m s)) = log s ++ new.

(** The log lines that end the handling of a post by the trigger loop:
    nothing to publish, a post type it does not know, the outcome of the
    publish call, or the exception the handling ended with. *)
Definition closes (p : ScheduledPost) (ev : log_event) : Prop :=
  ev = LogNoValidUrls (id p)
  \/ ev = LogUnsupportedPostType (post_type p)
  \/ (exists msg, ev = LogPublished (id p) msg)
  \/ (exists msg, ev = LogPublishFailed (id p) msg)
  \/ (exists e, ev = LogTriggerError (id p) e).

(** [m] only appends to the log and, when it returns, has appended a line
    that closes [p]. *)
Definition closing (p : ScheduledPost) {A} (m : M A) : Prop :=
  forall s, exists new,
    log (snd (m s)) = log s ++ new
    /\ (forall a, fst (m s) = Ok a -> Exists (closes p) new).

(* ================================================================== *)
(** * Properties *)

(** ** The monad *)

Lemma bind_ok {A B} (m : M A) (k : A -> M B) s a s' :
  m s = (Ok a, s') -> bind m k s = k a s'.
Proof. unfold bind; intros ->; reflexivity. Qed.

Lemma bind_raise {A B} (m : M A) (k : A -> M B) s e s' :
  m s = (Raise e, s') -> bind m k s = (Raise e, s').
Proof. unfold bind; intros ->; reflexivity. Qed.

Lemma bind_diverge {A B} (m : M A) (k : A -> M B) s s' :
  m s = (Diverge, s') -> bind m k s = (Diverge, s').
Proof. unfold bind; intros ->; reflexivity. Qed.

Lemma bind_assoc {A B C} (m : M A) (f : A -> M B) (k : B -> M C) s :
  bind (bind m f) k s = bind m (fun a => bind (f a) k) s.
Proof. unfold bind. destruct (m s) as [[a | e |] s1]; reflexivity. Qed.

Lemma after_calls_app cs1 cs2 s :
  after_calls (cs1 ++ cs2) s = after_calls cs2 (after_calls cs1 s).
Proof. apply fold_left_app. Qed.

Lemma after_calls_state cs : forall s,
  after_calls cs s
  = mkState (tick s + List.length cs) (db s) (next_id s) (calls s ++ cs) (log s).
Proof.
  induction cs as [| c cs IH]; intros s; cbn [after_calls fold_left List.length].
  - rewrite Nat.add_0_r, app_nil_r. destruct s; reflexivity.
  - fold (after_calls cs (step_world c s)). rewrite IH.
    cbn [step_world tick db next_id calls log].
    rewrite <- app_assoc, Nat.add_succ_r. reflexivity.
Qed.


(** Symbolic execution: case analysis on the innermost scrutinee first. *)
Ltac destruct_innermost :=
  match goal with
  | |- context [match ?x with _ => _ end] =>
      lazymatch x with
      | context [match _ with _ => _ end] => fail
      | _ => destruct x eqn:?
      end
  end.

Ltac norm_state := cbv beta iota; cbn [tick db next_id calls log step_world].

Ltac run_cases := norm_state; repeat (destruct_innermost; norm_state).

(* ------------------------------------------------------------------ *)
(** ** Webhook verification (instagram_webhook.verify_webhook) *)

(** C9, as stated, fails: with the configured token but a mode other than
    "subscribe" the endpoint answers 403, so a matching token alone does not
    return the challenge. *)
Lemma verify_webhook_matching_token_refused :
  ~ (instagram_webhook.verify_webhook examples.cfg "unsubscribe" "1234" "s3cret"
       = Ok "1234"
     <-> FACEBOOK_WEBHOOK_VERIFY_TOKEN examples.cfg = Some "s3cret").
Proof.
  intros [_ H]. specialize (H eq_refl). discriminate H.
Qed.

(** C9 (amended): verify_webhook returns hub.challenge if and only if
    hub.mode is "subscribe" and hub.verify_token equals the configured
    verify token; in every other case it raises HTTPException 403 and
    returns nothing. *)
Theorem verify_webhook_iff (cfg : Settings) (hub_mode hub_challenge token : string) :
  (instagram_webhook.verify_webhook cfg hub_mode hub_challenge token
     = Ok hub_challenge
   <-> hub_mode = "subscribe"
       /\ FACEBOOK_WEBHOOK_VERIFY_TOKEN cfg = Some token)
  /\ (instagram_webhook.verify_webhook cfg hub_mode hub_challenge token
        = Ok hub_challenge
      \/ instagram_webhook.verify_webhook cfg hub_mode hub_challenge token
        = Raise (HTTPException 403 "Verification failed")).
Proof.
  unfold instagram_webhook.verify_webhook.
  destruct (String.eqb_spec hub_mode "subscribe") as [Hm | Hm]; cbn [andb].
  - destruct (FACEBOOK_WEBHOOK_VERIFY_TOKEN cfg) as [secret |].
    + destruct (String.eqb_spec token secret) as [Ht | Ht].
      * subst. split; [split; auto | left; reflexivity].
      * split; [| right; reflexivity].
        split; [discriminate |].
        intros [_ H]. injection H as H. congruence.
    + split; [| right; reflexivity].
      split; [discriminate | intros [_ H]; discriminate H].
  - split; [| right; reflexivity].
    split; [discriminate | intros [H _]; contradiction].
Qed.

(* ------------------------------------------------------------------ *)
(** ** Selection of due posts (crud.find_posts_to_trigger) *)

Lemma insert_by_time_perm p l :
  Permutation (crud.insert_by_time p l) (p :: l).
Proof.
  induction l as [| q l IH]; cbn [crud.insert_by_time].
  - apply Permutation_refl.
  - destruct (scheduled_time p <=? scheduled_time q).
    + apply Permutation_refl.
    + eapply perm_trans; [apply perm_skip, IH | apply perm_swap].
Qed.

Lemma order_by_scheduled_time_perm l :
  Permutation (crud.order_by_scheduled_time l) l.
Proof.
  induction l as [| p l IH]; cbn.
  - constructor.
  - eapply perm_trans; [apply insert_by_time_perm |].
    apply perm_skip, IH.
Qed.

Lemma insert_by_time_sorted p l :
  StronglySorted by_time l -> StronglySorted by_time (crud.insert_by_time p l).
Proof.
  induction 1 as [| q l Hs IH Hq]; cbn [crud.insert_by_time].
  - repeat constructor.
  - destruct (Z.leb_spec (scheduled_time p) (scheduled_time q)) as [Hle | Hgt].
    + constructor; [constructor; assumption |].
      constructor; [exact Hle |].
      eapply Forall_impl; [| exact Hq].
      unfold by_time; intros; lia.
    + constructor; [exact IH |].
      eapply Permutation_Forall;
        [apply Permutation_sym, insert_by_time_perm |].
      constructor; [unfold by_time; lia | exact Hq].
Qed.

Lemma order_by_scheduled_time_sorted l :
  StronglySorted by_time (crud.order_by_scheduled_time l).
Proof.
  induction l as [| p l IH]; cbn.
  - constructor.
  - apply insert_by_time_sorted, IH.
Qed.

Lemma is_scheduled_iff p :
  crud.is_scheduled p = true <-> status p = "scheduled".
Proof. unfold crud.is_scheduled. apply String.eqb_eq. Qed.

Lemma select_to_trigger_In now rows p :
  In p (crud.select_to_trigger now rows)
  <-> In p rows /\ status p = "scheduled"
      /\ now - MINUTE <= scheduled_time p <= now.
Proof.
  unfold crud.select_to_trigger.
  split.
  - intros H.
    apply (Permutation_in _ (order_by_scheduled_time_perm _)) in H.
    apply filter_In in H. destruct H as [Hin Hb].
    apply andb_prop in Hb. destruct Hb as [Hb Hst].
    apply andb_prop in Hb. destruct Hb as [Hlo Hhi].
    apply is_scheduled_iff in Hst.
    split; [exact Hin | split; [exact Hst | lia]].
  - intros (Hin & Hst & Hlo & Hhi).
    apply (Permutation_in _ (Permutation_sym (order_by_scheduled_time_perm _))).
    apply filter_In. split; [exact Hin |].
    apply is_scheduled_iff in Hst. rewrite Hst.
    replace (now - MINUTE <=? scheduled_time p) with true
      by (symmetry; apply Z.leb_le; lia).
    replace (scheduled_time p <=? now) with true
      by (symmetry; apply Z.leb_le; lia).
    reflexivity.
Qed.

Lemma find_posts_to_trigger_run (W : World) (s : state) :
  crud.find_posts_to_trigger W s
  = (match db_fault W (S (tick s)) with
     | None => Ok (crud.select_to_trigger (clock W (tick s)) (db s))
     | Some (k, m) => Raise (PyError k m)
     end,
     step_world (CallQuery "SELECT to trigger") (step_world CallNow s)).
Proof.
  unfold crud.find_posts_to_trigger, crud.execute_query, ask_pure, ask,
    bind, get_db, ret.
  cbn. destruct (db_fault W (S (tick s))) as [[k m] |]; reflexivity.
Qed.

(** C2, as stated, fails: a post that is still 'scheduled' and fell due two
    minutes ago is not selected. *)
Lemma overdue_post_skipped :
  ~ (forall now rows p,
        In p rows -> status p = "scheduled" -> scheduled_time p <= now ->
        In p (crud.select_to_trigger now rows)).
Proof.
  intros H.
  specialize (H (2 * MINUTE) [examples.post 1 0 "scheduled"]
                (examples.post 1 0 "scheduled")).
  cbn in H.
  assert (Hin : False).
  { apply H; [left; reflexivity | reflexivity | discriminate]. }
  exact Hin.
Qed.

(** C2 (amended): find_posts_to_trigger selects exactly the posts with
    status = 'scheduled' whose scheduledTime lies in the last minute,
    now - 1 min <= scheduledTime <= now, each as often as it is in the
    table, ordered ascending by scheduledTime; a due post older than one
    minute is not selected.  The query raises only when the database does. *)
Theorem find_posts_to_trigger_window (W : World) (s : state) :
  let now := clock W (tick s) in
  let s' := step_world (CallQuery "SELECT to trigger") (step_world CallNow s) in
  crud.find_posts_to_trigger W s
    = (match db_fault W (S (tick s)) with
       | None => Ok (crud.select_to_trigger now (db s))
       | Some (k, m) => Raise (PyError k m)
       end, s')
  /\ (forall p, In p (crud.select_to_trigger now (db s))
                <-> In p (db s) /\ status p = "scheduled"
                    /\ now - MINUTE <= scheduled_time p <= now)
  /\ StronglySorted by_time (crud.select_to_trigger now (db s))
  /\ Permutation
       (crud.select_to_trigger now (db s))
       (filter (fun p => (now - MINUTE <=? scheduled_time p)
                         && (scheduled_time p <=? now)
                         && String.eqb (status p) "scheduled") (db s)).
Proof.
  cbv zeta. split; [| split; [| split]].
  - apply find_posts_to_trigger_run.
  - intros p. apply select_to_trigger_In.
  - apply order_by_scheduled_time_sorted.
  - apply order_by_scheduled_time_perm.
Qed.

(* ------------------------------------------------------------------ *)
(** ** The JPEG re-encode loop (cleanup_service.validate_and_prepare_image) *)

Lemma next_quality_95 : next_quality 95 = Ok 80.
Proof. vm_compute. reflexivity. Qed.
Lemma next_quality_80 : next_quality 80 = Ok 68.
Proof. vm_compute. reflexivity. Qed.
Lemma next_quality_68 : next_quality 68 = Ok 57.
Proof. vm_compute. reflexivity. Qed.
Lemma next_quality_57 : next_quality 57 = Ok 48.
Proof. vm_compute. reflexivity. Qed.
Lemma next_quality_48 : next_quality 48 = Ok 40.
Proof. vm_compute. reflexivity. Qed.

Lemma encode_loop_unfold W fuel dims q s :
  encode_loop W (S fuel) dims q s =
  let s1 := step_world (CallJpegSave (fst dims) (snd dims) q) s in
  match jpeg_save W (tick s) dims q with
  | Raises e => (Raise e, s1)
  | Returns size =>
      if (size <=? MAX_BYTES) || (q <=? 40) then (Ok (q, size), s1)
      else match next_quality q with
           | Ok q' => encode_loop W fuel dims q' s1
           | Raise e => (Raise e, s1)
           | Diverge => (Diverge, s1)
           end
  end.
Proof.
  cbn [encode_loop]. unfold bind, ask, lift, ret. cbv zeta.
  destruct (jpeg_save W (tick s) dims q) as [size | e]; [| reflexivity].
  destruct ((size <=? MAX_BYTES) || (q <=? 40)); [reflexivity |].
  destruct (next_quality q); reflexivity.
Qed.

Lemma settles_floor W dims : settles W dims 40 1.
Proof.
  intros k s. cbv zeta.
  change (1 + k)%nat with (S k). rewrite !encode_loop_unfold. cbv zeta.
  destruct (jpeg_save W (tick s) dims 40) as [size | e]; cbn [fst snd].
  - rewrite Bool.orb_true_r. cbn [fst snd step_world tick].
    repeat split; try discriminate; try lia.
    intros q' size' H. injection H as <- <-. right; reflexivity.
  - cbn [step_world tick]. repeat split; try discriminate; lia.
Qed.

Lemma settles_step W dims q q' n :
  40 < q -> next_quality q = Ok q' -> settles W dims q' n ->
  settles W dims q (S n).
Proof.
  intros Hfloor Hq Hn k s. cbv zeta.
  change (S n + k)%nat with (S (n + k)). rewrite !encode_loop_unfold. cbv zeta.
  replace (q <=? 40) with false by (symmetry; apply Z.leb_gt; exact Hfloor).
  rewrite Hq.
  destruct (jpeg_save W (tick s) dims q) as [size | e]; cbn [fst snd].
  - destruct (Z.leb_spec size MAX_BYTES) as [Hsz | Hsz]; cbn [orb].
    + cbn [fst snd step_world tick].
      repeat split; try discriminate; try lia.
      intros q'' size' H. injection H as <- <-. left; exact Hsz.
    + destruct (Hn k (step_world (CallJpegSave (fst dims) (snd dims) q) s))
        as (H1 & H2 & H3 & H4).
      cbn [step_world tick] in H4.
      repeat split; try assumption. lia.
  - cbn [step_world tick]. repeat split; try discriminate; lia.
Qed.

Lemma settles_from_95 W dims : settles W dims 95 6.
Proof.
  apply (settles_step W dims 95 80); [lia | exact next_quality_95 |].
  apply (settles_step W dims 80 68); [lia | exact next_quality_80 |].
  apply (settles_step W dims 68 57); [lia | exact next_quality_68 |].
  apply (settles_step W dims 57 48); [lia | exact next_quality_57 |].
  apply (settles_step W dims 48 40); [lia | exact next_quality_48 |].
  apply settles_floor.
Qed.

(** When every encoding is over the budget, the loop walks the qualities
    95, 80, 68, 57, 48, 40 and keeps the oversized result of the last. *)
Lemma encode_loop_oversized W dims s :
  (forall t d q, exists size, jpeg_save W t d q = Returns size /\ MAX_BYTES < size) ->
  exists size,
    fst (encode_loop W 6 dims 95 s) = Ok (40, size)
    /\ MAX_BYTES < size
    /\ tick (snd (encode_loop W 6 dims 95 s)) = (tick s + 6)%nat.
Proof.
  intros Hbig.
  repeat (rewrite encode_loop_unfold; cbv zeta;
          match goal with
          | |- context [jpeg_save W ?t ?d ?q] =>
              let sz := fresh "sz" in
              let E := fresh "E" in
              let Hs := fresh "Hs" in
              destruct (Hbig t d q) as (sz & E & Hs); rewrite E;
              replace (sz <=? MAX_BYTES) with false
                by (symmetry; apply Z.leb_gt; exact Hs);
              cbn [orb Z.leb Z.compare Pos.compare Pos.compare_cont]
          end;
          rewrite ?next_quality_95, ?next_quality_80, ?next_quality_68,
            ?next_quality_57, ?next_quality_48).
  eexists. cbn [fst snd step_world tick].
  split; [reflexivity | split; [eassumption | lia]].
Qed.

(** C8: the encode loop, started at quality 95, ends after at most six
    encodings whatever sizes (or errors) the encoder produces: with six or
    more iterations of fuel it never runs out, its result does not depend on
    the fuel, a result it returns is within 8 MiB or was encoded at the
    quality floor 40, and when every encoding is oversized it returns the one
    made at quality 40. *)
Theorem encode_loop_terminates (W : World) (dims : Z * Z) (s : state) (k : nat) :
  let run := encode_loop W (6 + k) dims 95 s in
  run = encode_loop W 6 dims 95 s
  /\ fst run <> Diverge
  /\ (forall q size, fst run = Ok (q, size) -> size <= MAX_BYTES \/ q = 40)
  /\ (tick (snd run) <= tick s + 6)%nat
  /\ ((forall t d q, exists size,
         jpeg_save W t d q = Returns size /\ MAX_BYTES < size) ->
      exists size,
        fst run = Ok (40, size) /\ MAX_BYTES < size
        /\ tick (snd run) = (tick s + 6)%nat).
Proof.
  cbv zeta.
  destruct (settles_from_95 W dims k s) as (H1 & H2 & H3 & H4).
  repeat split; try assumption.
  intros Hbig. rewrite H1. apply encode_loop_oversized, Hbig.
Qed.

(* ------------------------------------------------------------------ *)
(** ** Image normalisation (cleanup_service.validate_and_prepare_image) *)

(** C3 (the code departs from it): a decodable 1000 x 100 image is within
    the width bounds, so it is not resized; its ratio 10 is over 1.91 and the
    crop to 1.91 is horizontal, which leaves a 191 x 100 image.  The JPEG that
    is encoded and uploaded is 191 pixels wide, below the minimum of 320. *)
Theorem wide_image_cropped_below_min_width :
  prepare_geometry 1000 100 = Ok (191, 100)
  /\ 191 < MIN_WIDTH
  /\ validate_and_prepare_image examples.wide_image 6 None [] examples.empty_state
     = (Ok (Some "https://pub.r2.dev/app/frontend/temp_generated_images/uuid.jpg"),
        mkState 3 [] 1
          [CallUuid4; CallJpegSave 191 100 95;
           CallR2UploadFile "app/frontend/temp_generated_images/uuid.jpg"
                            "instagram_ready"]
          []).
Proof.
  split; [vm_compute; reflexivity |].
  split; [vm_compute; reflexivity |].
  vm_compute. reflexivity.
Qed.

(** Scenario C of the specification: a 200 x 200 image is upscaled to
    320 x 320 and not cropped. *)
Example prepare_geometry_200_200 : prepare_geometry 200 200 = Ok (320, 320).
Proof. vm_compute. reflexivity. Qed.

(* ------------------------------------------------------------------ *)
(** ** Media resolution (publisher_service.get_media_bytes) *)









(* ------------------------------------------------------------------ *)
(** ** Folder deletion and the cleanup job *)

Lemma delete_drive_folder_outcome (W : World) fid s :
  fst (google_drive.delete_drive_folder W fid s)
  = match creds_fault W (tick s) with
    | Some (k, m) => Raise (PyError k m)
    | None =>
        match build_fault W (S (tick s)) "drive" with
        | Some (HttpError _ _) => Ok tt
        | Some e => Raise e
        | None =>
            match drive_delete W (S (S (tick s))) fid with
            | Some (HttpError _ _) => Ok tt
            | Some e => Raise e
            | None => Ok tt
            end
        end
    end.
Proof.
  unfold google_drive.delete_drive_folder, google_drive.get_google_creds,
    google_drive.build, google_drive.files_delete, try_except_HttpError,
    ask_fault, ask_exn, ask, bind, ret.
  cbn [tick step_world].
  run_cases; reflexivity.
Qed.

Lemma delete_one_log (W : World) counts post s :
  let run := delete_one W counts post s in
  (exists c, fst run = Ok c)
  /\ forall pid e,
       In (LogDeleteError pid e) (log (snd run)) ->
       In (LogDeleteError pid e) (log s) \/ is_HttpError e = false.
Proof.
  cbv zeta.
  unfold delete_one, google_drive.delete_drive_folder,
    google_drive.get_google_creds, google_drive.build,
    google_drive.files_delete, crud.update_post_status, crud.execute_query,
    try_except_HttpError, try_except, ask_fault, ask_exn, ask, bind, ret,
    logger, get_db, put_db.
  cbn [tick step_world db next_id calls log].
  run_cases.
  all: cbn [fst snd log step_world].
  all: split; [eexists; reflexivity |].
  all: intros pid e' Hin; apply in_app_or in Hin.
  all: destruct Hin as [Hin | [Hin | []]]; [left; exact Hin |].
  all: try discriminate Hin.
  all: injection Hin as <- <-; right; reflexivity.
Qed.

Lemma fold_delete_log (W : World) posts :
  forall counts s,
    let run := fold_m posts counts (delete_one W) s in
    (exists c, fst run = Ok c)
    /\ forall pid e,
         In (LogDeleteError pid e) (log (snd run)) ->
         In (LogDeleteError pid e) (log s) \/ is_HttpError e = false.
Proof.
  induction posts as [| post posts IH]; intros counts s; cbv zeta.
  - cbn. split; [eexists; reflexivity | auto].
  - cbn [fold_m]. unfold bind.
    destruct (delete_one_log W counts post s) as [[c Hc] Hlog].
    destruct (delete_one W counts post s) as [r s1]. cbn [fst snd] in *.
    subst r.
    destruct (IH c s1) as [Hok Hlog'].
    split; [exact Hok |].
    intros pid e Hin. destruct (Hlog' pid e Hin) as [H | H]; auto.
Qed.

(** C10: delete_drive_folder swallows every HttpError the Drive API raises,
    of any status: its outcome is decided by the credentials and by the
    non-HttpError failures alone, and it never raises an HttpError.  So in
    the cleanup job a post whose folder deletion fails with an HttpError is
    still marked 'deleted' and counted as deleted, and every error the job
    counts for a post is a failure other than an HttpError. *)
Theorem delete_drive_folder_swallows_HttpError (W : World) :
  (forall fid s,
      fst (google_drive.delete_drive_folder W fid s)
      = match creds_fault W (tick s) with
        | Some (k, m) => Raise (PyError k m)
        | None =>
            match build_fault W (S (tick s)) "drive" with
            | Some (HttpError _ _) => Ok tt
            | Some e => Raise e
            | None =>
                match drive_delete W (S (S (tick s))) fid with
                | Some (HttpError _ _) => Ok tt
                | Some e => Raise e
                | None => Ok tt
                end
            end
        end)
  /\ (forall fid s st msg,
        fst (google_drive.delete_drive_folder W fid s) <> Raise (HttpError st msg))
  /\ (forall post counts s st msg,
        creds_fault W (tick s) = None ->
        build_fault W (S (tick s)) "drive" = None ->
        drive_delete W (S (S (tick s))) (google_drive_folder_id post)
          = Some (HttpError st msg) ->
        db_fault W (S (S (S (tick s)))) = None ->
        let run := delete_one W counts post s in
        fst run = Ok (fst counts + 1, snd counts)
        /\ db (snd run) = crud.update_rows (id post) "deleted" (db s)
        /\ log (snd run) = log s ++ [LogDeleted (id post)])
  /\ (forall s pid e,
        In (LogDeleteError pid e) (log (snd (check_and_delete_posts W s))) ->
        In (LogDeleteError pid e) (log s) \/ is_HttpError e = false).
Proof.
  split; [apply delete_drive_folder_outcome |].
  split.
  { intros fid s st msg. rewrite delete_drive_folder_outcome.
    run_cases; discriminate. }
  split.
  { intros post [d e] s st msg Hc Hb Hd Hq. cbv zeta.
    unfold delete_one, google_drive.delete_drive_folder,
      google_drive.get_google_creds, google_drive.build,
      google_drive.files_delete, crud.update_post_status, crud.execute_query,
      try_except_HttpError, try_except, ask_fault, ask_exn, ask, bind, ret,
      logger, get_db, put_db.
    norm_state. rewrite Hc. norm_state. rewrite Hb. norm_state.
    rewrite Hd. norm_state.
    destruct (st =? 404); unfold ret; norm_state; rewrite Hq;
      cbn [fst snd db log]; auto. }
  intros s pid e.
  unfold check_and_delete_posts, try_except, bind.
  unfold crud.find_posts_for_deletion, crud.execute_query, ask_pure, ask,
    bind, get_db, ret.
  cbn [tick step_world db].
  destruct (db_fault W (S (tick s))) as [[k m] |]; cbv beta iota.
  - unfold logger, bind. cbn [snd log step_world].
    intros Hin. apply in_app_or in Hin.
    destruct Hin as [Hin | [Hin | []]]; [left; exact Hin | discriminate Hin].
  - set (posts := crud.select_for_deletion _ _ _).
    set (s1 := step_world _ _).
    destruct posts as [| p posts]; cbv beta iota.
    + unfold logger. cbn [snd log]. intros Hin. apply in_app_or in Hin.
      destruct Hin as [Hin | [Hin | []]]; [left; exact Hin | discriminate Hin].
    + destruct (fold_delete_log W (p :: posts) (0, 0) s1) as [[c Hc] Hlog].
      destruct (fold_m (p :: posts) (0, 0) (delete_one W) s1) as [r s2].
      cbn [fst snd] in *. subst r. destruct c as [dc ec]. cbv beta iota.
      unfold logger. cbn [snd log]. intros Hin. apply in_app_or in Hin.
      destruct Hin as [Hin | [Hin | []]]; [| discriminate Hin].
      destruct (Hlog pid e Hin) as [H | H]; auto.
Qed.

(** Drive answers the deletion with a 500: the post is still marked deleted. *)
Lemma delete_drive_folder_swallows_HttpError_witness :
  let run := delete_one examples.drive_delete_500 (0, 0)
               (examples.post 1 0 "scheduled")
               (examples.state_with [examples.post 1 0 "scheduled"]) in
  fst run = Ok (1, 0)
  /\ db (snd run) = [examples.post 1 0 "deleted"]
  /\ log (snd run) = [LogDeleted 1].
Proof.
  exact (proj1 (proj2 (proj2 (delete_drive_folder_swallows_HttpError
                                examples.drive_delete_500)))
               (examples.post 1 0 "scheduled") (0, 0)
               (examples.state_with [examples.post 1 0 "scheduled"])
               500 "backendError" eq_refl eq_refl eq_refl eq_refl).
Defined.

(* ------------------------------------------------------------------ *)
(** ** The Publish Target Client (facebook_graph) *)

(** C4, as stated, fails: when [requests.post] raises (the Graph API is
    unreachable), each of the three operations lets the exception through
    instead of returning (False, reason). *)
Lemma publish_lets_network_error_through :
  fst (facebook_graph.publish_photo examples.graph_unreachable
         (Some "https://pub.r2.dev/a.jpg") "Hello" examples.empty_state)
    = Raise (PyError "ConnectionError" "Max retries exceeded")
  /\ fst (facebook_graph.publish_carousel examples.graph_unreachable
            [Some "https://pub.r2.dev/a.jpg"; Some "https://pub.r2.dev/b.jpg"]
            "Hello" examples.empty_state)
    = Raise (PyError "ConnectionError" "Max retries exceeded")
  /\ fst (facebook_graph.publish_video examples.graph_unreachable
            (Some "https://pub.r2.dev/a.mp4") "Hello" examples.empty_state)
    = Raise (PyError "ConnectionError" "Max retries exceeded").
Proof. repeat split; vm_compute; reflexivity. Qed.

Lemma bind_lift_ok {A B} (a : A) (k : A -> M B) s :
  bind (lift (Ok a)) k s = k a s.
Proof. reflexivity. Qed.

Lemma strs_of_snoc l i :
  facebook_graph.strs_of l <> None ->
  facebook_graph.strs_of (l ++ [JStr i]) <> None.
Proof.
  induction l as [| x l IH]; cbn; [discriminate |].
  destruct x; try congruence.
  destruct (facebook_graph.strs_of l); [| congruence].
  intros _. destruct (facebook_graph.strs_of (l ++ [JStr i]));
    [discriminate | apply IH; discriminate].
Qed.

Lemma post_reply_step W c0 s i c :
  post_reply W (step_world c0 s) i c = post_reply W s (S i) c.
Proof.
  destruct c; cbn [post_reply step_world tick]; try reflexivity.
  now rewrite Nat.add_succ_r.
Qed.

Lemma post_reply_0 W s u d :
  post_reply W s 0 (CallRequestsPost u d) = Some (requests_post W (tick s) u d).
Proof. cbn. now rewrite Nat.add_0_r. Qed.

(** The run ends at a refused or incomplete answer. *)
Lemma pair_refused W reasons success s c r reason :
  post_reply W s 0 c = Some (Returns r) ->
  accepted c r = false -> In reason reasons ->
  pair_from_answers W reasons success s
    (Ok (false, (reason ++ r_text r)%string), step_world c s).
Proof.
  intros Hr Ha Hin. exists false, (reason ++ r_text r)%string, [c].
  split; [reflexivity |]. split; [reflexivity |]. split; [| split].
  - intros [| i] c' Hc; cbn in Hc; [| destruct i; discriminate].
    injection Hc as <-. exists r. split; [exact Hr |]. intros _.
    split; [reflexivity |]. split; [reflexivity |]. eauto.
  - intros _. right. exists 0%nat, c, r. auto.
  - discriminate.
Qed.

(** The run ends at the accepted answer to the publishing POST. *)
Lemma pair_published W reasons success s c r :
  configured W = true ->
  post_reply W s 0 c = Some (Returns r) ->
  accepted c r = true -> publish_step c = true ->
  pair_from_answers W reasons success s
    (Ok (true, (success ++ r_text r)%string), step_world c s).
Proof.
  intros Hcfg Hr Ha Hp. exists true, (success ++ r_text r)%string, [c].
  split; [reflexivity |]. split; [reflexivity |]. split; [| split].
  - intros [| i] c' Hc; cbn in Hc; [| destruct i; discriminate].
    injection Hc as <-. exists r. split; [exact Hr |]. congruence.
  - discriminate.
  - intros _. split; [exact Hcfg |]. exists [], c, r. auto.
Qed.

(** An accepted answer, after which the run goes on. *)
Lemma pair_step W reasons success s c r run :
  configured W = true ->
  post_reply W s 0 c = Some (Returns r) ->
  accepted c r = true ->
  pair_from_answers W reasons success (step_world c s) run ->
  pair_from_answers W reasons success s run.
Proof.
  intros Hcfg Hr Ha (b & msg & new & Hres & Hs & Hall & Hf & Ht).
  exists b, msg, (c :: new).
  split; [exact Hres |]. split; [exact Hs |]. split; [| split].
  - intros [| i] c' Hc; cbn [nth_error] in Hc.
    + injection Hc as <-. exists r. split; [exact Hr | congruence].
    + destruct (Hall i c' Hc) as (r' & Hr' & Hrej).
      rewrite post_reply_step in Hr'. exists r'. split; [exact Hr' |].
      intros Hn. destruct (Hrej Hn) as (-> & Hlen & Hmsg).
      cbn [List.length]. split; [reflexivity |]. split; [now f_equal | exact Hmsg].
  - intros Hb. right. destruct (Hf Hb) as [(Hcfg' & _) | (i & c' & r' & Hc & Hr' & Hn)];
      [congruence |].
    rewrite post_reply_step in Hr'. exists (S i), c', r'. auto.
  - intros Hb. destruct (Ht Hb) as (_ & pre & c' & r' & -> & Hp & Hr' & Hmsg).
    split; [exact Hcfg |]. rewrite post_reply_step in Hr'.
    exists (c :: pre), c', r'. auto.
Qed.

Lemma pair_reasons_incl W reasons reasons' success s run :
  incl reasons reasons' ->
  pair_from_answers W reasons success s run ->
  pair_from_answers W reasons' success s run.
Proof.
  intros Hincl (b & msg & new & Hres & Hs & Hall & Hf & Ht).
  exists b, msg, new. repeat (split; [assumption |]). split; [| auto].
  intros i c Hc. destruct (Hall i c Hc) as (r & Hr & Hrej).
  exists r. split; [exact Hr |]. intros Hn.
  destruct (Hrej Hn) as (Hb & Hlen & reason & Hin & Hmsg).
  split; [exact Hb |]. split; [exact Hlen |]. exists reason. auto.
Qed.

(** Without credentials nothing is posted. *)
Lemma pair_unconfigured W reasons success s :
  configured W = false ->
  pair_from_answers W reasons success s
    (Ok (false, "Facebook/Instagram credentials not configured"%string), s).
Proof.
  intros Hcfg. exists false, "Facebook/Instagram credentials not configured"%string, [].
  split; [reflexivity |]. split; [reflexivity |]. split; [| split].
  - intros [| i] c Hc; discriminate.
  - intros _. left. auto.
  - discriminate.
Qed.

(** An answered POST, as [post_to] hands it on. *)
Lemma post_to_reply (W : World) (H : posts_answered W) u d s :
  exists r,
    requests_post W (tick s) u d = Returns r
    /\ graph_body r = true
    /\ facebook_graph.post_to W u d s
       = (Ok (facebook_graph.mkPostResult (r_status r)
                (match r_json r with Some j => j | None => JNull end)
                (r_text r)),
          step_world (CallRequestsPost u d) s).
Proof.
  destruct (H (tick s) u d) as (r & E & Hb). exists r.
  split; [exact E |]. split; [exact Hb |].
  unfold facebook_graph.post_to, ask, bind, ret. rewrite E. reflexivity.
Qed.

(** How the code reads the answer to a POST that creates a container. *)
Lemma container_reply r u d :
  graph_body r = true ->
  publish_step (CallRequestsPost u d) = false ->
  let body := match r_json r with Some j => j | None => JNull end in
  (accepted (CallRequestsPost u d) r = false
   /\ (negb (facebook_graph.ok_status (r_status r)) || negb (truthy body) = true
       \/ (negb (facebook_graph.ok_status (r_status r)) || negb (truthy body) = false
           /\ exists v, facebook_graph.py_get body "id" = Ok v
                        /\ truthy v = false)))
  \/ (accepted (CallRequestsPost u d) r = true
      /\ negb (facebook_graph.ok_status (r_status r)) || negb (truthy body) = false
      /\ exists i, facebook_graph.py_get body "id" = Ok (JStr i)
                   /\ truthy (JStr i) = true).
Proof.
  intros Hb Hp. cbv zeta. unfold accepted. rewrite Hp. cbn [orb].
  unfold graph_body in Hb.
  destruct (facebook_graph.ok_status (r_status r)); cbn [negb orb andb];
    [| left; split; [reflexivity | left; reflexivity]].
  destruct (r_json r) as [j |]; [| left; split; [reflexivity | left; reflexivity]].
  destruct j as [| b | z | str | l | f];
    try (left; split; [reflexivity | left; cbn [negb]; rewrite Hb; reflexivity]).
  destruct (truthy (JObj f)) eqn:Tf; cbn [negb].
  2: { left. split; [| left; reflexivity].
       destruct f; [reflexivity | discriminate]. }
  cbn [facebook_graph.py_get].
  destruct (truthy (lookup "id" f)) eqn:Tid.
  - right. split; [reflexivity |]. split; [reflexivity |].
    destruct (lookup "id" f) as [| b | z | str | l | f'];
      try (rewrite Tid in Hb; discriminate).
    exists str. auto.
  - left. split; [reflexivity |]. right. split; [reflexivity |]. eauto.
Qed.

(** The two last POSTs of each publish function: a container is created
    with [d1] and then published. *)
Lemma two_steps_pair (W : World) (H : posts_answered W) (u1 : string)
    (d1 : list (string * json)) (tok ig p1 p2 p3 p4 : string)
    (reasons : list string) (s : state) :
  configured W = true ->
  publish_step (CallRequestsPost u1 d1) = false ->
  In p1 reasons -> In p2 reasons -> In p4 reasons ->
  pair_from_answers W reasons p3 s
    ((res_create <- facebook_graph.post_to W u1 d1 ;;
      if negb (facebook_graph.ok_status (facebook_graph.status_code res_create))
         || negb (truthy (facebook_graph.json_body res_create))
      then ret (false, (p1 ++ facebook_graph.text res_create)%string)
      else
        creation_id <- lift (facebook_graph.py_get
                               (facebook_graph.json_body res_create) "id") ;;
        if negb (truthy creation_id)
        then ret (false, (p2 ++ facebook_graph.text res_create)%string)
        else
          res_publish <- facebook_graph._post W (ig ++ "/media_publish")
                           [("creation_id", creation_id);
                            ("access_token", JStr tok)] ;;
          if facebook_graph.ok_status (facebook_graph.status_code res_publish)
          then ret (true, (p3 ++ facebook_graph.text res_publish)%string)
          else ret (false, (p4 ++ facebook_graph.text res_publish)%string)) s).
Proof.
  intros Hcfg Hd1 H1 H2 H4.
  destruct (post_to_reply W H u1 d1 s) as (r1 & E1 & Hb1 & Run1).
  rewrite (bind_ok _ _ _ _ _ Run1).
  cbn [facebook_graph.status_code facebook_graph.json_body facebook_graph.text].
  assert (R1 : post_reply W s 0 (CallRequestsPost u1 d1) = Some (Returns r1))
    by (rewrite post_reply_0, E1; reflexivity).
  destruct (container_reply r1 u1 d1 Hb1 Hd1)
    as [(Ha & [C | (C & v & Ev & Tv)]) | (Ha & C & i & Ev & Ti)];
    cbv zeta in *; rewrite C.
  - apply pair_refused; assumption.
  - rewrite Ev, bind_lift_ok, Tv. cbn [negb]. apply pair_refused; assumption.
  - rewrite Ev, bind_lift_ok, Ti. cbn [negb].
    apply (pair_step W reasons p3 s (CallRequestsPost u1 d1) r1);
      [assumption .. |].
    unfold facebook_graph._post.
    match goal with
    | |- context [facebook_graph.post_to W ?u ?d ] =>
        destruct (post_to_reply W H u d (step_world (CallRequestsPost u1 d1) s))
          as (r2 & E2 & _ & Run2);
        rewrite (bind_ok _ _ _ _ _ Run2);
        assert (R2 : post_reply W (step_world (CallRequestsPost u1 d1) s) 0
                       (CallRequestsPost u d) = Some (Returns r2))
          by (rewrite post_reply_0, E2; reflexivity)
    end.
    cbn [facebook_graph.status_code facebook_graph.text].
    destruct (facebook_graph.ok_status (r_status r2)) eqn:Eok.
    + apply pair_published; try assumption; [| reflexivity].
      unfold accepted. rewrite Eok. reflexivity.
    + apply pair_refused; try assumption.
      unfold accepted. rewrite Eok. reflexivity.
Qed.

(** The credentials check in front of each publish function. *)
Lemma credentials_pair (W : World) reasons success s
    (body : string -> string -> M (bool * string)) :
  (forall tok ig,
      FACEBOOK_PAGE_ACCESS_TOKEN (settings W) = Some tok ->
      INSTAGRAM_USER_ID (settings W) = Some ig ->
      configured W = true ->
      pair_from_answers W reasons success s (body tok ig s)) ->
  pair_from_answers W reasons success s
    ((match FACEBOOK_PAGE_ACCESS_TOKEN (settings W), INSTAGRAM_USER_ID (settings W) with
      | Some tok, Some ig =>
          if negb (truthy_str (FACEBOOK_PAGE_ACCESS_TOKEN (settings W)))
             || negb (truthy_str (INSTAGRAM_USER_ID (settings W)))
          then ret (false, "Facebook/Instagram credentials not configured"%string)
          else body tok ig
      | _, _ => ret (false, "Facebook/Instagram credentials not configured"%string)
      end) s).
Proof.
  intros Hbody.
  destruct (FACEBOOK_PAGE_ACCESS_TOKEN (settings W)) as [tok |] eqn:Etok.
  2: { assert (Hcfg : configured W = false)
         by (unfold configured; rewrite Etok; reflexivity).
       destruct (INSTAGRAM_USER_ID (settings W));
         apply pair_unconfigured; exact Hcfg. }
  destruct (INSTAGRAM_USER_ID (settings W)) as [ig |] eqn:Eig.
  2: { apply pair_unconfigured. unfold configured. rewrite Eig.
       apply andb_false_r. }
  destruct (truthy_str (Some tok)) eqn:Et; cbn [negb orb].
  2: { apply pair_unconfigured. unfold configured. rewrite Etok, Et.
       reflexivity. }
  destruct (truthy_str (Some ig)) eqn:Ei; cbn [negb].
  2: { apply pair_unconfigured. unfold configured. rewrite Eig, Ei.
       apply andb_false_r. }
  apply Hbody; try reflexivity.
  unfold configured. rewrite Etok, Eig, Et, Ei. reflexivity.
Qed.

Lemma publish_photo_pair (W : World) (H : posts_answered W) u cap s :
  pair_from_answers W photo_reasons "Published: " s
    (facebook_graph.publish_photo W u cap s).
Proof.
  unfold facebook_graph.publish_photo. cbv zeta.
  apply credentials_pair. intros tok ig _ _ Hcfg.
  unfold facebook_graph._post at 1.
  apply two_steps_pair; auto; cbn; auto.
Qed.

Lemma publish_video_pair (W : World) (H : posts_answered W) u cap s :
  pair_from_answers W video_reasons "Video published: " s
    (facebook_graph.publish_video W u cap s).
Proof.
  unfold facebook_graph.publish_video. cbv zeta.
  apply credentials_pair. intros tok ig _ _ Hcfg.
  unfold facebook_graph._video_post.
  apply two_steps_pair; auto; cbn; auto.
Qed.

(** The loop over the children of a carousel, followed by [rest]. *)
Lemma create_children_pair (W : World) (H : posts_answered W) tok ig
    reasons success (rest : list json -> M (bool * string)) :
  configured W = true ->
  In "Failed creating child media: "%string reasons ->
  In "No child id returned: "%string reasons ->
  (forall ids s, facebook_graph.strs_of ids <> None ->
                 pair_from_answers W reasons success s (rest ids s)) ->
  forall urls ids s,
    facebook_graph.strs_of ids <> None ->
    pair_from_answers W reasons success s
      ((children <- facebook_graph.create_children W tok ig urls ids ;;
        match children with
        | inl early => ret early
        | inr child_ids => rest child_ids
        end) s).
Proof.
  intros Hcfg H1 H2 Hrest.
  induction urls as [| u urls IH]; intros ids s Hids;
    cbn [facebook_graph.create_children].
  - apply Hrest, Hids.
  - unfold facebook_graph._post. rewrite bind_assoc.
    match goal with
    | |- context [facebook_graph.post_to W ?u1 ?d1] =>
        destruct (post_to_reply W H u1 d1 s) as (r1 & E1 & Hb1 & Run1);
        assert (R1 : post_reply W s 0 (CallRequestsPost u1 d1)
                     = Some (Returns r1))
          by (rewrite post_reply_0, E1; reflexivity);
        destruct (container_reply r1 u1 d1 Hb1 eq_refl)
          as [(Ha & [C | (C & v & Ev & Tv)]) | (Ha & C & i & Ev & Ti)]
    end;
      rewrite (bind_ok _ _ _ _ _ Run1);
      cbn [facebook_graph.status_code facebook_graph.json_body
             facebook_graph.text];
      cbv zeta in *; rewrite C.
    + apply pair_refused; assumption.
    + rewrite bind_assoc, Ev, bind_lift_ok, Tv. cbn [negb].
      apply pair_refused; assumption.
    + rewrite bind_assoc, Ev, bind_lift_ok, Ti. cbn [negb].
      eapply pair_step; [exact Hcfg | exact R1 | exact Ha |].
      apply IH, strs_of_snoc, Hids.
Qed.

Lemma publish_carousel_pair (W : World) (H : posts_answered W) urls cap s :
  pair_from_answers W carousel_reasons "Carousel published: " s
    (facebook_graph.publish_carousel W urls cap s).
Proof.
  unfold facebook_graph.publish_carousel. cbv zeta.
  apply credentials_pair. intros tok ig _ _ Hcfg.
  apply (create_children_pair W H tok ig); try assumption;
    [cbn; auto | cbn; auto | | discriminate].
  intros ids s0 Hids. unfold facebook_graph.join_ids.
  destruct (facebook_graph.strs_of ids) as [l |]; [| congruence].
  rewrite bind_lift_ok. unfold facebook_graph._post at 1.
  apply two_steps_pair; auto; cbn; auto 10.
Qed.

(** *** Exceptions of a POST *)

Lemma post_reply_after W new s j c :
  post_reply W (after_calls new s) j c = post_reply W s (List.length new + j) c.
Proof.
  destruct c; cbn [post_reply]; try reflexivity.
  rewrite after_calls_state. cbn [tick]. now rewrite Nat.add_assoc.
Qed.

Lemma pass_ret W {A} (a : A) s : post_errors_pass W s (ret a s).
Proof. exists []. split; [reflexivity |]. intros [| i]; discriminate. Qed.

Lemma pass_lift W {A} (r : result A) s : post_errors_pass W s (lift r s).
Proof. exists []. split; [reflexivity |]. intros [| i]; discriminate. Qed.

Lemma pass_post_to W u d s :
  post_errors_pass W s (facebook_graph.post_to W u d s).
Proof.
  exists [CallRequestsPost u d].
  unfold facebook_graph.post_to, bind, ask, ret.
  split; [destruct (requests_post W (tick s) u d); reflexivity |].
  intros [| i] c e Hc Hr; cbn [nth_error] in Hc; [| destruct i; discriminate].
  injection Hc as <-. rewrite post_reply_0 in Hr. injection Hr as ->.
  reflexivity.
Qed.

Lemma pass_bind W {A B} (m : M A) (k : A -> M B) :
  (forall s, post_errors_pass W s (m s)) ->
  (forall a s, post_errors_pass W s (k a s)) ->
  forall s, post_errors_pass W s (bind m k s).
Proof.
  intros Hm Hk s. destruct (Hm s) as (new1 & Hs1 & Hr1). unfold bind.
  destruct (m s) as [[a | e |] s1]; cbn [fst snd] in *;
    [| exists new1; (split; [exact Hs1 |]);
       intros i c e0 Hc Hr; specialize (Hr1 i c e0 Hc Hr); cbn [fst]; congruence ..].
  destruct (Hk a s1) as (new2 & Hs2 & Hr2).
  exists (new1 ++ new2). split.
  - rewrite after_calls_app, <- Hs1. exact Hs2.
  - intros i c e Hc Hr.
    destruct (Nat.lt_ge_cases i (List.length new1)) as [Hlt | Hge].
    + rewrite nth_error_app1 in Hc by exact Hlt.
      discriminate (Hr1 i c e Hc Hr).
    + rewrite nth_error_app2 in Hc by exact Hge.
      apply (Hr2 _ c e Hc). rewrite Hs1, post_reply_after. rewrite <- Hr.
      f_equal. lia.
Qed.

Ltac pass :=
  repeat first
    [ apply pass_ret | apply pass_lift | apply pass_post_to
    | apply pass_bind; intros
    | match goal with
      | |- post_errors_pass _ _ ((match ?x with _ => _ end) _) => destruct x
      | |- post_errors_pass _ _ ((if ?b then _ else _) _) => destruct b
      end ].

Lemma create_children_pass W tok ig urls :
  forall ids s,
    post_errors_pass W s (facebook_graph.create_children W tok ig urls ids s).
Proof.
  induction urls as [| u urls IH]; intros ids s;
    cbn [facebook_graph.create_children]; unfold facebook_graph._post;
    pass; apply IH.
Qed.

Lemma publish_photo_pass W u cap s :
  post_errors_pass W s (facebook_graph.publish_photo W u cap s).
Proof.
  unfold facebook_graph.publish_photo, facebook_graph._post. cbv zeta. pass.
Qed.

Lemma publish_video_pass W u cap s :
  post_errors_pass W s (facebook_graph.publish_video W u cap s).
Proof.
  unfold facebook_graph.publish_video, facebook_graph._video_post,
    facebook_graph._post. cbv zeta. pass.
Qed.

Lemma publish_carousel_pass W urls cap s :
  post_errors_pass W s (facebook_graph.publish_carousel W urls cap s).
Proof.
  unfold facebook_graph.publish_carousel, facebook_graph._post. cbv zeta.
  pass; apply create_children_pass.
Qed.

(** An exception of the first POST leaves the three operations as it is. *)
Lemma post_to_raises (W : World) u d s e :
  requests_post W (tick s) u d = Raises e ->
  facebook_graph.post_to W u d s = (Raise e, step_world (CallRequestsPost u d) s).
Proof.
  intros E. unfold facebook_graph.post_to, ask, bind. rewrite E. reflexivity.
Qed.

(** C4 (amended): for every URL (list) and caption, each of publish_photo,
    publish_carousel and publish_video returns a pair (success, message)
    whenever every HTTP POST it makes is answered, with any status code, by a
    body that is not JSON, is falsy, or is a JSON object whose id is a string
    or absent.  A refused or incomplete answer (a status other than 200 and
    201, or no truthy id where a container was to be created) ends the
    function with (False, reason ++ response text); False is returned for no
    other cause than missing credentials; True is returned with the text of
    the accepted answer to the publishing POST.  An exception raised by an
    HTTP POST itself, the first or a later one, is not converted: the function
    raises it to its caller.  In particular, with the credentials configured
    each of the three makes a first POST, and raises what this POST raises. *)
Theorem publish_returns_pair_when_answered (W : World) :
  (posts_answered W ->
   forall s cap,
     (forall u, pair_from_answers W photo_reasons "Published: " s
                  (facebook_graph.publish_photo W u cap s))
     /\ (forall urls, pair_from_answers W carousel_reasons "Carousel published: " s
                        (facebook_graph.publish_carousel W urls cap s))
     /\ (forall u, pair_from_answers W video_reasons "Video published: " s
                     (facebook_graph.publish_video W u cap s)))
  /\ (forall s cap,
        (forall u, post_errors_pass W s (facebook_graph.publish_photo W u cap s))
        /\ (forall urls, post_errors_pass W s
                           (facebook_graph.publish_carousel W urls cap s))
        /\ (forall u, post_errors_pass W s
                        (facebook_graph.publish_video W u cap s)))
  /\ (forall s cap u tok ig,
        FACEBOOK_PAGE_ACCESS_TOKEN (settings W) = Some tok ->
        INSTAGRAM_USER_ID (settings W) = Some ig ->
        tok <> "" -> ig <> "" ->
        forall e,
          (forall url d, requests_post W (tick s) url d = Raises e) ->
          fst (facebook_graph.publish_photo W u cap s) = Raise e
          /\ (forall urls,
                fst (facebook_graph.publish_carousel W urls cap s) = Raise e)
          /\ fst (facebook_graph.publish_video W u cap s) = Raise e).
Proof.
  split; [| split].
  - intros H s cap. split; [| split]; intros.
    + apply publish_photo_pair, H.
    + apply publish_carousel_pair, H.
    + apply publish_video_pair, H.
  - intros s cap. split; [| split]; intros.
    + apply publish_photo_pass.
    + apply publish_carousel_pass.
    + apply publish_video_pass.
  - intros s cap u tok ig Ht Hi Htok Hig e Hdown.
    unfold facebook_graph.publish_photo, facebook_graph.publish_video,
      facebook_graph.publish_carousel,
      facebook_graph._post, facebook_graph._video_post.
    rewrite Ht, Hi. cbn [truthy_str].
    apply String.eqb_neq in Htok, Hig. rewrite Htok, Hig. cbn [negb orb].
    split; [| split].
    + match goal with
      | |- context [facebook_graph.post_to W ?url ?d] =>
          rewrite (bind_raise _ _ _ _ _ (post_to_raises W url d s e (Hdown url d)))
      end.
      reflexivity.
    + intros [| u0 urls]; cbn [facebook_graph.create_children];
        unfold facebook_graph._post.
      * unfold bind at 1. cbn [ret]. unfold facebook_graph.join_ids.
        cbn [facebook_graph.strs_of join]. rewrite bind_lift_ok.
        match goal with
        | |- context [facebook_graph.post_to W ?url ?d] =>
            rewrite (bind_raise _ _ _ _ _
                       (post_to_raises W url d s e (Hdown url d)))
        end.
        reflexivity.
      * match goal with
        | |- context [bind (facebook_graph.post_to W ?url ?d) ?k] =>
            rewrite (bind_raise _ _ _ _ _
                       (bind_raise _ k _ _ _
                          (post_to_raises W url d s e (Hdown url d))))
        end.
        reflexivity.
    + match goal with
      | |- context [facebook_graph.post_to W ?url ?d] =>
          rewrite (bind_raise _ _ _ _ _ (post_to_raises W url d s e (Hdown url d)))
      end.
      reflexivity.
Qed.

Lemma healthy_posts_answered : posts_answered examples.healthy.
Proof. intros t u d. eexists; split; reflexivity. Qed.

(** With the Graph API answering, the three operations return pairs made
    from its answers. *)
Lemma publish_returns_pair_when_answered_witness :
  pair_from_answers examples.healthy photo_reasons "Published: "
    examples.empty_state
    (facebook_graph.publish_photo examples.healthy
       (Some "https://pub.r2.dev/a.jpg") "Hello" examples.empty_state)
  /\ pair_from_answers examples.healthy carousel_reasons "Carousel published: "
       examples.empty_state
       (facebook_graph.publish_carousel examples.healthy
          [Some "https://pub.r2.dev/a.jpg"; Some "https://pub.r2.dev/b.jpg"]
          "Hello" examples.empty_state)
  /\ pair_from_answers examples.healthy video_reasons "Video published: "
       examples.empty_state
       (facebook_graph.publish_video examples.healthy
          (Some "https://pub.r2.dev/a.mp4") "Hello" examples.empty_state).
Proof.
  destruct (proj1 (publish_returns_pair_when_answered examples.healthy)
                  healthy_posts_answered examples.empty_state "Hello")
    as (Hp & Hc & Hv).
  exact (conj (Hp _) (conj (Hc _) (Hv _))).
Defined.

(* ------------------------------------------------------------------ *)
(** ** Code that leaves the table and the publish log alone *)

Lemma silent_ret {A} (a : A) : silent (ret a).
Proof. intros s; cbn; auto. Qed.

Lemma silent_raise {A} e : silent (@raise A e).
Proof. intros s; cbn; auto. Qed.

Lemma silent_diverge {A} : silent (@diverge A).
Proof. intros s; cbn; auto. Qed.

Lemma silent_lift {A} (r : result A) : silent (lift r).
Proof. intros s; cbn; auto. Qed.

Lemma silent_ask {A} c (f : nat -> reply A) : silent (ask c f).
Proof. intros s; unfold ask; destruct (f (tick s)); cbn; auto. Qed.

Lemma silent_ask_exn c f : silent (ask_exn c f).
Proof. apply silent_ask. Qed.

Lemma silent_ask_fault c f : silent (ask_fault c f).
Proof. apply silent_ask. Qed.

Lemma silent_ask_pure {A} c (f : nat -> A) : silent (ask_pure c f).
Proof. apply silent_ask. Qed.

Lemma silent_logger ev :
  pipeline.is_publish_event ev = false -> silent (logger ev).
Proof.
  intros H s; cbn. rewrite filter_app. cbn. rewrite H, app_nil_r. auto.
Qed.

Lemma silent_bind {A B} (m : M A) (k : A -> M B) :
  silent m -> (forall a, silent (k a)) -> silent (bind m k).
Proof.
  intros Hm Hk s. unfold bind.
  destruct (Hm s) as (H1 & H2 & H3).
  destruct (m s) as [[a | e |] s1]; cbn [snd] in *; auto.
  destruct (Hk a s1) as (K1 & K2 & K3).
  rewrite K1, K2, K3. auto.
Qed.

Lemma silent_try_except {A} (m : M A) (h : exn -> M A) :
  silent m -> (forall e, silent (h e)) -> silent (try_except m h).
Proof.
  intros Hm Hh s. unfold try_except.
  destruct (Hm s) as (H1 & H2 & H3).
  destruct (m s) as [[a | e |] s1]; cbn [snd] in *; auto.
  destruct (Hh e s1) as (K1 & K2 & K3).
  rewrite K1, K2, K3. auto.
Qed.

Lemma silent_try_except_HttpError {A} (m : M A) (h : Z -> string -> M A) :
  silent m -> (forall st msg, silent (h st msg)) ->
  silent (try_except_HttpError m h).
Proof.
  intros Hm Hh s. unfold try_except_HttpError.
  destruct (Hm s) as (H1 & H2 & H3).
  destruct (m s) as [[a | [st msg | c d | k msg] |] s1]; cbn [snd] in *; auto.
  destruct (Hh st msg s1) as (K1 & K2 & K3).
  rewrite K1, K2, K3. auto.
Qed.

Lemma silent_fold_m {A B} (body : B -> A -> M B) (l : list A) :
  (forall acc x, silent (body acc x)) -> forall acc, silent (fold_m l acc body).
Proof.
  intros Hb. induction l as [| x l IH]; intros acc; cbn [fold_m].
  - apply silent_ret.
  - apply silent_bind; [apply Hb | intros; apply IH].
Qed.

Create HintDb silent.

(** Steps through a definition built from the combinators above. *)
Ltac silence :=
  repeat first
    [ apply silent_ret | apply silent_raise | apply silent_diverge
    | apply silent_lift
    | apply silent_ask_exn | apply silent_ask_fault | apply silent_ask_pure
    | apply silent_ask
    | apply silent_logger; reflexivity
    | apply silent_bind; [| intros]
    | apply silent_try_except_HttpError; [| intros]
    | apply silent_try_except; [| intros]
    | apply silent_fold_m; intros
    | solve [auto with silent]
    | match goal with
      | |- silent (match ?x with _ => _ end) => destruct x
      | |- silent (if ?b then _ else _) => destruct b
      end ].

Lemma silent_get_google_creds W : silent (google_drive.get_google_creds W).
Proof. unfold google_drive.get_google_creds. silence. Qed.

Lemma silent_build W api : silent (google_drive.build W api).
Proof. unfold google_drive.build. silence. Qed.

Lemma silent_files_create W r : silent (google_drive.files_create W r).
Proof. unfold google_drive.files_create. silence. Qed.

Lemma silent_files_delete W f : silent (google_drive.files_delete W f).
Proof. unfold google_drive.files_delete. silence. Qed.

Lemma silent_requests_get_ok W u : silent (google_drive.requests_get_ok W u).
Proof. unfold google_drive.requests_get_ok. silence. Qed.

#[local] Hint Resolve silent_get_google_creds silent_build silent_files_create
  silent_files_delete silent_requests_get_ok : silent.

Lemma silent_root_folder W :
  silent (google_drive.create_social_media_root_folder W).
Proof. unfold google_drive.create_social_media_root_folder. silence. Qed.

Lemma silent_upload_url W fid p acc : silent (google_drive.upload_url W fid p acc).
Proof. unfold google_drive.upload_url. destruct acc. silence. Qed.

Lemma silent_upload_local W fid p acc :
  silent (google_drive.upload_local W fid p acc).
Proof. unfold google_drive.upload_local. destruct acc. silence. Qed.

#[local] Hint Resolve silent_root_folder silent_upload_url silent_upload_local
  : silent.

Lemma silent_upload_one W fid acc p : silent (google_drive.upload_one W fid acc p).
Proof. unfold google_drive.upload_one. silence. Qed.

Lemma silent_finish_upload W fid u m : silent (google_drive.finish_upload W fid u m).
Proof. unfold google_drive.finish_upload. silence. Qed.

#[local] Hint Resolve silent_upload_one silent_finish_upload : silent.

Lemma silent_upload_files_to_drive W paths cap pt :
  silent (google_drive.upload_files_to_drive W paths cap pt).
Proof. unfold google_drive.upload_files_to_drive. silence. Qed.

Lemma silent_delete_drive_folder W fid :
  silent (google_drive.delete_drive_folder W fid).
Proof. unfold google_drive.delete_drive_folder. silence. Qed.

Lemma silent_get_public_download_url W fid :
  silent (google_drive.get_public_download_url W fid).
Proof. unfold google_drive.get_public_download_url. silence. Qed.

Lemma silent_download_file_bytes W fid :
  silent (google_drive.download_file_bytes W fid).
Proof. unfold google_drive.download_file_bytes. silence. Qed.

#[local] Hint Resolve silent_upload_files_to_drive silent_delete_drive_folder
  silent_get_public_download_url silent_download_file_bytes : silent.

Lemma silent_post_to W u d : silent (facebook_graph.post_to W u d).
Proof. unfold facebook_graph.post_to. silence. Qed.

#[local] Hint Resolve silent_post_to : silent.

Lemma silent_publish_photo W u cap : silent (facebook_graph.publish_photo W u cap).
Proof.
  unfold facebook_graph.publish_photo, facebook_graph._post. silence.
Qed.

Lemma silent_publish_video W u cap : silent (facebook_graph.publish_video W u cap).
Proof.
  unfold facebook_graph.publish_video, facebook_graph._post,
    facebook_graph._video_post. silence.
Qed.

Lemma silent_create_children W tok ig urls :
  forall ids, silent (facebook_graph.create_children W tok ig urls ids).
Proof.
  induction urls as [| u urls IH]; intros ids;
    cbn [facebook_graph.create_children]; unfold facebook_graph._post.
  - silence.
  - silence.
Qed.

#[local] Hint Resolve silent_create_children : silent.

Lemma silent_publish_carousel W urls cap :
  silent (facebook_graph.publish_carousel W urls cap).
Proof.
  unfold facebook_graph.publish_carousel, facebook_graph._post. silence.
Qed.

#[local] Hint Resolve silent_publish_photo silent_publish_video
  silent_publish_carousel : silent.

Lemma silent_encode_loop W fuel dims :
  forall q, silent (encode_loop W fuel dims q).
Proof.
  induction fuel as [| fuel IH]; intros q; cbn [encode_loop].
  - silence.
  - silence.
Qed.

#[local] Hint Resolve silent_encode_loop : silent.

Lemma silent_validate_and_prepare_image W fuel u b :
  silent (validate_and_prepare_image W fuel u b).
Proof. unfold validate_and_prepare_image. silence. Qed.

#[local] Hint Resolve silent_validate_and_prepare_image : silent.

Lemma silent_prepare_media W fuel post idx m urls :
  silent (prepare_media W fuel post idx m urls).
Proof. unfold prepare_media, prepare_from_drive. silence. Qed.

#[local] Hint Resolve silent_prepare_media : silent.

Lemma silent_prepare_all W fuel post media :
  forall idx urls, silent (prepare_all W fuel post idx media urls).
Proof.
  induction media as [| m media IH]; intros idx urls; cbn [prepare_all].
  - silence.
  - silence.
Qed.

Lemma silent_create_calendar_event W t c f pt tz :
  silent (google_calender.create_calendar_event W t c f pt tz).
Proof. unfold google_calender.create_calendar_event. silence. Qed.

#[local] Hint Resolve silent_prepare_all silent_create_calendar_event : silent.

(* ------------------------------------------------------------------ *)
(** ** Scheduling when the upload fails (schedular.schedule_post) *)

(** C5 (the code departs from it): with the archive unreachable the record
    is persisted with the synthetic references "no_drive_..." and
    "no_calendar_..." and status 'scheduled', but the response is built from
    the unset [folder_id] and [event_id], not from the synthetic ones;
    [ScheduleResponse] requires strings, so its construction fails and the
    caller gets HTTP 500 instead of a response with webhook_sent = false.
    (The text of the validation error is abridged.) *)
Theorem schedule_soft_fail_answers_500 :
  let run := schedular.schedule_post examples.drive_unreachable
               examples.request examples.empty_state in
  fst run = Raise (HTTPException 500
                     "Scheduling failed: Input should be a valid string")
  /\ db (snd run)
     = [mkPost 1 "static" "Hello" 0
               (Some "no_drive_static_2025-01-01_10-00-00")
               (Some "no_calendar_static_2025-01-01_10-00-00")
               "scheduled" None 0].
Proof. vm_compute. split; reflexivity. Qed.



















(* ------------------------------------------------------------------ *)
(** ** A triggered post is never selected or published again *)

Lemma publish_attempts_filter i l :
  publish_attempts i (filter is_publish_event l) = publish_attempts i l.
Proof.
  unfold publish_attempts.
  induction l as [| ev l IH]; cbn [filter]; [reflexivity |].
  destruct ev; cbn [is_publish_event publish_event_of filter]; try exact IH.
  all: destruct (_ =? i); [f_equal |]; exact IH.
Qed.

Lemma Inv_same i n s s' :
  db s' = db s -> next_id s' = next_id s ->
  publish_attempts i (log s') = publish_attempts i (log s) ->
  Inv i n s -> Inv i n s'.
Proof.
  intros Hd Hn Hl (H1 & H2 & H3 & H4).
  unfold Inv, ids_below_counter, has_post, post_has_status in *.
  rewrite Hd, Hn, Hl. auto.
Qed.

Lemma keeps_silent i n {A} (m : M A) : silent m -> keeps i n m.
Proof.
  intros Hm s HI. destruct (Hm s) as (Hd & Hn & Hl).
  apply (Inv_same i n s); auto.
  rewrite <- publish_attempts_filter, Hl. apply publish_attempts_filter.
Qed.

Lemma keeps_bind i n {A B} (m : M A) (k : A -> M B) :
  keeps i n m -> (forall a, keeps i n (k a)) -> keeps i n (bind m k).
Proof.
  intros Hm Hk s HI. unfold bind. specialize (Hm s HI).
  destruct (m s) as [[a | e |] s1]; cbn [snd] in *; auto.
  apply Hk, Hm.
Qed.

Lemma keeps_try_except i n {A} (m : M A) (h : exn -> M A) :
  keeps i n m -> (forall e, keeps i n (h e)) -> keeps i n (try_except m h).
Proof.
  intros Hm Hh s HI. unfold try_except. specialize (Hm s HI).
  destruct (m s) as [[a | e |] s1]; cbn [snd] in *; auto.
  apply Hh, Hm.
Qed.

Lemma keeps_try_except_HttpError i n {A} (m : M A) (h : Z -> string -> M A) :
  keeps i n m -> (forall st msg, keeps i n (h st msg)) ->
  keeps i n (try_except_HttpError m h).
Proof.
  intros Hm Hh s HI. unfold try_except_HttpError. specialize (Hm s HI).
  destruct (m s) as [[a | [st msg | c d | k msg] |] s1]; cbn [snd] in *; auto.
  apply Hh, Hm.
Qed.

Lemma keeps_logger i n ev :
  publish_event_of i ev = false -> keeps i n (logger ev).
Proof.
  intros Hev s HI. apply (Inv_same i n s); auto.
  cbn. unfold publish_attempts. rewrite filter_app. cbn [filter].
  rewrite Hev. apply app_nil_r.
Qed.

Lemma keeps_fold_m i n {A B} (body : B -> A -> M B) (l : list A) :
  (forall acc x, In x l -> keeps i n (body acc x)) ->
  forall acc, keeps i n (fold_m l acc body).
Proof.
  induction l as [| x l IH]; intros Hb acc; cbn [fold_m].
  - apply keeps_silent, silent_ret.
  - apply keeps_bind; [apply Hb; left; reflexivity |].
    intros acc'. apply IH. intros; apply Hb; right; assumption.
Qed.

Lemma keeps_for_each i n {A} (body : A -> M unit) (l : list A) :
  (forall x, In x l -> keeps i n (body x)) -> keeps i n (for_each l body).
Proof.
  induction l as [| x l IH]; intros Hb; cbn [for_each].
  - apply keeps_silent, silent_ret.
  - apply keeps_bind; [apply Hb; left; reflexivity |].
    intros _. apply IH. intros; apply Hb; right; assumption.
Qed.

Lemma silent_execute_query W what : silent (crud.execute_query W what).
Proof. unfold crud.execute_query. silence. Qed.

#[local] Hint Resolve silent_execute_query : silent.

(** Writing a status for another id leaves the rows of [i] as they are. *)
Lemma keeps_update_post_status W i n j st :
  j <> i -> keeps i n (crud.update_post_status W j st).
Proof.
  intros Hj s HI. unfold crud.update_post_status.
  unfold bind at 1.
  pose proof (keeps_silent i n _ (silent_execute_query W "UPDATE status") s HI)
    as HI1.
  destruct (crud.execute_query W "UPDATE status" s) as [[t | e |] s1];
    cbn [snd] in *; try exact HI1.
  unfold bind, get_db, put_db. cbn [snd].
  destruct HI1 as (H1 & (p & Hp & Hpi) & H3 & H4).
  unfold Inv, ids_below_counter, has_post, post_has_status, crud.update_rows.
  cbn [db next_id log].
  repeat split; try assumption.
  - intros q Hq. apply in_map_iff in Hq. destruct Hq as (q0 & <- & Hq0).
    destruct (id q0 =? j); [cbn [set_status id] |]; apply H1, Hq0.
  - exists p. split; [| exact Hpi].
    apply in_map_iff. exists p. split; [| exact Hp].
    replace (id p =? j) with false; [reflexivity |].
    symmetry. apply Z.eqb_neq. congruence.
  - intros q Hq Hqi. apply in_map_iff in Hq. destruct Hq as (q0 & <- & Hq0).
    destruct (Z.eqb_spec (id q0) j) as [E | E].
    + cbn [set_status id] in Hqi. congruence.
    + apply H3; assumption.
Qed.

Lemma keeps_cancel_post W i n ev :
  keeps i n (crud.cancel_post_by_event_id W ev).
Proof.
  intros s HI. unfold crud.cancel_post_by_event_id.
  unfold bind at 1.
  pose proof (keeps_silent i n _ (silent_execute_query W "UPDATE cancelled") s HI)
    as HI1.
  destruct (crud.execute_query W "UPDATE cancelled" s) as [[t | e |] s1];
    cbn [snd] in *; try exact HI1.
  unfold bind, get_db, put_db. cbn [snd].
  destruct HI1 as (H1 & (p & Hp & Hpi) & H3 & H4).
  assert (Hsame : forall q,
             id (match ev, google_calendar_event_id q with
                 | Some e, Some e' =>
                     if String.eqb e' e && crud.is_scheduled q
                     then set_status "cancelled" q else q
                 | _, _ => q
                 end) = id q).
  { intros q. destruct ev, (google_calendar_event_id q); try reflexivity.
    destruct (_ && _); reflexivity. }
  assert (Hkeep : forall q,
             status q = "triggered" ->
             match ev, google_calendar_event_id q with
             | Some e, Some e' =>
                 if String.eqb e' e && crud.is_scheduled q
                 then set_status "cancelled" q else q
             | _, _ => q
             end = q).
  { intros q Hq. destruct ev, (google_calendar_event_id q); try reflexivity.
    unfold crud.is_scheduled. rewrite Hq. cbn. rewrite Bool.andb_false_r.
    reflexivity. }
  unfold Inv, ids_below_counter, has_post, post_has_status, crud.cancel_rows.
  cbn [db next_id log].
  repeat split; try assumption.
  - intros q Hq. apply in_map_iff in Hq. destruct Hq as (q0 & <- & Hq0).
    rewrite Hsame. apply H1, Hq0.
  - exists p. split; [| exact Hpi].
    apply in_map_iff. exists p. split; [| exact Hp].
    apply Hkeep, H3; assumption.
  - intros q Hq Hqi. apply in_map_iff in Hq. destruct Hq as (q0 & <- & Hq0).
    rewrite Hsame in Hqi. rewrite Hkeep; apply H3; assumption.
Qed.

(** A new row takes the next id of the counter, which no row has. *)
Lemma keeps_add_scheduled_post W i n pt cap sched folder event media :
  keeps i n (crud.add_scheduled_post W pt cap sched folder event media).
Proof.
  intros s HI. unfold crud.add_scheduled_post.
  unfold bind at 1.
  pose proof (keeps_silent i n _
                (silent_execute_query W "INSERT INTO scheduled_posts") s HI)
    as HI1.
  destruct (crud.execute_query W "INSERT INTO scheduled_posts" s)
    as [[t | e |] s1]; cbn [snd] in *; try exact HI1.
  destruct (pg_timestamp W sched) as [t0 |]; [| exact HI1].
  unfold bind, fresh_id, get_db, put_db. cbn [snd db next_id].
  destruct HI1 as (H1 & (p & Hp & Hpi) & H3 & H4).
  unfold Inv, ids_below_counter, has_post, post_has_status.
  cbn [db next_id log].
  repeat split; try assumption.
  - intros q Hq. apply in_app_or in Hq.
    destruct Hq as [Hq | [<- | []]]; [specialize (H1 q Hq); lia |].
    cbn [id]. lia.
  - exists p. split; [apply in_or_app; left; exact Hp | exact Hpi].
  - intros q Hq Hqi. apply in_app_or in Hq.
    destruct Hq as [Hq | [<- | []]]; [apply H3; assumption |].
    cbn [id] in Hqi. specialize (H1 p Hp). lia.
Qed.

(** Steps through a definition, using [silent] parts as they are. *)
Ltac keep :=
  repeat first
    [ apply keeps_silent; solve [silence]
    | apply keeps_cancel_post
    | apply keeps_add_scheduled_post
    | apply keeps_update_post_status; assumption
    | apply keeps_logger; cbn [publish_event_of]; apply Z.eqb_neq; assumption
    | apply keeps_bind; [| intros]
    | apply keeps_try_except_HttpError; [| intros]
    | apply keeps_try_except; [| intros]
    | match goal with
      | |- keeps _ _ (match ?x with _ => _ end) => destruct x
      | |- keeps _ _ (if ?b then _ else _) => destruct b
      end ].

Lemma keeps_trigger_each W i n fuel post :
  id post <> i -> keeps i n (trigger_each W fuel post).
Proof. intros Hp. unfold trigger_each, trigger_one. keep. Qed.

Lemma keeps_delete_one W i n counts post :
  id post <> i -> keeps i n (delete_one W counts post).
Proof. intros Hp. unfold delete_one. destruct counts. keep. Qed.

Lemma Inv_not_scheduled i n s p :
  Inv i n s -> In p (db s) -> status p = "scheduled" -> id p <> i.
Proof.
  intros (_ & _ & H3 & _) Hp Hst Hi.
  specialize (H3 p Hp Hi). congruence.
Qed.

Lemma Inv_step_world i n c s : Inv i n s -> Inv i n (step_world c s).
Proof. apply Inv_same; reflexivity. Qed.

Lemma keeps_check_and_trigger_posts W i n fuel :
  keeps i n (check_and_trigger_posts W fuel).
Proof.
  intros s HI. unfold check_and_trigger_posts.
  unfold bind at 1.
  rewrite find_posts_to_trigger_run.
  destruct (db_fault W (S (tick s))) as [[k m] |]; cbn [snd];
    [do 2 apply Inv_step_world; exact HI |].
  assert (Hk : keeps i n
            (bind (logger (LogFoundToTrigger
                     (List.length (crud.select_to_trigger (clock W (tick s)) (db s)))))
                  (fun _ => for_each (crud.select_to_trigger (clock W (tick s)) (db s))
                              (trigger_each W fuel)))).
  { apply keeps_bind; [apply keeps_silent; silence | intros _].
    apply keeps_for_each. intros p Hp. apply keeps_trigger_each.
    apply select_to_trigger_In in Hp. destruct Hp as (Hp & Hst & _).
    eapply Inv_not_scheduled; eassumption. }
  apply Hk. do 2 apply Inv_step_world. exact HI.
Qed.

Lemma select_for_deletion_In now delay rows p :
  In p (crud.select_for_deletion now delay rows) ->
  In p rows /\ status p = "scheduled".
Proof.
  unfold crud.select_for_deletion. intros H. apply filter_In in H.
  destruct H as [Hin Hb]. apply andb_prop in Hb. destruct Hb as [_ Hst].
  split; [exact Hin | apply is_scheduled_iff, Hst].
Qed.

Lemma keeps_bind_with i n {A B} (m : M A) (k : A -> M B) (Q : A -> Prop) :
  (forall s, Inv i n s ->
             Inv i n (snd (m s)) /\ forall a, fst (m s) = Ok a -> Q a) ->
  (forall a, Q a -> keeps i n (k a)) ->
  keeps i n (bind m k).
Proof.
  intros Hm Hk s HI. unfold bind. destruct (Hm s HI) as [HI1 HQ].
  destruct (m s) as [[a | e |] s1]; cbn [fst snd] in *; auto.
  apply Hk; auto.
Qed.

Lemma find_posts_for_deletion_others W i n delay s :
  Inv i n s ->
  Inv i n (snd (crud.find_posts_for_deletion W delay s))
  /\ forall posts,
       fst (crud.find_posts_for_deletion W delay s) = Ok posts ->
       forall p, In p posts -> id p <> i.
Proof.
  intros HI.
  unfold crud.find_posts_for_deletion, crud.execute_query, ask_pure, ask,
    bind, get_db, ret.
  norm_state.
  destruct (db_fault W (S (tick s))) as [[k m] |]; cbn [fst snd].
  - split; [apply (Inv_same i n s); auto | discriminate].
  - split; [apply (Inv_same i n s); auto |].
    intros posts E p Hp. injection E as <-.
    apply select_for_deletion_In in Hp. destruct Hp as [Hp Hst].
    eapply Inv_not_scheduled; eassumption.
Qed.

Lemma keeps_check_and_delete_posts W i n :
  keeps i n (check_and_delete_posts W).
Proof.
  unfold check_and_delete_posts.
  apply keeps_try_except; [| intros; apply keeps_logger; reflexivity].
  apply (keeps_bind_with i n _ _ (fun posts => forall p, In p posts -> id p <> i)).
  - intros s HI. apply find_posts_for_deletion_others, HI.
  - intros posts Hposts. destruct posts as [| p0 posts].
    + apply keeps_logger; reflexivity.
    + apply keeps_bind.
      * apply keeps_fold_m. intros acc x Hx.
        apply keeps_delete_one, Hposts, Hx.
      * intros [d e]. apply keeps_logger; reflexivity.
Qed.

Lemma keeps_handle_calendar_notification W i n r :
  keeps i n (google_calender.handle_calendar_notification W r).
Proof. unfold google_calender.handle_calendar_notification. keep. Qed.

Lemma keeps_schedule_post W i n req :
  keeps i n (schedular.schedule_post W req).
Proof. unfold schedular.schedule_post. keep. Qed.

Lemma keeps_run_op W i n o : keeps i n (run_op W o).
Proof.
  destruct o; cbn [run_op].
  - apply keeps_check_and_trigger_posts.
  - apply keeps_check_and_delete_posts.
  - apply keeps_handle_calendar_notification.
  - apply keeps_bind; [apply keeps_schedule_post |].
    intros; apply keeps_silent, silent_ret.
  - apply keeps_add_scheduled_post.
Qed.

Lemma Inv_run_ops W i n ops : forall s, Inv i n s -> Inv i n (run_ops W ops s).
Proof.
  induction ops as [| o ops IH]; intros s HI; cbn [run_ops]; [exact HI |].
  apply IH, keeps_run_op, HI.
Qed.

(** C1: once every row of post [i] has status 'triggered' (as
    update_post_status leaves it after a successful publish), then after any
    later sequence of trigger passes, cleanup passes, calendar notifications
    and scheduling requests the post is still 'triggered', no
    find_posts_to_trigger selects it at any time, and the log holds no
    further publish line for it: it is not published a second time. *)
Theorem triggered_post_not_triggered_again
    (W : World) (ops : list op) (s : state) (i : Z) :
  ids_below_counter s ->
  has_post i s ->
  post_has_status i "triggered" s ->
  let s' := run_ops W ops s in
  post_has_status i "triggered" s'
  /\ (forall now p, In p (crud.select_to_trigger now (db s')) -> id p <> i)
  /\ publish_attempts i (log s') = publish_attempts i (log s).
Proof.
  intros H1 H2 H3. cbv zeta.
  assert (HI : Inv i (publish_attempts i (log s)) s) by (repeat split; auto).
  apply (Inv_run_ops W i _ ops) in HI.
  pose proof HI as (K1 & K2 & K3 & K4).
  split; [exact K3 |]. split; [| exact K4].
  intros now p Hp. apply select_to_trigger_In in Hp.
  destruct Hp as (Hp & Hst & _).
  eapply Inv_not_scheduled; eassumption.
Qed.

(** Post 1 was published and marked by a first trigger pass; a second
    pass, a cleanup, a new scheduling request and a third pass follow. *)
Lemma triggered_post_not_triggered_again_witness :
  let s' := run_ops examples.healthy
              [Trigger 6; Cleanup; Schedule examples.request; Trigger 6]
              examples.after_first_trigger in
  post_has_status 1 "triggered" s'
  /\ (forall now p, In p (crud.select_to_trigger now (db s')) -> id p <> 1)
  /\ publish_attempts 1 (log s')
     = publish_attempts 1 (log examples.after_first_trigger).
Proof.
  apply (triggered_post_not_triggered_again examples.healthy
           [Trigger 6; Cleanup; Schedule examples.request; Trigger 6]
           examples.after_first_trigger 1).
  - intros p Hp. vm_compute in Hp. destruct Hp as [<- | []].
    vm_compute. reflexivity.
  - exists (examples.post 1 0 "triggered").
    split; [vm_compute; left; reflexivity | reflexivity].
  - intros p Hp _. vm_compute in Hp. destruct Hp as [<- | []]. reflexivity.
Defined.

(* ================================================================== *)
(** * Further properties of the modelled code *)

(** ** Reasoning about what a computation does to the table *)

Lemma hoare_silent (P : state -> Prop) {A} (m : M A) :
  stable P -> silent m -> hoare P m P.
Proof.
  intros HP Hm s Hs. destruct (Hm s) as (Hd & Hn & Hl). apply (HP s); auto.
Qed.

Lemma hoare_bind (P R Q : state -> Prop) {A B} (m : M A) (k : A -> M B) :
  hoare P m R -> (forall s, R s -> Q s) -> (forall a, hoare R (k a) Q) ->
  hoare P (bind m k) Q.
Proof.
  intros Hm HRQ Hk s Hs. unfold bind. specialize (Hm s Hs).
  destruct (m s) as [[a | e |] s1]; cbn [snd] in *; auto.
  apply Hk, Hm.
Qed.

Lemma hoare_try_except (P R Q : state -> Prop) {A} (m : M A) (h : exn -> M A) :
  hoare P m R -> (forall s, R s -> Q s) -> (forall e, hoare R (h e) Q) ->
  hoare P (try_except m h) Q.
Proof.
  intros Hm HRQ Hh s Hs. unfold try_except. specialize (Hm s Hs).
  destruct (m s) as [[a | e |] s1]; cbn [snd] in *; auto.
  apply Hh, Hm.
Qed.

Lemma hoare_try_except_HttpError (P R Q : state -> Prop) {A}
    (m : M A) (h : Z -> string -> M A) :
  hoare P m R -> (forall s, R s -> Q s) -> (forall st msg, hoare R (h st msg) Q) ->
  hoare P (try_except_HttpError m h) Q.
Proof.
  intros Hm HRQ Hh s Hs. unfold try_except_HttpError. specialize (Hm s Hs).
  destruct (m s) as [[a | [st msg | c d | k msg] |] s1]; cbn [snd] in *; auto.
  apply Hh, Hm.
Qed.

Lemma hoare_fold_m (P : state -> Prop) {A B} (body : B -> A -> M B) (l : list A) :
  (forall acc x, In x l -> hoare P (body acc x) P) ->
  forall acc, hoare P (fold_m l acc body) P.
Proof.
  induction l as [| x l IH]; intros Hb acc; cbn [fold_m].
  - intros s Hs; exact Hs.
  - apply (hoare_bind P P P); [apply Hb; left; reflexivity | auto |].
    intros acc'. apply IH. intros; apply Hb; right; assumption.
Qed.

Lemma hoare_for_each (P : state -> Prop) {A} (body : A -> M unit) (l : list A) :
  (forall x, In x l -> hoare P (body x) P) -> hoare P (for_each l body) P.
Proof.
  induction l as [| x l IH]; intros Hb; cbn [for_each].
  - intros s Hs; exact Hs.
  - apply (hoare_bind P P P); [apply Hb; left; reflexivity | auto |].
    intros _. apply IH. intros; apply Hb; right; assumption.
Qed.

Lemma keep_bind (P : state -> Prop) {A B} (m : M A) (k : A -> M B) :
  hoare P m P -> (forall a, hoare P (k a) P) -> hoare P (bind m k) P.
Proof. intros Hm Hk. apply (hoare_bind P P P); auto. Qed.

Lemma keep_try_except (P : state -> Prop) {A} (m : M A) (h : exn -> M A) :
  hoare P m P -> (forall e, hoare P (h e) P) -> hoare P (try_except m h) P.
Proof. intros Hm Hh. apply (hoare_try_except P P P); auto. Qed.

Lemma keep_try_except_HttpError (P : state -> Prop) {A}
    (m : M A) (h : Z -> string -> M A) :
  hoare P m P -> (forall st msg, hoare P (h st msg) P) ->
  hoare P (try_except_HttpError m h) P.
Proof. intros Hm Hh. apply (hoare_try_except_HttpError P P P); auto. Qed.

(** Steps through a definition whose parts keep [P]: those that are
    [silent], and the ones the context has a lemma for. *)
Ltac invariant HP :=
  repeat first
    [ assumption
    | apply (hoare_silent _ _ HP); solve [silence]
    | match goal with H : forall _, hoare _ _ _ |- _ => simple apply H end
    | apply keep_bind; [| intros]
    | apply keep_try_except_HttpError; [| intros]
    | apply keep_try_except; [| intros]
    | match goal with
      | |- hoare _ (match ?x with _ => _ end) _ => destruct x
      | |- hoare _ (if ?b then _ else _) _ => destruct b
      end ].

(* ------------------------------------------------------------------ *)
(** ** Media resolution: what get_media_bytes can answer *)

(** X1: whatever its sources do, get_media_bytes either returns bytes
    tagged with one of the four sources or raises RuntimeError "No available
    source found for media entry": the exceptions of R2, Drive, HTTP and the
    file system are all swallowed.  When the entry has no usable reference
    it raises at once, without any external call. *)
Theorem get_media_bytes_outcome (W : World) (m : MediaEntry) (s : state) :
  let run := publisher_service.get_media_bytes W m s in
  (fst run = Raise (PyError "RuntimeError"
                            "No available source found for media entry")
   \/ exists b, fst run = Ok b
                /\ In (publisher_service.source b) ["r2"; "drive"; "http"; "local"])
  /\ (truthy_str (or_str (r2_url m) (url m)) = false ->
      truthy_str (uploaded_file_id m) = false ->
      truthy_str (or_str (requested_path m) (url m)) = false ->
      run = (Raise (PyError "RuntimeError"
                            "No available source found for media entry"), s)).
Proof.
  cbv zeta. split.
  - unfold publisher_service.get_media_bytes, publisher_service.attempt,
      google_drive.download_file_bytes, google_drive.requests_get_ok,
      google_drive.get_google_creds, google_drive.build,
      ask_fault, ask_exn, ask, bind, try_except, ret, raise.
    run_cases.
    all: cbn [fst].
    all: first [ left; reflexivity
               | right; eexists; split; [reflexivity |];
                 cbn [publisher_service.source In]; tauto ].
  - intros H1 H2 H3.
    unfold publisher_service.get_media_bytes, bind, ret, raise.
    destruct (or_str (r2_url m) (url m)) as [u |] eqn:E1;
      [rewrite H1; cbn [andb] |].
    all: destruct (uploaded_file_id m) as [d |] eqn:E2;
      [rewrite H2; cbn [negb andb] |].
    all: destruct (or_str (requested_path m) (url m)) as [q |] eqn:E3;
      [rewrite H3; cbn [andb] |].
    all: reflexivity.
Qed.

(** An entry with no reference at all: nothing is called. *)
Lemma get_media_bytes_outcome_witness :
  publisher_service.get_media_bytes examples.healthy
    (mkMediaEntry None None None (Some "a.png") None None) examples.empty_state
  = (Raise (PyError "RuntimeError" "No available source found for media entry"),
     examples.empty_state).
Proof.
  exact (proj2 (get_media_bytes_outcome examples.healthy
                  (mkMediaEntry None None None (Some "a.png") None None)
                  examples.empty_state)
               eq_refl eq_refl eq_refl).
Defined.

(* ------------------------------------------------------------------ *)
(** ** The calendar notification handler *)

Lemma cancel_rows_steps ev rows :
  Forall2 (cancel_step ev) rows (crud.cancel_rows ev rows).
Proof.
  unfold crud.cancel_rows.
  induction rows as [| p rows IH]; cbn [map]; constructor; [| exact IH].
  destruct ev as [e |]; [| left; reflexivity].
  destruct (google_calendar_event_id p) as [e' |] eqn:Ee; [| left; reflexivity].
  destruct (String.eqb_spec e' e) as [-> | Hne]; cbn [andb]; [| left; reflexivity].
  destruct (crud.is_scheduled p) eqn:Es; [| left; reflexivity].
  right. apply is_scheduled_iff in Es.
  repeat split; auto. discriminate.
Qed.

Lemma Forall2_same {A} (R : A -> A -> Prop) (l : list A) :
  (forall x, R x x) -> Forall2 R l l.
Proof. intros HR. induction l; constructor; auto. Qed.

(** X2: handle_calendar_notification raises only when the credentials
    cannot be obtained; it never adds or removes a row, and a row it changes
    was 'scheduled', carries the notified event id and becomes 'cancelled'.
    The table changes only when events().get answered 404, and when that
    happens and the database works every such row is cancelled. *)
Theorem handle_calendar_notification_effect
    (W : World) (r : option string) (s : state) :
  let run := google_calender.handle_calendar_notification W r s in
  (fst run = Ok tt
   \/ exists k m, creds_fault W (tick s) = Some (k, m)
                  /\ run = (Raise (PyError k m), step_world CallGetCreds s))
  /\ next_id (snd run) = next_id s
  /\ Forall2 (cancel_step r) (db s) (db (snd run))
  /\ (db (snd run) <> db s ->
      exists msg, calendar_get W (S (S (tick s))) r = Some (HttpError 404 msg))
  /\ (forall msg,
        creds_fault W (tick s) = None ->
        build_fault W (S (tick s)) "calendar" = None ->
        calendar_get W (S (S (tick s))) r = Some (HttpError 404 msg) ->
        db_fault W (S (S (S (tick s)))) = None ->
        db (snd run) = crud.cancel_rows r (db s)).
Proof.
  cbv zeta.
  unfold google_calender.handle_calendar_notification,
    google_drive.get_google_creds, google_drive.build,
    crud.cancel_post_by_event_id, crud.execute_query,
    try_except_HttpError, try_except, ask_fault, ask_exn, ask, bind, ret,
    get_db, put_db.
  run_cases.
  all: cbn [fst snd db next_id step_world].
  all: repeat match goal with
         | H : (_ =? 404) = true |- _ => apply Z.eqb_eq in H; subst
         end.
  all: split; [first [left; reflexivity
                     | right; eexists _, _; split; reflexivity] |].
  all: split; [reflexivity |].
  all: split;
    [first [apply cancel_rows_steps
           | apply Forall2_same; intros; left; reflexivity] |].
  all: split;
    [first [intros Hne; exfalso; apply Hne; reflexivity
           | intros _; eexists; reflexivity] |].
  all: intros; try congruence; try reflexivity.
  all: match goal with
       | H : Some (HttpError ?st _) = Some (HttpError 404 _),
         E : (?st =? 404) = false |- _ =>
           injection H as -> _; discriminate E
       end.
Qed.

(** Scenario E: the event of a scheduled post was deleted. *)
Lemma handle_calendar_notification_effect_witness :
  db (snd (google_calender.handle_calendar_notification
             more_examples.event_deleted (Some "evt123")
             (examples.state_with [examples.post 1 0 "scheduled"])))
  = [examples.post 1 0 "cancelled"].
Proof.
  exact (proj2 (proj2 (proj2 (proj2
           (handle_calendar_notification_effect more_examples.event_deleted
              (Some "evt123")
              (examples.state_with [examples.post 1 0 "scheduled"])))))
           "Not Found" eq_refl eq_refl eq_refl eq_refl).
Defined.

(* ------------------------------------------------------------------ *)
(** ** The cleanup job: every selected post is processed *)

Lemma find_posts_for_deletion_run (W : World) (delay : Z) (s : state) :
  crud.find_posts_for_deletion W delay s
  = (match db_fault W (S (tick s)) with
     | None => Ok (crud.select_for_deletion (clock W (tick s)) delay (db s))
     | Some (k, m) => Raise (PyError k m)
     end,
     step_world (CallQuery "SELECT for deletion") (step_world CallNow s)).
Proof.
  unfold crud.find_posts_for_deletion, crud.execute_query, ask_pure, ask,
    bind, get_db, ret.
  cbn. destruct (db_fault W (S (tick s))) as [[k m] |]; reflexivity.
Qed.

Lemma delete_one_counts (W : World) d e post s :
  fst (delete_one W (d, e) post s) = Ok (d + 1, e)
  \/ fst (delete_one W (d, e) post s) = Ok (d, e + 1).
Proof.
  unfold delete_one, google_drive.delete_drive_folder,
    google_drive.get_google_creds, google_drive.build,
    google_drive.files_delete, crud.update_post_status, crud.execute_query,
    try_except_HttpError, try_except, ask_fault, ask_exn, ask, bind, ret,
    logger, get_db, put_db.
  run_cases; cbn [fst]; auto.
Qed.

Lemma fold_delete_counts (W : World) posts :
  forall d e s,
    exists d' e',
      fst (fold_m posts (d, e) (delete_one W) s) = Ok (d', e')
      /\ d' + e' = d + e + Z.of_nat (List.length posts)
      /\ d <= d' /\ e <= e'.
Proof.
  induction posts as [| p posts IH]; intros d e s.
  - exists d, e. cbn. repeat split; lia.
  - cbn [fold_m]. unfold bind.
    destruct (delete_one_counts W d e p s) as [E | E];
      destruct (delete_one W (d, e) p s) as [r s1]; cbn [fst] in E; subst r.
    + destruct (IH (d + 1) e s1) as (d' & e' & E' & Hsum & Hd & He).
      exists d', e'. split; [exact E' |].
      cbn [List.length]. lia.
    + destruct (IH d (e + 1) s1) as (d' & e' & E' & Hsum & Hd & He).
      exists d', e'. split; [exact E' |].
      cbn [List.length]. lia.
Qed.

(** X3: check_and_delete_posts never raises, whatever Drive, the
    credentials or the database do.  When its query fails it logs the error
    and changes nothing; when no post is due it says so; otherwise every
    selected post is processed, each counted once as deleted or as an error,
    a failure on one post not keeping the others from being processed. *)
Theorem check_and_delete_posts_never_raises (W : World) (s : state) :
  let run := check_and_delete_posts W s in
  let posts := crud.select_for_deletion (clock W (tick s)) DELETE_DELAY_HOURS
                                        (db s) in
  fst run = Ok tt
  /\ match db_fault W (S (tick s)) with
     | Some (k, m) =>
         log (snd run) = log s ++ [LogCleanupCritical (PyError k m)]
         /\ db (snd run) = db s
     | None =>
         match posts with
         | [] => log (snd run) = log s ++ [LogNoPostsForDeletion]
                 /\ db (snd run) = db s
         | _ :: _ =>
             exists d e,
               last (log (snd run)) LogNoPostsForDeletion
               = LogCleanupComplete d e
               /\ d + e = Z.of_nat (List.length posts)
               /\ 0 <= d /\ 0 <= e
         end
     end.
Proof.
  cbv zeta.
  remember (check_and_delete_posts W s) as run eqn:Erun.
  unfold check_and_delete_posts, try_except in Erun.
  unfold bind at 1 in Erun. rewrite find_posts_for_deletion_run in Erun.
  destruct (db_fault W (S (tick s))) as [[k m] |].
  - subst run. cbn. repeat split; reflexivity.
  - set (posts := crud.select_for_deletion _ _ _) in *.
    destruct posts as [| p posts]; [subst run; cbn; repeat split; reflexivity |].
    unfold bind in Erun.
    match type of Erun with
    | context [fold_m (p :: posts) (0, 0) (delete_one W) ?s1] =>
        destruct (fold_delete_counts W (p :: posts) 0 0 s1)
          as (d & e & E & Hsum & Hd & He);
        destruct (fold_m (p :: posts) (0, 0) (delete_one W) s1) as [r s2]
    end.
    cbn [fst] in E. subst r. subst run. cbn [fst snd logger log].
    split; [reflexivity |].
    exists d, e. rewrite last_last. repeat split; auto.
Qed.

(* ------------------------------------------------------------------ *)
(** ** The cleanup job: what it does to the table *)

Lemma stable_deleted_frame posts d0 n0 :
  stable (fun st => next_id st = n0 /\ Forall2 (deleted_step posts) d0 (db st)).
Proof. intros s s' Hd Hn _ [H1 H2]. rewrite Hd, Hn. auto. Qed.

Lemma set_status_twice st p : set_status st (set_status st p) = set_status st p.
Proof. reflexivity. Qed.

Lemma hoare_by_run (P Q : state -> Prop) {A} (m : M A) :
  (forall s r s', P s -> m s = (r, s') -> Q s') -> hoare P m Q.
Proof.
  intros H s Hs. destruct (m s) as [r s'] eqn:E. exact (H s r s' Hs E).
Qed.

(** The state [update_post_status] leaves: the rows rewritten, or, when the
    statement fails, as they were. *)
Lemma update_post_status_run (W : World) j st s r s' :
  crud.update_post_status W j st s = (r, s') ->
  next_id s' = next_id s
  /\ log s' = log s
  /\ (db s' = db s \/ db s' = crud.update_rows j st (db s)).
Proof.
  unfold crud.update_post_status, crud.execute_query, ask, bind, get_db, put_db.
  destruct (db_fault W (tick s)) as [[k m] |]; intros E; injection E as <- <-;
    cbn [db next_id log step_world]; auto.
Qed.

Lemma update_keeps_deleted_frame (W : World) posts d0 n0 q :
  In q posts ->
  hoare (fun st => next_id st = n0 /\ Forall2 (deleted_step posts) d0 (db st))
        (crud.update_post_status W (id q) "deleted")
        (fun st => next_id st = n0 /\ Forall2 (deleted_step posts) d0 (db st)).
Proof.
  intros Hq. apply hoare_by_run. intros s r s' [Hn Hf] E.
  apply update_post_status_run in E. destruct E as (Hn' & _ & Hd').
  split; [congruence |].
  destruct Hd' as [-> | ->]; [exact Hf |].
  unfold crud.update_rows.
  clear - Hq Hf. induction Hf as [| p p' l l' Hp Hl IH]; cbn [map]; constructor;
    [| exact IH].
  destruct (Z.eqb_spec (id p') (id q)) as [E | E]; [| exact Hp].
  destruct Hp as [-> | [-> Hex]].
  - right. split; [reflexivity |]. exists q. auto.
  - right. split; [reflexivity | exact Hex].
Qed.

Lemma delete_one_keeps_deleted_frame (W : World) posts d0 n0 counts q :
  In q posts ->
  hoare (fun st => next_id st = n0 /\ Forall2 (deleted_step posts) d0 (db st))
        (delete_one W counts q)
        (fun st => next_id st = n0 /\ Forall2 (deleted_step posts) d0 (db st)).
Proof.
  intros Hq. pose proof (update_keeps_deleted_frame W posts d0 n0 q Hq) as Hu.
  pose proof (stable_deleted_frame posts d0 n0) as HP.
  unfold delete_one. destruct counts. invariant HP.
Qed.

Lemma delete_one_marks (W : World) counts p s :
  drive_fails_with_http_only W ->
  exists c,
    fst (delete_one W counts p s) = Ok c
    /\ db (snd (delete_one W counts p s))
       = crud.update_rows (id p) "deleted" (db s).
Proof.
  intros (Hc & Hq & Hb & Hd). destruct counts as [d e].
  unfold delete_one, google_drive.delete_drive_folder,
    google_drive.get_google_creds, google_drive.build,
    google_drive.files_delete, crud.update_post_status, crud.execute_query,
    try_except_HttpError, try_except, ask_fault, ask_exn, ask, bind, ret,
    logger, get_db, put_db.
  norm_state. rewrite Hc. norm_state. rewrite Hb. norm_state.
  destruct (Hd (S (S (tick s))) (google_drive_folder_id p))
    as [E | (st & msg & E)]; rewrite E; norm_state.
  - rewrite Hq. norm_state. cbn [fst snd db]. eexists; split; reflexivity.
  - destruct (st =? 404); norm_state; rewrite Hq; norm_state;
      cbn [fst snd db]; eexists; split; reflexivity.
Qed.

Lemma mark_deleted_cons p posts rows :
  mark_deleted posts (crud.update_rows (id p) "deleted" rows)
  = mark_deleted (p :: posts) rows.
Proof.
  unfold mark_deleted, crud.update_rows. rewrite map_map.
  apply map_ext. intros r. cbn [existsb].
  rewrite (Z.eqb_sym (id p) (id r)).
  destruct (id r =? id p); cbn [orb].
  - cbn [set_status id].
    destruct (existsb _ posts); reflexivity.
  - reflexivity.
Qed.

Lemma fold_delete_marks (W : World) posts :
  drive_fails_with_http_only W ->
  forall counts s,
    db (snd (fold_m posts counts (delete_one W) s)) = mark_deleted posts (db s).
Proof.
  intros HW. induction posts as [| p posts IH]; intros counts s.
  - cbn. unfold mark_deleted. cbn [existsb]. symmetry. apply map_id.
  - cbn [fold_m]. unfold bind.
    destruct (delete_one_marks W counts p s HW) as (c & E & Hdb).
    destruct (delete_one W counts p s) as [r s1]. cbn [fst snd] in *. subst r.
    rewrite IH, Hdb. apply mark_deleted_cons.
Qed.


(** X4: a cleanup pass never adds, removes or reorders rows and leaves
    the id counter alone; a row it changes becomes 'deleted' and has the id
    of a post the pass selected (a 'scheduled' post older than the delay).
    When the credentials and the database work and Drive fails at most with
    HttpErrors, every selected post is marked 'deleted'. *)
Theorem check_and_delete_posts_effect (W : World) (s : state) :
  let s' := snd (check_and_delete_posts W s) in
  let posts := crud.select_for_deletion (clock W (tick s)) DELETE_DELAY_HOURS
                                        (db s) in
  next_id s' = next_id s
  /\ Forall2 (deleted_step posts) (db s) (db s')
  /\ (drive_fails_with_http_only W -> db s' = mark_deleted posts (db s)).
Proof.
  cbv zeta.
  set (posts := crud.select_for_deletion _ _ _).
  set (P := fun st => next_id st = next_id s
                      /\ Forall2 (deleted_step posts) (db s) (db st)).
  assert (HP : stable P) by apply stable_deleted_frame.
  assert (Hs : P s).
  { split; [reflexivity |]. apply Forall2_same. intros; left; reflexivity. }
  remember (check_and_delete_posts W s) as run eqn:Erun.
  unfold check_and_delete_posts, try_except in Erun.
  unfold bind at 1 in Erun. rewrite find_posts_for_deletion_run in Erun.
  fold posts in Erun.
  set (s1 := step_world _ (step_world _ s)) in Erun.
  assert (Hs1 : P s1) by exact Hs.
  assert (Hdb1 : db s1 = db s) by reflexivity.
  destruct (db_fault W (S (tick s))) as [[k m] |] eqn:Hq.
  - subst run. cbn [snd logger db next_id]. destruct Hs as [H1 H2].
    repeat split; auto.
    intros (_ & Hdb & _). rewrite Hdb in Hq. discriminate.
  - assert (Hfold : forall counts,
               hoare P (fold_m posts counts (delete_one W)) P).
    { intros counts. apply hoare_fold_m. intros acc x Hx.
      apply delete_one_keeps_deleted_frame, Hx. }
    pose proof (Hfold (0, 0) s1 Hs1) as Hs2.
    pose proof (fun HW => fold_delete_marks W posts HW (0, 0) s1) as Hm.
    rewrite Hdb1 in Hm.
    destruct posts as [| p posts'] eqn:Eposts.
    + subst run. cbn [snd logger db next_id]. destruct Hs as [H1 H2].
      repeat split; auto.
    + unfold bind in Erun.
      destruct (fold_m (p :: posts') (0, 0) (delete_one W) s1)
        as [[[d e] | ex |] s2];
        subst run; cbn [snd logger db next_id] in *; destruct Hs2 as [H1 H2];
        repeat split; auto.
Qed.

Lemma healthy_drive_fails_with_http_only :
  drive_fails_with_http_only examples.drive_delete_500.
Proof.
  repeat split; intros; try reflexivity.
  right. eexists _, _. reflexivity.
Qed.

(** Scenario D: a post due two hours ago, Drive answering 500. *)
Lemma check_and_delete_posts_effect_witness :
  db (snd (check_and_delete_posts examples.drive_delete_500
             (examples.state_with [examples.post 1 (- 2 * HOUR) "scheduled";
                                   examples.post 2 0 "scheduled"])))
  = [examples.post 1 (- 2 * HOUR) "deleted"; examples.post 2 0 "scheduled"].
Proof.
  exact (proj2 (proj2 (check_and_delete_posts_effect examples.drive_delete_500
                  (examples.state_with
                     [examples.post 1 (- 2 * HOUR) "scheduled";
                      examples.post 2 0 "scheduled"])))
               healthy_drive_fails_with_http_only).
Defined.

(* ------------------------------------------------------------------ *)
(** ** The trigger job: what it does to the table *)

Lemma stable_trigger_frame posts d0 n0 l0 :
  stable (trigger_frame posts d0 n0 l0).
Proof.
  intros s s' Hd Hn Hl (H1 & added & H2 & H3 & H4).
  split; [congruence |]. exists added. rewrite Hd, Hl. auto.
Qed.

Lemma triggered_step_more added extra p p' :
  triggered_step added p p' -> triggered_step (added ++ extra) p p'.
Proof.
  intros [-> | [-> [msg Hin]]]; [left; reflexivity |].
  right. split; [reflexivity |]. exists msg. apply in_or_app. auto.
Qed.

Lemma logger_keeps_trigger_frame posts d0 n0 l0 q ev :
  In q posts -> publish_event_of (id q) ev = true ->
  hoare (trigger_frame posts d0 n0 l0) (logger ev)
        (trigger_frame posts d0 n0 l0).
Proof.
  intros Hq Hev s (H1 & added & H2 & H3 & H4).
  split; [exact H1 |]. exists (added ++ [ev]).
  cbn [snd logger log db]. rewrite filter_app. cbn [filter].
  replace (is_publish_event ev) with true
    by (destruct ev; try discriminate Hev; reflexivity).
  rewrite H2, app_assoc. split; [reflexivity |]. split.
  - eapply Forall2_impl; [| exact H3].
    intros; apply triggered_step_more; assumption.
  - apply Forall_app. split; [exact H4 |].
    constructor; [| constructor]. exists q. auto.
Qed.

Lemma publish_then_update_keeps_trigger_frame (W : World) posts d0 n0 l0 q msg :
  In q posts ->
  hoare (trigger_frame posts d0 n0 l0)
        (bind (logger (LogPublished (id q) msg))
              (fun _ => crud.update_post_status W (id q) "triggered"))
        (trigger_frame posts d0 n0 l0).
Proof.
  intros Hq. apply hoare_by_run.
  intros s r s' (H1 & added & H2 & H3 & H4) E.
  unfold bind at 1, logger in E.
  apply update_post_status_run in E. cbn [db next_id log] in E.
  destruct E as (Hn' & Hl' & Hd').
  split; [congruence |].
  exists (added ++ [LogPublished (id q) msg]).
  rewrite Hl', filter_app. cbn [filter is_publish_event].
  rewrite H2, app_assoc. split; [reflexivity |]. split.
  - assert (H3' : Forall2 (triggered_step (added ++ [LogPublished (id q) msg]))
                          d0 (db s)).
    { eapply Forall2_impl; [| exact H3].
      intros; apply triggered_step_more; assumption. }
    destruct Hd' as [-> | ->]; [exact H3' |].
    unfold crud.update_rows.
    clear - H3'. induction H3' as [| p p' l l' Hp Hl IH]; cbn [map];
      constructor; [| exact IH].
    destruct (Z.eqb_spec (id p') (id q)) as [E | E]; [| exact Hp].
    destruct Hp as [-> | [-> Hex]].
    + right. split; [reflexivity |]. exists msg. rewrite E.
      apply in_or_app. right. left. reflexivity.
    + right. split; [reflexivity | exact Hex].
  - apply Forall_app. split; [exact H4 |].
    constructor; [| constructor]. exists q.
    split; [exact Hq | cbn; apply Z.eqb_refl].
Qed.

Lemma trigger_each_keeps_trigger_frame (W : World) fuel posts d0 n0 l0 q :
  In q posts ->
  hoare (trigger_frame posts d0 n0 l0) (trigger_each W fuel q)
        (trigger_frame posts d0 n0 l0).
Proof.
  intros Hq.
  pose proof (stable_trigger_frame posts d0 n0 l0) as HP.
  pose proof (fun msg => publish_then_update_keeps_trigger_frame
                           W posts d0 n0 l0 q msg Hq) as Hpub.
  pose proof (fun msg => logger_keeps_trigger_frame posts d0 n0 l0 q
                           (LogPublishFailed (id q) msg) Hq (Z.eqb_refl _))
    as Hfail.
  unfold trigger_each, trigger_one. invariant HP.
Qed.

Lemma check_and_trigger_posts_frame (W : World) (fuel : nat) (s : state) :
  trigger_frame (crud.select_to_trigger (clock W (tick s)) (db s))
                (db s) (next_id s) (log s)
                (snd (check_and_trigger_posts W fuel s)).
Proof.
  set (posts := crud.select_to_trigger _ _).
  set (P := trigger_frame posts (db s) (next_id s) (log s)).
  assert (HP : stable P) by apply stable_trigger_frame.
  assert (Hs : P s).
  { split; [reflexivity |]. exists []. rewrite app_nil_r.
    split; [reflexivity |].
    split; [apply Forall2_same; intros; left; reflexivity | constructor]. }
  remember (check_and_trigger_posts W fuel s) as run eqn:Erun.
  unfold check_and_trigger_posts in Erun.
  unfold bind at 1 in Erun. rewrite find_posts_to_trigger_run in Erun.
  fold posts in Erun.
  set (s1 := step_world _ (step_world _ s)) in Erun.
  assert (Hs1 : P s1) by exact Hs.
  destruct (db_fault W (S (tick s))) as [[k m] |]; [subst run; exact Hs1 |].
  assert (Hk : hoare P
            (bind (logger (LogFoundToTrigger (List.length posts)))
                  (fun _ => for_each posts (trigger_each W fuel))) P).
  { apply keep_bind; [apply (hoare_silent _ _ HP); silence | intros _].
    apply hoare_for_each. intros x Hx.
    apply trigger_each_keeps_trigger_frame, Hx. }
  subst run. apply Hk, Hs1.
Qed.

(** X5: a trigger pass never adds, removes or reorders rows and leaves
    the id counter alone.  A row it changes becomes 'triggered', and only
    when the pass logged a successful publish for the row's id; every
    publish line the pass logs is for a post that find_posts_to_trigger
    selected.  A pass that logs no successful publish leaves every row as it
    was. *)
Theorem check_and_trigger_posts_effect (W : World) (fuel : nat) (s : state) :
  let s' := snd (check_and_trigger_posts W fuel s) in
  let posts := crud.select_to_trigger (clock W (tick s)) (db s) in
  next_id s' = next_id s
  /\ exists added,
       filter is_publish_event (log s') = filter is_publish_event (log s) ++ added
       /\ Forall2 (triggered_step added) (db s) (db s')
       /\ Forall (fun ev => exists q, In q posts
                                      /\ publish_event_of (id q) ev = true)
                 added
       /\ ((forall j msg, ~ In (LogPublished j msg) added) -> db s' = db s).
Proof.
  cbv zeta.
  destruct (check_and_trigger_posts_frame W fuel s) as (H1 & added & H2 & H3 & H4).
  split; [exact H1 |]. exists added. repeat split; auto.
  intros Hnone. clear - H3 Hnone.
  induction H3 as [| p p' l l' Hp Hl IH]; [reflexivity |].
  f_equal; [| exact IH].
  destruct Hp as [-> | [_ [msg Hin]]]; [reflexivity |].
  exfalso. exact (Hnone _ _ Hin).
Qed.

(* ------------------------------------------------------------------ *)
(** ** Publishing: when the Graph API reports success *)

Lemma truthy_str_Some s : truthy_str (Some s) = true <-> s <> ""%string.
Proof.
  cbn. destruct (String.eqb_spec s ""); cbn; split; congruence.
Qed.

Lemma truthy_json_obj j :
  truthy j = true ->
  (exists v, facebook_graph.py_get j "id" = Ok v) ->
  exists fields, j = JObj fields.
Proof.
  intros _ [v Hv]. destruct j; cbn in Hv; try discriminate. eauto.
Qed.

Lemma two_step_publish_run (W : World) (endpoint : string -> string)
    (field p1 p2 p3 p4 : string) (media_url : option string) (cap : string)
    (tok ig : string) (s : state) (msg : string) (s' : state) :
  FACEBOOK_PAGE_ACCESS_TOKEN (settings W) = Some tok ->
  INSTAGRAM_USER_ID (settings W) = Some ig ->
  tok <> ""%string -> ig <> ""%string ->
  (res_create <- facebook_graph.post_to W (endpoint (ig ++ "/media")%string)
                   [(field, facebook_graph.json_of_opt media_url);
                    ("caption", JStr cap);
                    ("access_token", JStr tok)] ;;
   if negb (facebook_graph.ok_status (facebook_graph.status_code res_create))
      || negb (truthy (facebook_graph.json_body res_create))
   then ret (false, (p1 ++ facebook_graph.text res_create)%string)
   else
     creation_id <- lift (facebook_graph.py_get
                            (facebook_graph.json_body res_create) "id") ;;
     if negb (truthy creation_id)
     then ret (false, (p2 ++ facebook_graph.text res_create)%string)
     else
       res_publish <- facebook_graph._post W (ig ++ "/media_publish")
                        [("creation_id", creation_id);
                         ("access_token", JStr tok)] ;;
       if facebook_graph.ok_status (facebook_graph.status_code res_publish)
       then ret (true, (p3 ++ facebook_graph.text res_publish)%string)
       else ret (false, (p4 ++ facebook_graph.text res_publish)%string)) s
  = (Ok (true, msg), s')
  <-> two_step_publish W endpoint field p3 media_url cap s msg s'.
Proof.
  intros Htok Hig Ht Hi. unfold two_step_publish. split.
  - unfold facebook_graph._post, facebook_graph.post_to, bind, ask, ret, lift.
    intros E.
    destruct (requests_post W (tick s) _ _) as [r1 |] eqn:E1; [| discriminate].
    cbn [facebook_graph.status_code facebook_graph.json_body facebook_graph.text] in E.
    destruct (facebook_graph.ok_status (r_status r1)) eqn:Eok1;
      cbn [negb orb] in E; [| discriminate].
    destruct (r_json r1) as [j |] eqn:Ej; [| discriminate].
    destruct (truthy j) eqn:Etj; cbn [negb] in E; [| discriminate].
    destruct j as [| | | | | fields]; cbn [facebook_graph.py_get] in E;
      try discriminate.
    destruct (truthy (lookup "id" fields)) eqn:Eid; cbn [negb] in E;
      [| discriminate].
    cbn [tick step_world] in E.
    destruct (requests_post W (S (tick s)) _ _) as [r2 |] eqn:E2; [| discriminate].
    cbn [facebook_graph.status_code facebook_graph.text] in E.
    destruct (facebook_graph.ok_status (r_status r2)) eqn:Eok2; [| discriminate].
    injection E as <- <-.
    exists tok, ig, r1, fields, r2. cbv zeta.
    repeat split; auto.
  - intros (tok' & ig' & r1 & fields & r2 & H). cbv zeta in H.
    destruct H as (Htok' & _ & Hig' & _ & E1 & Eok1 & Ej & Eid & E2 & Eok2 & -> & ->).
    assert (tok' = tok) by congruence. assert (ig' = ig) by congruence.
    subst tok' ig'.
    unfold facebook_graph._post, facebook_graph.post_to, bind, ask, ret, lift.
    rewrite E1.
    cbn [facebook_graph.status_code facebook_graph.json_body facebook_graph.text].
    rewrite Eok1, Ej. cbn [negb orb truthy facebook_graph.py_get].
    assert (Hne : match fields with [] => false | _ :: _ => true end = true).
    { destruct fields; [cbn in Eid; discriminate | reflexivity]. }
    rewrite Hne. cbn [negb]. rewrite Eid. cbn [negb tick step_world].
    rewrite E2.
    cbn [facebook_graph.status_code facebook_graph.text].
    rewrite Eok2. reflexivity.
Qed.

Lemma publish_without_credentials (W : World) (msg : string) (s s' : state)
    (body : string -> string -> M (bool * string)) :
  (match FACEBOOK_PAGE_ACCESS_TOKEN (settings W), INSTAGRAM_USER_ID (settings W) with
   | Some tok, Some ig =>
       if negb (truthy_str (FACEBOOK_PAGE_ACCESS_TOKEN (settings W)))
          || negb (truthy_str (INSTAGRAM_USER_ID (settings W)))
       then ret (false, "Facebook/Instagram credentials not configured"%string)
       else body tok ig
   | _, _ => ret (false, "Facebook/Instagram credentials not configured"%string)
   end) s = (Ok (true, msg), s') ->
  exists tok ig,
    FACEBOOK_PAGE_ACCESS_TOKEN (settings W) = Some tok /\ tok <> ""%string
    /\ INSTAGRAM_USER_ID (settings W) = Some ig /\ ig <> ""%string
    /\ body tok ig s = (Ok (true, msg), s').
Proof.
  destruct (FACEBOOK_PAGE_ACCESS_TOKEN (settings W)) as [tok |];
    [| destruct (INSTAGRAM_USER_ID (settings W)); discriminate].
  destruct (INSTAGRAM_USER_ID (settings W)) as [ig |]; [| discriminate].
  destruct (truthy_str (Some tok)) eqn:Et; cbn [negb orb]; [| discriminate].
  destruct (truthy_str (Some ig)) eqn:Ei; cbn [negb]; [| discriminate].
  intros E. exists tok, ig.
  apply truthy_str_Some in Et. apply truthy_str_Some in Ei. auto.
Qed.

(** X6: publish_photo and publish_video report success exactly when
    both credentials are configured, the container POST was answered 200 or
    201 by a JSON object with a truthy id, and the media_publish POST that
    carries this very id was answered 200 or 201; the message is then the
    success prefix followed by the text of the publish response, and the two
    POSTs are the only calls made.  The video container goes to
    graph-video.facebook.com, everything else to graph.facebook.com. *)
Theorem publish_single_success_iff (W : World) (media_url : option string)
    (cap msg : string) (s s' : state) :
  (facebook_graph.publish_photo W media_url cap s = (Ok (true, msg), s')
   <-> two_step_publish W (facebook_graph._graph_url W) "image_url" "Published: "
                        media_url cap s msg s')
  /\ (facebook_graph.publish_video W media_url cap s = (Ok (true, msg), s')
      <-> two_step_publish W (video_url_of W) "video_url" "Video published: "
                           media_url cap s msg s').
Proof.
  split; split.
  - intros E. unfold facebook_graph.publish_photo in E. cbv zeta in E.
    apply publish_without_credentials in E.
    destruct E as (tok & ig & Htok & Ht & Hig & Hi & E).
    unfold facebook_graph._post at 1 in E.
    eapply two_step_publish_run in E; eauto.
  - intros H. pose proof H as (tok & ig & r1 & fields & r2 & H').
    cbv zeta in H'. destruct H' as (Htok & Ht & Hig & Hi & _).
    unfold facebook_graph.publish_photo. cbv zeta. rewrite Htok, Hig.
    rewrite (proj2 (truthy_str_Some tok) Ht), (proj2 (truthy_str_Some ig) Hi).
    cbn [negb orb].
    unfold facebook_graph._post at 1.
    eapply two_step_publish_run; eauto.
  - intros E. unfold facebook_graph.publish_video in E. cbv zeta in E.
    apply publish_without_credentials in E.
    destruct E as (tok & ig & Htok & Ht & Hig & Hi & E).
    unfold facebook_graph._video_post in E. fold (video_url_of W (ig ++ "/media")) in E.
    eapply (two_step_publish_run W (video_url_of W)) in E; eauto.
  - intros H. pose proof H as (tok & ig & r1 & fields & r2 & H').
    cbv zeta in H'. destruct H' as (Htok & Ht & Hig & Hi & _).
    unfold facebook_graph.publish_video. cbv zeta. rewrite Htok, Hig.
    rewrite (proj2 (truthy_str_Some tok) Ht), (proj2 (truthy_str_Some ig) Hi).
    cbn [negb orb].
    unfold facebook_graph._video_post.
    eapply (two_step_publish_run W (video_url_of W)); eauto.
Qed.

Lemma strs_of_map_JStr ids : facebook_graph.strs_of (map JStr ids) = Some ids.
Proof.
  induction ids as [| i ids IH]; cbn; [reflexivity | now rewrite IH].
Qed.

Lemma strs_of_Some l : forall ids,
  facebook_graph.strs_of l = Some ids -> l = map JStr ids.
Proof.
  induction l as [| j l IH]; intros ids; cbn.
  - intros [= <-]. reflexivity.
  - destruct j; try discriminate.
    destruct (facebook_graph.strs_of l) as [r |]; [| discriminate].
    intros [= <-]. cbn. f_equal. apply IH. reflexivity.
Qed.

(** The child loop: it makes the child POSTs for a prefix of the URLs, in
    their order, and hands over the ids when every child was accepted. *)
Lemma create_children_run (W : World) tok ig urls : forall acc s r s',
  facebook_graph.create_children W tok ig urls acc s = (r, s') ->
  exists k,
    (k <= List.length urls)%nat
    /\ s' = after_calls (map (child_call W ig tok) (firstn k urls)) s
    /\ (forall ids, r = Ok (inr ids) ->
        k = List.length urls
        /\ exists new, ids = acc ++ new
                       /\ children_answered W ig tok (tick s) urls new).
Proof.
  induction urls as [| u urls IH]; intros acc s r s' E.
  - cbn in E. injection E as <- <-. exists 0%nat.
    split; [cbn; lia |]. split; [reflexivity |].
    intros ids [= <-]. split; [reflexivity |].
    exists []. rewrite app_nil_r. split; [reflexivity | exact I].
  - cbn [facebook_graph.create_children] in E.
    unfold facebook_graph._post, facebook_graph.post_to in E.
    unfold bind at 1 2, ask, ret in E. fold (child_data tok u) in E.
    destruct (requests_post W (tick s) _ _) as [r1 | e] eqn:E1.
    + cbn [facebook_graph.status_code facebook_graph.json_body
           facebook_graph.text] in E.
      destruct (negb (facebook_graph.ok_status (r_status r1))
                || negb (truthy match r_json r1 with
                                | Some j => j | None => JNull end)) eqn:Ebad.
      * injection E as <- <-. exists 1%nat.
        split; [cbn; lia |]. split; [reflexivity |]. discriminate.
      * apply orb_false_elim in Ebad. destruct Ebad as [Eok Etr].
        apply negb_false_iff in Eok. apply negb_false_iff in Etr.
        destruct (r_json r1) as [j |] eqn:Ej; [| discriminate].
        unfold bind at 1, lift in E.
        destruct j as [| | | | | fields]; cbn [facebook_graph.py_get] in E;
          try (injection E as <- <-; exists 1%nat;
               split; [cbn; lia |]; split; [reflexivity | discriminate]).
        destruct (truthy (lookup "id" fields)) eqn:Eid; cbn [negb] in E.
        -- apply IH in E. destruct E as (k & Hk & -> & Hids).
           exists (S k). split; [cbn; lia |]. split; [reflexivity |].
           intros ids Hr. destruct (Hids ids Hr) as (-> & new & -> & Hnew).
           split; [reflexivity |].
           exists (lookup "id" fields :: new).
           rewrite <- app_assoc. split; [reflexivity |].
           cbn [children_answered]. split; [| exact Hnew].
           exists r1, fields. auto.
        -- injection E as <- <-. exists 1%nat.
           split; [cbn; lia |]. split; [reflexivity |]. discriminate.
    + injection E as <- <-. exists 1%nat.
      split; [cbn; lia |]. split; [reflexivity |]. discriminate.
Qed.

Lemma create_children_answered (W : World) tok ig urls : forall new acc s,
  children_answered W ig tok (tick s) urls new ->
  facebook_graph.create_children W tok ig urls acc s
  = (Ok (inr (acc ++ new)),
     after_calls (map (child_call W ig tok) urls) s).
Proof.
  induction urls as [| u urls IH]; intros new acc s H.
  - destruct new; [| destruct H]. rewrite app_nil_r. reflexivity.
  - destruct new as [| cid new]; [destruct H |].
    cbn [children_answered] in H.
    destruct H as [(r1 & fields & E1 & Eok & Ej & Eid & Etr) Hrest].
    cbn [facebook_graph.create_children].
    unfold facebook_graph._post, facebook_graph.post_to.
    unfold bind at 1 2, ask, ret. fold (child_data tok u). rewrite E1.
    cbn [facebook_graph.status_code facebook_graph.json_body
         facebook_graph.text].
    rewrite Eok, Ej. cbn [negb orb truthy].
    assert (Hne : match fields with [] => false | _ :: _ => true end = true).
    { destruct fields; [subst cid; discriminate | reflexivity]. }
    rewrite Hne. cbn [negb]. unfold bind at 1, lift.
    cbn [facebook_graph.py_get]. rewrite Eid, Etr. cbn [negb].
    rewrite (IH new); [| exact Hrest].
    rewrite <- app_assoc. reflexivity.
Qed.

(** X7: publish_carousel reports success exactly when both credentials
    are configured, every child POST, made one per URL in the order of the
    list, was answered 200 or 201 by a JSON object with a truthy string id,
    the parent container, whose children parameter joins those ids with commas
    in the same order, was accepted with a truthy id, and the media_publish POST
    carrying that id was answered 200 or 201.  These n + 2 POSTs are then the
    only calls made. *)
Theorem publish_carousel_success_iff (W : World) (urls : list (option string))
    (cap msg : string) (s s' : state) :
  facebook_graph.publish_carousel W urls cap s = (Ok (true, msg), s')
  <-> carousel_publish W urls cap s msg s'.
Proof.
  unfold carousel_publish. split.
  - intros E. unfold facebook_graph.publish_carousel in E. cbv zeta in E.
    apply publish_without_credentials in E.
    destruct E as (tok & ig & Htok & Ht & Hig & Hi & E).
    unfold bind at 1 in E.
    destruct (facebook_graph.create_children W tok ig urls [] s)
      as [rc s1] eqn:Ec.
    destruct (create_children_run _ _ _ _ _ _ _ _ Ec) as (k & Hk & Hs1 & Hids).
    destruct rc as [[[b early] | child_ids] | |]; try discriminate.
    { unfold ret in E. injection E as -> <- <-.
      clear - Ec. exfalso. revert s Ec. generalize (@nil json).
      induction urls as [| u urls IH]; intros acc s Ec; [discriminate |].
      cbn [facebook_graph.create_children] in Ec.
      unfold bind at 1 in Ec.
      destruct (facebook_graph._post W _ _ s) as [[res | |] s2];
        try discriminate.
      destruct (_ || _); [discriminate |].
      unfold bind at 1 in Ec.
      destruct (lift _ s2) as [[cid | |] s3]; try discriminate.
      destruct (negb (truthy cid)); [discriminate |].
      eapply IH, Ec. }
    destruct (Hids _ eq_refl) as (-> & new & Hnew & Hans).
    cbn [app] in Hnew. subst child_ids.
    rewrite firstn_all in Hs1.
    unfold bind at 1, lift, facebook_graph.join_ids in E.
    destruct (facebook_graph.strs_of new) as [ids |] eqn:Estr; [| discriminate].
    apply strs_of_Some in Estr. subst new.
    unfold facebook_graph._post, facebook_graph.post_to, bind, ask, ret, lift in E.
    assert (Ht1 : tick s1 = (tick s + List.length urls)%nat).
    { rewrite Hs1, after_calls_state. cbn [tick]. now rewrite length_map. }
    rewrite Ht1 in E.
    destruct (requests_post W (tick s + List.length urls) _ _) as [r1 |] eqn:E1;
      [| discriminate].
    cbn [facebook_graph.status_code facebook_graph.json_body
         facebook_graph.text] in E.
    destruct (facebook_graph.ok_status (r_status r1)) eqn:Eok1;
      cbn [negb orb] in E; [| discriminate].
    destruct (r_json r1) as [j |] eqn:Ej; [| discriminate].
    destruct (truthy j) eqn:Etj; cbn [negb] in E; [| discriminate].
    destruct j as [| | | | | fields]; cbn [facebook_graph.py_get] in E;
      try discriminate.
    destruct (truthy (lookup "id" fields)) eqn:Eid; cbn [negb] in E;
      [| discriminate].
    cbn [tick step_world] in E. rewrite Ht1 in E.
    destruct (requests_post W (S (tick s + List.length urls)) _ _) as [r2 |] eqn:E2;
      [| discriminate].
    cbn [facebook_graph.status_code facebook_graph.text] in E.
    destruct (facebook_graph.ok_status (r_status r2)) eqn:Eok2; [| discriminate].
    injection E as <- <-.
    exists tok, ig, ids, r1, fields, r2. cbv zeta.
    repeat split; auto.
    rewrite after_calls_app, <- Hs1. reflexivity.
  - intros (tok & ig & ids & r1 & fields & r2 & H). cbv zeta in H.
    destruct H as (Htok & Ht & Hig & Hi & Hans & E1 & Eok1 & Ej & Eid & E2
                   & Eok2 & -> & ->).
    unfold facebook_graph.publish_carousel. cbv zeta. rewrite Htok, Hig.
    rewrite (proj2 (truthy_str_Some tok) Ht), (proj2 (truthy_str_Some ig) Hi).
    cbn [negb orb].
    unfold bind at 1.
    rewrite (create_children_answered W tok ig urls (map JStr ids) [] s Hans).
    cbn [app].
    unfold bind at 1, lift, facebook_graph.join_ids.
    rewrite strs_of_map_JStr.
    set (s1 := after_calls (map (child_call W ig tok) urls) s).
    assert (Ht1 : tick s1 = (tick s + List.length urls)%nat).
    { unfold s1. rewrite after_calls_state. cbn [tick]. now rewrite length_map. }
    unfold facebook_graph._post, facebook_graph.post_to, bind, ask, ret, lift.
    rewrite Ht1, E1.
    cbn [facebook_graph.status_code facebook_graph.json_body facebook_graph.text].
    rewrite Eok1, Ej. cbn [negb orb truthy facebook_graph.py_get].
    assert (Hne : match fields with [] => false | _ :: _ => true end = true).
    { destruct fields; [cbn in Eid; discriminate | reflexivity]. }
    rewrite Hne. cbn [negb]. rewrite Eid. cbn [negb tick step_world].
    rewrite Ht1, E2.
    cbn [facebook_graph.status_code facebook_graph.text].
    rewrite Eok2. rewrite after_calls_app. reflexivity.
Qed.

Lemma create_children_stops (W : World) tok ig urls : forall acc s r s',
  facebook_graph.create_children W tok ig urls acc s = (r, s') ->
  exists k ids,
    (k <= List.length urls)%nat
    /\ s' = after_calls (map (child_call W ig tok) (firstn k urls)) s
    /\ children_answered W ig tok (tick s) (firstn (Nat.pred k) urls) ids.
Proof.
  induction urls as [| u urls IH]; intros acc s r s' E.
  - cbn in E. injection E as <- <-. exists 0%nat, [].
    split; [cbn; lia |]. split; [reflexivity | exact I].
  - assert (Hone : s' = step_world (child_call W ig tok u) s ->
                   exists k ids,
                     (k <= List.length (u :: urls))%nat
                     /\ s' = after_calls (map (child_call W ig tok)
                                              (firstn k (u :: urls))) s
                     /\ children_answered W ig tok (tick s)
                          (firstn (Nat.pred k) (u :: urls)) ids).
    { intros ->. exists 1%nat, []. split; [cbn; lia |].
      split; [reflexivity | exact I]. }
    cbn [facebook_graph.create_children] in E.
    unfold facebook_graph._post, facebook_graph.post_to in E.
    unfold bind at 1 2, ask, ret in E. fold (child_data tok u) in E.
    destruct (requests_post W (tick s) _ _) as [r1 | e] eqn:E1;
      [| injection E as <- <-; apply Hone; reflexivity].
    cbn [facebook_graph.status_code facebook_graph.json_body
         facebook_graph.text] in E.
    destruct (negb (facebook_graph.ok_status (r_status r1))
              || negb (truthy match r_json r1 with
                              | Some j => j | None => JNull end)) eqn:Ebad;
      [injection E as <- <-; apply Hone; reflexivity |].
    apply orb_false_elim in Ebad. destruct Ebad as [Eok Etr].
    apply negb_false_iff in Eok. apply negb_false_iff in Etr.
    destruct (r_json r1) as [j |] eqn:Ej; [| discriminate].
    unfold bind at 1, lift in E.
    destruct j as [| | | | | fields]; cbn [facebook_graph.py_get] in E;
      try (injection E as <- <-; apply Hone; reflexivity).
    destruct (truthy (lookup "id" fields)) eqn:Eid; cbn [negb] in E;
      [| injection E as <- <-; apply Hone; reflexivity].
    apply IH in E. destruct E as (k & ids & Hk & -> & Hans).
    destruct k as [| k].
    + apply Hone. reflexivity.
    + exists (S (S k)), (lookup "id" fields :: ids).
      split; [cbn; lia |]. split; [reflexivity |].
      cbn [Nat.pred firstn children_answered]. split; [| exact Hans].
      exists r1, fields. auto.
Qed.

Lemma children_answered_firstn (W : World) ig tok j : forall urls t ids,
  children_answered W ig tok t urls ids ->
  children_answered W ig tok t (firstn j urls) (firstn j ids).
Proof.
  induction j as [| j IH]; intros urls t ids H; [exact I |].
  destruct urls as [| u urls], ids as [| i ids];
    cbn [firstn children_answered] in *; try tauto.
  destruct H; auto.
Qed.

(** X8: publish_carousel stops at the first child container that is not
    accepted.  Whatever the Graph API answers, the calls it makes are the
    child POSTs for a prefix of the URLs, in their order, followed by at most
    two more POSTs; every child POST but the last one made was accepted, and
    the parent container is only requested when every child was accepted.
    Without both credentials it makes no call at all. *)
Theorem publish_carousel_stops_at_first_refusal
    (W : World) (urls : list (option string)) (cap : string) (s : state) :
  let run := facebook_graph.publish_carousel W urls cap s in
  match FACEBOOK_PAGE_ACCESS_TOKEN (settings W), INSTAGRAM_USER_ID (settings W) with
  | Some tok, Some ig =>
      if negb (String.eqb tok "") && negb (String.eqb ig "")
      then exists k tail ids,
             (k <= List.length urls)%nat
             /\ snd run = after_calls (map (child_call W ig tok) (firstn k urls)
                                       ++ tail) s
             /\ children_answered W ig tok (tick s) (firstn (Nat.pred k) urls) ids
             /\ (List.length tail <= 2)%nat
             /\ (tail <> [] ->
                 exists all, children_answered W ig tok (tick s) urls all)
      else run = (Ok (false, "Facebook/Instagram credentials not configured"%string), s)
  | _, _ => run = (Ok (false, "Facebook/Instagram credentials not configured"%string), s)
  end.
Proof.
  cbv zeta. unfold facebook_graph.publish_carousel. cbv zeta.
  destruct (FACEBOOK_PAGE_ACCESS_TOKEN (settings W)) as [tok |];
    [| destruct (INSTAGRAM_USER_ID (settings W)); reflexivity].
  destruct (INSTAGRAM_USER_ID (settings W)) as [ig |]; [| reflexivity].
  cbn [truthy_str].
  destruct (negb (String.eqb tok "")); cbn [negb orb andb]; [| reflexivity].
  destruct (negb (String.eqb ig "")); cbn [negb]; [| reflexivity].
  unfold bind at 1.
  destruct (facebook_graph.create_children W tok ig urls [] s) as [rc s1] eqn:Ec.
  destruct (create_children_stops _ _ _ _ _ _ _ _ Ec) as (k & ids & Hk & Hs1 & Hans).
  assert (Hnone : forall r : result (bool * string),
    exists k tail ids,
      (k <= List.length urls)%nat
      /\ snd (r, s1)
         = after_calls (map (child_call W ig tok) (firstn k urls) ++ tail) s
      /\ children_answered W ig tok (tick s) (firstn (Nat.pred k) urls) ids
      /\ (List.length tail <= 2)%nat
      /\ (tail <> [] ->
          exists all, children_answered W ig tok (tick s) urls all)).
  { intros r. exists k, [], ids. rewrite app_nil_r.
    repeat split; auto. intros H; contradiction H; reflexivity. }
  destruct rc as [[early | child_ids] | e |]; try apply Hnone.
  clear Hnone Hs1 Hans Hk k ids.
  destruct (create_children_run _ _ _ _ _ _ _ _ Ec) as (k' & _ & Hs1 & Hids).
  destruct (Hids _ eq_refl) as (-> & new & _ & Hall).
  rewrite firstn_all in Hs1.
  exists (List.length urls). rewrite firstn_all.
  unfold facebook_graph._post, facebook_graph.post_to, bind, ask, ret, lift.
  run_cases; cbn [snd];
    match goal with
    | |- context [step_world ?c2 (step_world ?c1 s1) = _] => exists [c1; c2]
    | |- context [step_world ?c1 s1 = _] => exists [c1]
    | |- context [s1 = _] => exists []
    end;
    exists (firstn (Nat.pred (List.length urls)) new);
    (split; [lia |]);
    (split; [rewrite after_calls_app, <- Hs1; reflexivity |]);
    (split; [apply children_answered_firstn, Hall |]);
    (split; [cbn; lia |]); intros _; exists new; exact Hall.
Qed.

(* ------------------------------------------------------------------ *)
(** ** Code that comes to an end *)

Create HintDb converges.

Lemma converges_ret {A} (a : A) : converges (ret a).
Proof. intros s; discriminate. Qed.

Lemma converges_raise {A} e : converges (@raise A e).
Proof. intros s; discriminate. Qed.

Lemma converges_lift {A} (r : result A) : r <> Diverge -> converges (lift r).
Proof. intros H s; exact H. Qed.

Lemma converges_ask {A} c (f : nat -> reply A) : converges (ask c f).
Proof. intros s. unfold ask. destruct (f (tick s)); discriminate. Qed.

Lemma converges_ask_exn c f : converges (ask_exn c f).
Proof. apply converges_ask. Qed.

Lemma converges_ask_fault c f : converges (ask_fault c f).
Proof. apply converges_ask. Qed.

Lemma converges_ask_pure {A} c (f : nat -> A) : converges (ask_pure c f).
Proof. apply converges_ask. Qed.

Lemma converges_logger ev : converges (logger ev).
Proof. intros s; discriminate. Qed.

Lemma converges_get_db : converges get_db.
Proof. intros s; discriminate. Qed.

Lemma converges_put_db d : converges (put_db d).
Proof. intros s; discriminate. Qed.

Lemma converges_fresh_id : converges fresh_id.
Proof. intros s; discriminate. Qed.

Lemma converges_bind {A B} (m : M A) (k : A -> M B) :
  converges m -> (forall a, converges (k a)) -> converges (bind m k).
Proof.
  intros Hm Hk s. unfold bind. specialize (Hm s).
  destruct (m s) as [[a | e |] s1]; cbn [fst] in *;
    [apply Hk | discriminate | congruence].
Qed.

Lemma converges_try_except {A} (m : M A) (h : exn -> M A) :
  converges m -> (forall e, converges (h e)) -> converges (try_except m h).
Proof.
  intros Hm Hh s. unfold try_except. specialize (Hm s).
  destruct (m s) as [[a | e |] s1]; cbn [fst] in *;
    [discriminate | apply Hh | congruence].
Qed.

Lemma converges_try_except_HttpError {A} (m : M A) (h : Z -> string -> M A) :
  converges m -> (forall st msg, converges (h st msg)) ->
  converges (try_except_HttpError m h).
Proof.
  intros Hm Hh s. unfold try_except_HttpError. specialize (Hm s).
  destruct (m s) as [[a | [st msg | |] |] s1]; cbn [fst] in *;
    try discriminate; [apply Hh | congruence].
Qed.

Lemma converges_fold_m {A B} (body : B -> A -> M B) (l : list A) :
  (forall acc x, converges (body acc x)) ->
  forall acc, converges (fold_m l acc body).
Proof.
  intros Hb. induction l as [| x l IH]; intros acc; cbn [fold_m].
  - apply converges_ret.
  - apply converges_bind; [apply Hb | exact IH].
Qed.

Lemma converges_for_each {A} (body : A -> M unit) (l : list A) :
  (forall x, converges (body x)) -> converges (for_each l body).
Proof.
  intros Hb. induction l as [| x l IH]; cbn [for_each].
  - apply converges_ret.
  - apply converges_bind; [apply Hb | intros _; exact IH].
Qed.

Lemma returns_try_except {A} (m : M A) (h : exn -> M A) :
  converges m -> (forall e, returns (h e)) -> returns (try_except m h).
Proof.
  intros Hm Hh s. unfold try_except. specialize (Hm s).
  destruct (m s) as [[a | e |] s1]; cbn [fst] in *;
    [exists a; reflexivity | apply Hh | congruence].
Qed.

Lemma py_get_ends j k : facebook_graph.py_get j k <> Diverge.
Proof. destruct j; discriminate. Qed.

Lemma join_ids_ends l : facebook_graph.join_ids l <> Diverge.
Proof.
  unfold facebook_graph.join_ids. destruct (facebook_graph.strs_of l); discriminate.
Qed.

Lemma ScheduleResponse_init_ends msg fid eid sent st :
  ScheduleResponse_init msg fid eid sent st <> Diverge.
Proof. destruct fid, eid; discriminate. Qed.

Lemma rbind_ends {A B} (r : result A) (k : A -> result B) :
  r <> Diverge -> (forall a, k a <> Diverge) -> pyfloat.rbind r k <> Diverge.
Proof. intros Hr Hk. destruct r; cbn; [apply Hk | discriminate | congruence]. Qed.

Lemma truediv_ends a b : pyfloat.truediv a b <> Diverge.
Proof. unfold pyfloat.truediv. destruct (PrimFloat.eqb b 0); discriminate. Qed.

Lemma to_int_ends x : pyfloat.to_int x <> Diverge.
Proof. unfold pyfloat.to_int. destruct (Prim2SF x); discriminate. Qed.

Lemma round_ends x : pyfloat.round x <> Diverge.
Proof. unfold pyfloat.round. destruct (Prim2SF x); discriminate. Qed.

Lemma resize_ends w h : resize w h <> Diverge.
Proof. unfold resize. destruct (_ || _); discriminate. Qed.

Lemma resize_width_ends w r : resize_width w r <> Diverge.
Proof.
  unfold resize_width.
  repeat first [ apply truediv_ends | apply to_int_ends | apply resize_ends
               | apply rbind_ends; [| intros]
               | match goal with
                 | |- (let '(_, _) := ?p in _) <> _ => destruct p
                 end
               | discriminate ].
Qed.

Lemma prepare_geometry_ends w h : prepare_geometry w h <> Diverge.
Proof.
  unfold prepare_geometry.
  repeat first [ apply truediv_ends | apply round_ends | apply resize_width_ends
               | apply rbind_ends; [| intros]
               | match goal with
                 | |- (let '(_, _) := ?p in _) <> _ => destruct p
                 | |- (if ?b then _ else _) <> _ => destruct b
                 end
               | discriminate ].
Qed.

#[local] Hint Resolve py_get_ends join_ids_ends ScheduleResponse_init_ends
  prepare_geometry_ends : converges.

Lemma converges_encode_loop W k dims : converges (encode_loop W (6 + k) dims 95).
Proof. intros s. apply (settles_from_95 W dims k s). Qed.

#[local] Hint Resolve converges_encode_loop converges_get_db converges_put_db
  converges_fresh_id : converges.

(** Steps through a definition that has no loop of its own. *)
Ltac converge :=
  repeat first
    [ solve [auto with converges]
    | apply converges_ret | apply converges_raise
    | apply converges_lift; solve [auto with converges]
    | apply converges_ask_exn | apply converges_ask_fault
    | apply converges_ask_pure | apply converges_ask
    | apply converges_logger
    | apply converges_bind; [| intros]
    | apply converges_try_except_HttpError; [| intros]
    | apply converges_try_except; [| intros]
    | apply converges_fold_m; intros
    | apply converges_for_each; intros
    | match goal with
      | |- converges (match ?x with _ => _ end) => destruct x
      | |- converges (if ?b then _ else _) => destruct b
      | |- converges (let '(_, _) := ?p in _) => destruct p
      end ].

Lemma converges_execute_query W what : converges (crud.execute_query W what).
Proof. unfold crud.execute_query. converge. Qed.
#[local] Hint Resolve converges_execute_query : converges.

Lemma converges_update_post_status W j st :
  converges (crud.update_post_status W j st).
Proof. unfold crud.update_post_status. converge. Qed.

Lemma converges_add_scheduled_post W pt cap sched folder event media :
  converges (crud.add_scheduled_post W pt cap sched folder event media).
Proof. unfold crud.add_scheduled_post. converge. Qed.

Lemma converges_post_to W u d : converges (facebook_graph.post_to W u d).
Proof. unfold facebook_graph.post_to. converge. Qed.
#[local] Hint Resolve converges_update_post_status converges_add_scheduled_post
  converges_post_to : converges.

Lemma converges_publish_photo W u cap : converges (facebook_graph.publish_photo W u cap).
Proof.
  unfold facebook_graph.publish_photo, facebook_graph._post. converge.
Qed.

Lemma converges_publish_video W u cap : converges (facebook_graph.publish_video W u cap).
Proof.
  unfold facebook_graph.publish_video, facebook_graph._video_post,
    facebook_graph._post. converge.
Qed.

Lemma converges_create_children W tok ig urls :
  forall acc, converges (facebook_graph.create_children W tok ig urls acc).
Proof.
  induction urls as [| u urls IH]; intros acc;
    cbn [facebook_graph.create_children]; unfold facebook_graph._post; converge.
Qed.
#[local] Hint Resolve converges_create_children : converges.

Lemma converges_publish_carousel W urls cap :
  converges (facebook_graph.publish_carousel W urls cap).
Proof.
  unfold facebook_graph.publish_carousel, facebook_graph._post. converge.
Qed.
#[local] Hint Resolve converges_publish_photo converges_publish_video
  converges_publish_carousel : converges.

Lemma converges_get_google_creds W : converges (google_drive.get_google_creds W).
Proof. unfold google_drive.get_google_creds. converge. Qed.

Lemma converges_build W api : converges (google_drive.build W api).
Proof. unfold google_drive.build. converge. Qed.

Lemma converges_files_create W r : converges (google_drive.files_create W r).
Proof. unfold google_drive.files_create. converge. Qed.

Lemma converges_files_delete W f : converges (google_drive.files_delete W f).
Proof. unfold google_drive.files_delete. converge. Qed.

Lemma converges_requests_get_ok W u : converges (google_drive.requests_get_ok W u).
Proof. unfold google_drive.requests_get_ok. converge. Qed.
#[local] Hint Resolve converges_get_google_creds converges_build
  converges_files_create converges_files_delete converges_requests_get_ok
  : converges.

Lemma converges_root_folder W :
  converges (google_drive.create_social_media_root_folder W).
Proof. unfold google_drive.create_social_media_root_folder. converge. Qed.

Lemma converges_upload_one W fid acc p : converges (google_drive.upload_one W fid acc p).
Proof.
  unfold google_drive.upload_one, google_drive.upload_url,
    google_drive.upload_local. destruct acc. converge.
Qed.

Lemma converges_finish_upload W fid u m :
  converges (google_drive.finish_upload W fid u m).
Proof. unfold google_drive.finish_upload. converge. Qed.
#[local] Hint Resolve converges_root_folder converges_upload_one
  converges_finish_upload : converges.

Lemma converges_upload_files_to_drive W paths cap pt :
  converges (google_drive.upload_files_to_drive W paths cap pt).
Proof. unfold google_drive.upload_files_to_drive. converge. Qed.

Lemma converges_delete_drive_folder W fid :
  converges (google_drive.delete_drive_folder W fid).
Proof. unfold google_drive.delete_drive_folder. converge. Qed.

Lemma converges_get_public_download_url W fid :
  converges (google_drive.get_public_download_url W fid).
Proof. unfold google_drive.get_public_download_url. converge. Qed.

Lemma converges_download_file_bytes W fid :
  converges (google_drive.download_file_bytes W fid).
Proof. unfold google_drive.download_file_bytes. converge. Qed.
#[local] Hint Resolve converges_upload_files_to_drive converges_delete_drive_folder
  converges_get_public_download_url converges_download_file_bytes : converges.

Lemma converges_create_calendar_event W t c f pt tz :
  converges (google_calender.create_calendar_event W t c f pt tz).
Proof. unfold google_calender.create_calendar_event. converge. Qed.
#[local] Hint Resolve converges_create_calendar_event : converges.

Lemma converges_validate_and_prepare_image W k u b :
  converges (validate_and_prepare_image W (6 + k) u b).
Proof. unfold validate_and_prepare_image. converge. Qed.
#[local] Hint Resolve converges_validate_and_prepare_image : converges.

Lemma converges_prepare_media W k post idx m urls :
  converges (prepare_media W (6 + k) post idx m urls).
Proof. unfold prepare_media, prepare_from_drive. converge. Qed.
#[local] Hint Resolve converges_prepare_media : converges.

Lemma converges_prepare_all W k post media :
  forall idx urls, converges (prepare_all W (6 + k) post idx media urls).
Proof.
  induction media as [| m media IH]; intros idx urls; cbn [prepare_all]; converge.
Qed.
#[local] Hint Resolve converges_prepare_all : converges.

Lemma converges_trigger_one W k post : converges (trigger_one W (6 + k) post).
Proof. unfold trigger_one. converge. Qed.

Lemma returns_trigger_each W k post : returns (trigger_each W (6 + k) post).
Proof.
  unfold trigger_each. apply returns_try_except.
  - apply converges_trigger_one.
  - intros e s. exists tt. reflexivity.
Qed.

(* ------------------------------------------------------------------ *)
(** ** Code that only appends to the log *)

Create HintDb grows.

Lemma log_grows_same {A} (m : M A) :
  (forall s, log (snd (m s)) = log s) -> log_grows m.
Proof. intros H s. exists []. rewrite app_nil_r. apply H. Qed.

Lemma log_grows_ret {A} (a : A) : log_grows (ret a).
Proof. apply log_grows_same; reflexivity. Qed.

Lemma log_grows_raise {A} e : log_grows (@raise A e).
Proof. apply log_grows_same; reflexivity. Qed.

Lemma log_grows_diverge {A} : log_grows (@diverge A).
Proof. apply log_grows_same; reflexivity. Qed.

Lemma log_grows_lift {A} (r : result A) : log_grows (lift r).
Proof. apply log_grows_same; reflexivity. Qed.

Lemma log_grows_get_db : log_grows get_db.
Proof. apply log_grows_same; reflexivity. Qed.

Lemma log_grows_put_db d : log_grows (put_db d).
Proof. apply log_grows_same; reflexivity. Qed.

Lemma log_grows_fresh_id : log_grows fresh_id.
Proof. apply log_grows_same; reflexivity. Qed.

Lemma log_grows_logger ev : log_grows (logger ev).
Proof. intros s. exists [ev]. reflexivity. Qed.

Lemma log_grows_ask {A} c (f : nat -> reply A) : log_grows (ask c f).
Proof.
  apply log_grows_same. intros s. unfold ask.
  destruct (f (tick s)); reflexivity.
Qed.

Lemma log_grows_ask_exn c f : log_grows (ask_exn c f).
Proof. apply log_grows_ask. Qed.

Lemma log_grows_ask_fault c f : log_grows (ask_fault c f).
Proof. apply log_grows_ask. Qed.

Lemma log_grows_ask_pure {A} c (f : nat -> A) : log_grows (ask_pure c f).
Proof. apply log_grows_ask. Qed.

Lemma log_grows_bind {A B} (m : M A) (k : A -> M B) :
  log_grows m -> (forall a, log_grows (k a)) -> log_grows (bind m k).
Proof.
  intros Hm Hk s. unfold bind. destruct (Hm s) as (n1 & H1).
  destruct (m s) as [[a | e |] s1]; cbn [snd] in *; eauto.
  destruct (Hk a s1) as (n2 & H2).
  exists (n1 ++ n2). rewrite H2, H1, app_assoc. reflexivity.
Qed.

Lemma log_grows_try_except {A} (m : M A) (h : exn -> M A) :
  log_grows m -> (forall e, log_grows (h e)) -> log_grows (try_except m h).
Proof.
  intros Hm Hh s. unfold try_except. destruct (Hm s) as (n1 & H1).
  destruct (m s) as [[a | e |] s1]; cbn [snd] in *; eauto.
  destruct (Hh e s1) as (n2 & H2).
  exists (n1 ++ n2). rewrite H2, H1, app_assoc. reflexivity.
Qed.

Lemma log_grows_fold_m {A B} (body : B -> A -> M B) (l : list A) :
  (forall acc x, log_grows (body acc x)) ->
  forall acc, log_grows (fold_m l acc body).
Proof.
  intros Hb. induction l as [| x l IH]; intros acc; cbn [fold_m].
  - apply log_grows_ret.
  - apply log_grows_bind; [apply Hb | exact IH].
Qed.

#[local] Hint Resolve log_grows_get_db log_grows_put_db log_grows_fresh_id
  : grows.

(** Steps through a definition, which has no other access to the log than
    [logger]. *)
Ltac grow :=
  repeat first
    [ solve [auto with grows]
    | apply log_grows_ret | apply log_grows_raise | apply log_grows_diverge
    | apply log_grows_lift | apply log_grows_logger
    | apply log_grows_ask_exn | apply log_grows_ask_fault
    | apply log_grows_ask_pure | apply log_grows_ask
    | apply log_grows_bind; [| intros]
    | apply log_grows_try_except; [| intros]
    | apply log_grows_fold_m; intros
    | match goal with
      | |- log_grows (match ?x with _ => _ end) => destruct x
      | |- log_grows (if ?b then _ else _) => destruct b
      | |- log_grows (let '(_, _) := ?p in _) => destruct p
      end ].

Lemma log_grows_update_post_status W j st :
  log_grows (crud.update_post_status W j st).
Proof. unfold crud.update_post_status, crud.execute_query. grow. Qed.

Lemma log_grows_create_children W tok ig urls :
  forall acc, log_grows (facebook_graph.create_children W tok ig urls acc).
Proof.
  induction urls as [| u urls IH]; intros acc;
    cbn [facebook_graph.create_children];
    unfold facebook_graph._post, facebook_graph.post_to; grow.
Qed.
#[local] Hint Resolve log_grows_update_post_status log_grows_create_children
  : grows.

Lemma log_grows_publish_photo W u cap :
  log_grows (facebook_graph.publish_photo W u cap).
Proof.
  unfold facebook_graph.publish_photo, facebook_graph._post,
    facebook_graph.post_to. grow.
Qed.

Lemma log_grows_publish_video W u cap :
  log_grows (facebook_graph.publish_video W u cap).
Proof.
  unfold facebook_graph.publish_video, facebook_graph._video_post,
    facebook_graph._post, facebook_graph.post_to. grow.
Qed.

Lemma log_grows_publish_carousel W urls cap :
  log_grows (facebook_graph.publish_carousel W urls cap).
Proof.
  unfold facebook_graph.publish_carousel, facebook_graph._post,
    facebook_graph.post_to. grow.
Qed.
#[local] Hint Resolve log_grows_publish_photo log_grows_publish_video
  log_grows_publish_carousel : grows.

Lemma log_grows_encode_loop W fuel :
  forall dims q, log_grows (encode_loop W fuel dims q).
Proof.
  induction fuel as [| fuel IH]; intros dims q; cbn [encode_loop]; grow.
Qed.
#[local] Hint Resolve log_grows_encode_loop : grows.

Lemma log_grows_prepare_media W fuel post idx m urls :
  log_grows (prepare_media W fuel post idx m urls).
Proof.
  unfold prepare_media, prepare_from_drive, validate_and_prepare_image,
    google_drive.download_file_bytes, google_drive.get_public_download_url,
    google_drive.files_create, google_drive.get_google_creds,
    google_drive.build.
  grow.
Qed.
#[local] Hint Resolve log_grows_prepare_media : grows.

Lemma log_grows_prepare_all W fuel post media :
  forall idx urls, log_grows (prepare_all W fuel post idx media urls).
Proof.
  induction media as [| m media IH]; intros idx urls; cbn [prepare_all]; grow.
Qed.
#[local] Hint Resolve log_grows_prepare_all : grows.

(* ------------------------------------------------------------------ *)
(** ** The trigger job: every selected post is handled *)

Lemma closing_raise p {A} e : closing p (@raise A e).
Proof.
  intros s. exists []. rewrite app_nil_r. split; [reflexivity | discriminate].
Qed.

Lemma closing_logger p ev : closes p ev -> closing p (logger ev).
Proof.
  intros H s. exists [ev]. split; [reflexivity |]. intros _ _.
  constructor. exact H.
Qed.

(** The closing line is written after [m]. *)
Lemma closing_after p {A B} (m : M A) (k : A -> M B) :
  log_grows m -> (forall a, closing p (k a)) -> closing p (bind m k).
Proof.
  intros Hm Hk s. unfold bind. destruct (Hm s) as (n1 & H1).
  destruct (m s) as [[a | e |] s1]; cbn [fst snd] in *;
    [| exists n1; split; [exact H1 | discriminate] ..].
  destruct (Hk a s1) as (n2 & H2 & Hc).
  exists (n1 ++ n2). split; [rewrite H2, H1, app_assoc; reflexivity |].
  intros b Hb. apply Exists_app. right. eapply Hc, Hb.
Qed.

(** The closing line is written by [m]. *)
Lemma closing_before p {A B} (m : M A) (k : A -> M B) :
  closing p m -> (forall a, log_grows (k a)) -> closing p (bind m k).
Proof.
  intros Hm Hk s. unfold bind. destruct (Hm s) as (n1 & H1 & Hc).
  destruct (m s) as [[a | e |] s1]; cbn [fst snd] in *;
    [| exists n1; split; [exact H1 | discriminate] ..].
  destruct (Hk a s1) as (n2 & H2).
  exists (n1 ++ n2). split; [rewrite H2, H1, app_assoc; reflexivity |].
  intros b _. apply Exists_app. left. eapply Hc. reflexivity.
Qed.

(** What follows a publish call closes the post. *)
Lemma closing_outcome W p (outcome : bool * string) :
  closing p
    (let '(published, status_msg) := outcome in
     if published : bool
     then logger (LogPublished (id p) status_msg) ;;
          crud.update_post_status W (id p) "triggered"
     else logger (LogPublishFailed (id p) status_msg)).
Proof.
  destruct outcome as [[|] msg].
  - apply closing_before; [| intros; apply log_grows_update_post_status].
    apply closing_logger. unfold closes. eauto 6.
  - apply closing_logger. unfold closes. eauto 6.
Qed.

Lemma closing_published W p (publish : M (bool * string)) :
  log_grows publish ->
  closing p
    (outcome <- (r <- publish ;; ret (Some r)) ;;
     match outcome with
     | None => ret tt
     | Some (published, status_msg) =>
         if published : bool
         then logger (LogPublished (id p) status_msg) ;;
              crud.update_post_status W (id p) "triggered"
         else logger (LogPublishFailed (id p) status_msg)
     end).
Proof.
  intros Hp s. rewrite bind_assoc.
  apply (closing_after p publish); [exact Hp |].
  intros r. apply (closing_outcome W p r).
Qed.

Lemma trigger_one_closing W fuel p : closing p (trigger_one W fuel p).
Proof.
  unfold trigger_one.
  destruct (media_paths p) as [media |]; [| apply closing_raise].
  apply closing_after; [apply log_grows_prepare_all |].
  intros [| first rest].
  - apply closing_logger. left. reflexivity.
  - cbv zeta.
    destruct (String.eqb (post_type p) "static");
      [apply closing_published, log_grows_publish_photo |].
    destruct (startswith (post_type p) "carousel"
              || String.eqb (post_type p) "carousel");
      [apply closing_published, log_grows_publish_carousel |].
    destruct (String.eqb (post_type p) "video");
      [apply closing_published, log_grows_publish_video |].
    apply closing_before; [| intros []; grow].
    apply closing_before; [| intros; grow].
    apply closing_logger. right. left. reflexivity.
Qed.

(** One iteration of the trigger loop returns and leaves a closing line. *)
Lemma trigger_each_handles W k p s :
  exists seg,
    fst (trigger_each W (6 + k) p s) = Ok tt
    /\ log (snd (trigger_each W (6 + k) p s)) = log s ++ seg
    /\ Exists (closes p) seg.
Proof.
  unfold trigger_each, try_except.
  destruct (trigger_one_closing W (6 + k) p s) as (n & Hn & Hc).
  pose proof (converges_trigger_one W k p s) as Hend.
  destruct (trigger_one W (6 + k) p s) as [[[] | e |] s1]; cbn [fst snd] in *.
  - exists n. split; [reflexivity |]. split; [exact Hn |]. eapply Hc. reflexivity.
  - exists (n ++ [LogTriggerError (id p) e]).
    unfold logger. cbn [fst snd log].
    split; [reflexivity |]. split; [rewrite Hn, app_assoc; reflexivity |].
    apply Exists_app. right. constructor. unfold closes. eauto 7.
  - congruence.
Qed.

Lemma trigger_loop_handles W k posts :
  forall s,
    exists segs,
      fst (for_each posts (trigger_each W (6 + k)) s) = Ok tt
      /\ log (snd (for_each posts (trigger_each W (6 + k)) s))
         = log s ++ List.concat segs
      /\ Forall2 (fun p seg => Exists (closes p) seg) posts segs.
Proof.
  induction posts as [| p posts IH]; intros s; cbn [for_each].
  - exists []. cbn. rewrite app_nil_r. auto.
  - unfold bind. destruct (trigger_each_handles W k p s) as (seg & E & Hl & Hc).
    destruct (trigger_each W (6 + k) p s) as [r s1]. cbn [fst snd] in *.
    subst r. destruct (IH s1) as (segs & E' & Hl' & Hall).
    exists (seg :: segs). split; [exact E' |].
    split; [rewrite Hl', Hl; cbn [List.concat]; rewrite app_assoc; reflexivity |].
    constructor; assumption.
Qed.

(** X9: with fuel for six encodings per image, a trigger pass comes to
    an end, and once its SELECT has succeeded it returns normally whatever
    Drive, R2, the encoder, the Graph API and the database do afterwards.  It
    logs the number of selected posts and then handles every selected post,
    in the order of the selection: the lines it adds to the log fall into one
    segment per post, each holding a line that closes this post (no valid
    URLs, unsupported post type, published, publish failed, or the error
    that ended its handling).  So an error on one post is logged and the loop
    goes on to the next.  Only a failure of the SELECT itself is raised to
    the scheduler. *)
Theorem check_and_trigger_posts_isolates_failures
    (W : World) (k : nat) (s : state) :
  let run := check_and_trigger_posts W (6 + k) s in
  let posts := crud.select_to_trigger (clock W (tick s)) (db s) in
  match db_fault W (S (tick s)) with
  | None =>
      fst run = Ok tt
      /\ exists segs,
           log (snd run)
           = log s ++ LogFoundToTrigger (List.length posts) :: List.concat segs
           /\ Forall2 (fun p seg => Exists (closes p) seg) posts segs
  | Some (kind, msg) =>
      run = (Raise (PyError kind msg),
             step_world (CallQuery "SELECT to trigger") (step_world CallNow s))
  end.
Proof.
  cbv zeta.
  set (posts := crud.select_to_trigger (clock W (tick s)) (db s)).
  remember (check_and_trigger_posts W (6 + k) s) as run eqn:Erun.
  unfold check_and_trigger_posts in Erun. unfold bind at 1 in Erun.
  rewrite find_posts_to_trigger_run in Erun. fold posts in Erun.
  destruct (db_fault W (S (tick s))) as [[kind msg] |]; [exact Erun |].
  unfold bind, logger in Erun.
  match type of Erun with
  | context [for_each posts _ ?s1] =>
      destruct (trigger_loop_handles W k posts s1) as (segs & E & Hl & Hall);
      destruct (for_each posts (trigger_each W (6 + k)) s1) as [r s2]
  end.
  cbn [fst snd log step_world] in *. subst r run. cbn [fst snd].
  split; [reflexivity |].
  exists segs. split; [| exact Hall].
  rewrite Hl, <- app_assoc. reflexivity.
Qed.

(* ------------------------------------------------------------------ *)
(** ** The scheduling request *)

Lemma add_scheduled_post_run (W : World) pt cap sched folder event media s :
  let run := crud.add_scheduled_post W pt cap sched folder event media s in
  (fst run = Ok tt
   /\ exists t created,
        pg_timestamp W sched = Some t
        /\ db (snd run)
           = db s ++ [mkPost (next_id s) pt cap t folder event "scheduled"
                             (match media with [] => None | _ => Some media end)
                             created]
        /\ next_id (snd run) = next_id s + 1)
  \/ ((exists e, fst run = Raise e)
      /\ db (snd run) = db s /\ next_id (snd run) = next_id s).
Proof.
  cbv zeta. unfold crud.add_scheduled_post, crud.execute_query, bind, ask,
    fresh_id, get_db, put_db, raise.
  destruct (db_fault W (tick s)) as [[k m] |].
  - right. cbn [fst snd db next_id step_world]. eauto.
  - destruct (pg_timestamp W sched) as [t |].
    + left. cbn [fst snd db next_id step_world]. split; [reflexivity |].
      eexists _, _. repeat split; reflexivity.
    + right. cbn [fst snd db next_id step_world]. eauto.
Qed.

Lemma schedule_upload_step (W : World) (req : ScheduleRequest) (s : state) :
  exists fid um ok s1,
    try_except
      ('(f, um) <- google_drive.upload_files_to_drive W
                     (selected_media req) (selected_caption req)
                     (Some (req_post_type req)) ;;
       ret (f, Some um, truthy_str f))
      (fun drive_e =>
         logger (LogDriveUploadError (str_exn drive_e)) ;;
         ret (None, None, false)) s
    = (Ok (fid, um, ok), s1)
    /\ db s1 = db s /\ next_id s1 = next_id s
    /\ ok = truthy_str fid.
Proof.
  pose proof (silent_upload_files_to_drive W (selected_media req)
                (selected_caption req) (Some (req_post_type req)) s)
    as (Hd & Hn & _).
  pose proof (converges_upload_files_to_drive W (selected_media req)
                (selected_caption req) (Some (req_post_type req)) s) as Hc.
  unfold try_except, bind, logger, ret.
  destruct (google_drive.upload_files_to_drive W _ _ _ s)
    as [[[f um] | e |] s1]; cbn [fst snd] in *.
  - exists f, (Some um), (truthy_str f), s1. auto.
  - eexists None, None, false, _. cbn [db next_id]. auto.
  - congruence.
Qed.

Lemma schedule_calendar_step (W : World) (req : ScheduleRequest)
    (ok : bool) (fid : option string) (s : state) :
  exists eid s1,
    (if ok && truthy_str fid
     then try_except
            (google_calender.create_calendar_event W
               (req_scheduled_time req) (selected_caption req) fid
               (req_post_type req) (timezone req))
            (fun cal_e =>
               logger (LogCalendarError (str_exn cal_e)) ;; ret None)
     else ret None) s
    = (Ok eid, s1)
    /\ db s1 = db s /\ next_id s1 = next_id s
    /\ (ok && truthy_str fid = false -> eid = None).
Proof.
  destruct (ok && truthy_str fid).
  - pose proof (silent_create_calendar_event W (req_scheduled_time req)
                  (selected_caption req) fid (req_post_type req)
                  (timezone req) s) as (Hd & Hn & _).
    pose proof (converges_create_calendar_event W (req_scheduled_time req)
                  (selected_caption req) fid (req_post_type req)
                  (timezone req) s) as Hc.
    unfold try_except, bind, logger, ret.
    destruct (google_calender.create_calendar_event W _ _ _ _ _ s)
      as [[eid | e |] s1]; cbn [fst snd] in *.
    + exists eid, s1. repeat split; auto. discriminate.
    + eexists None, _. cbn [db next_id]. repeat split; auto.
    + congruence.
  - exists None, s. auto.
Qed.

(** X10: schedule_post either answers with a response or raises
    HTTPException 500 whose detail starts with 'Scheduling failed: '; it
    raises nothing else.  When it answers, it has appended exactly one row,
    'scheduled', with the next id of the table and the request's type and
    caption, whose folder id is the non-empty folder id of the response: the
    upload and the calendar call both succeeded.  When it raises, the table
    is either unchanged or holds one more such row: the request failed and
    the post may be stored all the same. *)
Theorem schedule_post_outcome (W : World) (req : ScheduleRequest) (s : state) :
  let run := schedular.schedule_post W req s in
  (exists resp row,
      fst run = Ok resp
      /\ db (snd run) = db s ++ [row]
      /\ next_id (snd run) = next_id s + 1
      /\ stored_by W req s row
      /\ google_drive_folder_id row = Some (folder_id resp)
      /\ folder_id resp <> ""%string
      /\ webhook_sent resp = false)
  \/ (exists detail,
        fst run = Raise (HTTPException 500 ("Scheduling failed: " ++ detail))
        /\ ((db (snd run) = db s /\ next_id (snd run) = next_id s)
            \/ exists row, db (snd run) = db s ++ [row]
                           /\ next_id (snd run) = next_id s + 1
                           /\ stored_by W req s row)).
Proof.
  cbv zeta. remember (schedular.schedule_post W req s) as run eqn:Erun.
  unfold schedular.schedule_post in Erun.
  unfold try_except at 1 in Erun. unfold bind at 1 in Erun.
  destruct (schedule_upload_step W req s)
    as (fid & um & ok & s1 & E1 & Hd1 & Hn1 & Hok).
  rewrite E1 in Erun. unfold bind at 1 in Erun.
  destruct (schedule_calendar_step W req ok fid s1)
    as (eid & s2 & E2 & Hd2 & Hn2 & Heid).
  rewrite E2 in Erun.
  unfold bind at 1 in Erun. unfold try_except at 1 in Erun.
  match type of Erun with
  | context [crud.add_scheduled_post W ?pt ?cap ?sched ?folder ?event ?media s2] =>
      pose proof (add_scheduled_post_run W pt cap sched folder event media s2)
        as Hadd;
      destruct (crud.add_scheduled_post W pt cap sched folder event media s2)
        as [radd s3] eqn:Eadd
  end.
  cbv zeta in Hadd. cbn [fst snd] in Hadd.
  destruct Hadd as [(-> & t & created & Hpg & Hdb & Hn3)
                   | ((e & ->) & Hdb & Hn3)].
  - (* the row is stored *)
    assert (Hrow : exists row, db s3 = db s ++ [row]
                               /\ next_id s3 = next_id s + 1
                               /\ stored_by W req s row
                               /\ (truthy_str fid = true ->
                                   google_drive_folder_id row = fid)).
    { eexists. rewrite Hdb, Hd2, Hd1. split; [reflexivity |].
      split; [lia |]. split.
      - unfold stored_by. cbn [id status post_type caption scheduled_time].
        repeat split; auto. lia.
      - intros Hf. cbn [google_drive_folder_id]. rewrite Hf. reflexivity. }
    clear Hdb Eadd.
    destruct Hrow as (row & Hrdb & Hrn & Hst & Hfolder).
    unfold lift in Erun.
    destruct fid as [f |], eid as [ev |]; cbn [ScheduleResponse_init] in Erun.
    + destruct (truthy_str (Some f)) eqn:Hf.
      * left. subst run. eexists _, row. cbn [fst snd folder_id webhook_sent].
        split; [reflexivity |]. split; [exact Hrdb |]. split; [exact Hrn |].
        split; [exact Hst |]. split; [apply Hfolder; reflexivity |].
        split; [apply truthy_str_Some, Hf | reflexivity].
      * rewrite Hok in Heid. cbn [andb] in Heid. discriminate (Heid eq_refl).
    + right. unfold bind, logger, raise in Erun. subst run.
      cbn [fst snd db next_id str_exn].
      eexists. split; [reflexivity |]. right. exists row. auto.
    + right. unfold bind, logger, raise in Erun. subst run.
      cbn [fst snd db next_id str_exn].
      eexists. split; [reflexivity |]. right. exists row. auto.
    + right. unfold bind, logger, raise in Erun. subst run.
      cbn [fst snd db next_id str_exn].
      eexists. split; [reflexivity |]. right. exists row. auto.
  - (* the insert failed *)
    right. unfold bind, logger, raise in Erun. subst run.
    cbn [fst snd db next_id str_exn].
    eexists. split; [reflexivity |]. left. split; congruence.
Qed.

(* ------------------------------------------------------------------ *)
(** ** The external calls a piece of code may make *)

Create HintDb footprint.

Lemma only_calls_none (P : call -> bool) {A} (m : M A) :
  (forall s, calls (snd (m s)) = calls s) -> only_calls P m.
Proof.
  intros H s. exists []. rewrite app_nil_r. split; [apply H | reflexivity].
Qed.

Lemma only_calls_ret P {A} (a : A) : only_calls P (ret a).
Proof. apply only_calls_none; reflexivity. Qed.

Lemma only_calls_raise P {A} e : only_calls P (@raise A e).
Proof. apply only_calls_none; reflexivity. Qed.

Lemma only_calls_diverge P {A} : only_calls P (@diverge A).
Proof. apply only_calls_none; reflexivity. Qed.

Lemma only_calls_lift P {A} (r : result A) : only_calls P (lift r).
Proof. apply only_calls_none; reflexivity. Qed.

Lemma only_calls_logger P ev : only_calls P (logger ev).
Proof. apply only_calls_none; reflexivity. Qed.

Lemma only_calls_get_db P : only_calls P get_db.
Proof. apply only_calls_none; reflexivity. Qed.

Lemma only_calls_put_db P d : only_calls P (put_db d).
Proof. apply only_calls_none; reflexivity. Qed.

Lemma only_calls_fresh_id P : only_calls P fresh_id.
Proof. apply only_calls_none; reflexivity. Qed.

Lemma only_calls_ask P {A} c (f : nat -> reply A) :
  P c = true -> only_calls P (ask c f).
Proof.
  intros Hc s. exists [c]. unfold ask.
  destruct (f (tick s)); cbn [snd step_world calls forallb]; rewrite Hc; auto.
Qed.

Lemma only_calls_ask_exn P c f : P c = true -> only_calls P (ask_exn c f).
Proof. apply only_calls_ask. Qed.

Lemma only_calls_ask_fault P c f : P c = true -> only_calls P (ask_fault c f).
Proof. apply only_calls_ask. Qed.

Lemma only_calls_ask_pure P {A} c (f : nat -> A) :
  P c = true -> only_calls P (ask_pure c f).
Proof. apply only_calls_ask. Qed.

Lemma only_calls_bind P {A B} (m : M A) (k : A -> M B) :
  only_calls P m -> (forall a, only_calls P (k a)) -> only_calls P (bind m k).
Proof.
  intros Hm Hk s. unfold bind. destruct (Hm s) as (cs & Hcs & Hall).
  destruct (m s) as [[a | e |] s1]; cbn [snd] in *; eauto.
  destruct (Hk a s1) as (cs' & Hcs' & Hall').
  exists (cs ++ cs'). rewrite Hcs', Hcs, app_assoc, forallb_app, Hall, Hall'.
  auto.
Qed.

Lemma only_calls_try_except P {A} (m : M A) (h : exn -> M A) :
  only_calls P m -> (forall e, only_calls P (h e)) ->
  only_calls P (try_except m h).
Proof.
  intros Hm Hh s. unfold try_except. destruct (Hm s) as (cs & Hcs & Hall).
  destruct (m s) as [[a | e |] s1]; cbn [snd] in *; eauto.
  destruct (Hh e s1) as (cs' & Hcs' & Hall').
  exists (cs ++ cs'). rewrite Hcs', Hcs, app_assoc, forallb_app, Hall, Hall'.
  auto.
Qed.

Lemma only_calls_try_except_HttpError P {A} (m : M A) (h : Z -> string -> M A) :
  only_calls P m -> (forall st msg, only_calls P (h st msg)) ->
  only_calls P (try_except_HttpError m h).
Proof.
  intros Hm Hh s. unfold try_except_HttpError.
  destruct (Hm s) as (cs & Hcs & Hall).
  destruct (m s) as [[a | [st msg | |] |] s1]; cbn [snd] in *; eauto.
  destruct (Hh st msg s1) as (cs' & Hcs' & Hall').
  exists (cs ++ cs'). rewrite Hcs', Hcs, app_assoc, forallb_app, Hall, Hall'.
  auto.
Qed.

Lemma only_calls_fold_m P {A B} (body : B -> A -> M B) (l : list A) :
  (forall acc x, only_calls P (body acc x)) ->
  forall acc, only_calls P (fold_m l acc body).
Proof.
  intros Hb. induction l as [| x l IH]; intros acc; cbn [fold_m].
  - apply only_calls_ret.
  - apply only_calls_bind; [apply Hb | exact IH].
Qed.

Lemma only_calls_for_each P {A} (body : A -> M unit) (l : list A) :
  (forall x, only_calls P (body x)) -> only_calls P (for_each l body).
Proof.
  intros Hb. induction l as [| x l IH]; cbn [for_each].
  - apply only_calls_ret.
  - apply only_calls_bind; [apply Hb | intros _; exact IH].
Qed.

Lemma only_calls_weaken (P Q : call -> bool) {A} (m : M A) :
  (forall c, P c = true -> Q c = true) -> only_calls P m -> only_calls Q m.
Proof.
  intros HPQ Hm s. destruct (Hm s) as (cs & Hcs & Hall).
  exists cs. split; [exact Hcs |].
  apply forallb_forall. intros c Hc. apply HPQ.
  apply (proj1 (forallb_forall P cs) Hall c Hc).
Qed.

#[local] Hint Resolve only_calls_get_db only_calls_put_db only_calls_fresh_id
  : footprint.

(** Steps through a definition, checking each call it makes. *)
Ltac footprint :=
  repeat first
    [ solve [auto with footprint]
    | apply only_calls_ret | apply only_calls_raise | apply only_calls_diverge
    | apply only_calls_lift | apply only_calls_logger
    | apply only_calls_ask_exn; reflexivity
    | apply only_calls_ask_fault; reflexivity
    | apply only_calls_ask_pure; reflexivity
    | apply only_calls_ask; reflexivity
    | apply only_calls_bind; [| intros]
    | apply only_calls_try_except_HttpError; [| intros]
    | apply only_calls_try_except; [| intros]
    | apply only_calls_fold_m; intros
    | apply only_calls_for_each; intros
    | match goal with
      | |- only_calls _ (match ?x with _ => _ end) => destruct x
      | |- only_calls _ (if ?b then _ else _) => destruct b
      | |- only_calls _ (let '(_, _) := ?p in _) => destruct p
      end ].

Lemma cleanup_footprint (W : World) :
  only_calls cleanup_call (check_and_delete_posts W).
Proof.
  unfold check_and_delete_posts, delete_one, crud.find_posts_for_deletion,
    crud.update_post_status, crud.execute_query,
    google_drive.delete_drive_folder, google_drive.get_google_creds,
    google_drive.build, google_drive.files_delete.
  footprint.
Qed.

Lemma notification_footprint (W : World) r :
  only_calls notification_call (google_calender.handle_calendar_notification W r).
Proof.
  unfold google_calender.handle_calendar_notification,
    crud.cancel_post_by_event_id, crud.execute_query,
    google_drive.get_google_creds, google_drive.build.
  footprint.
Qed.

Lemma encode_loop_footprint (W : World) fuel :
  forall dims q, only_calls trigger_call (encode_loop W fuel dims q).
Proof.
  induction fuel as [| fuel IH]; intros dims q; cbn [encode_loop]; footprint.
Qed.
#[local] Hint Resolve encode_loop_footprint : footprint.

Lemma create_children_footprint (W : World) tok ig urls :
  forall acc, only_calls trigger_call
                (facebook_graph.create_children W tok ig urls acc).
Proof.
  induction urls as [| u urls IH]; intros acc;
    cbn [facebook_graph.create_children];
    unfold facebook_graph._post, facebook_graph.post_to; footprint.
Qed.
#[local] Hint Resolve create_children_footprint : footprint.

Lemma prepare_media_footprint (W : World) fuel post idx m urls :
  only_calls trigger_call (prepare_media W fuel post idx m urls).
Proof.
  unfold prepare_media, prepare_from_drive, validate_and_prepare_image,
    google_drive.download_file_bytes, google_drive.get_public_download_url,
    google_drive.files_create, google_drive.get_google_creds,
    google_drive.build.
  footprint.
Qed.
#[local] Hint Resolve prepare_media_footprint : footprint.

Lemma prepare_all_footprint (W : World) fuel post media :
  forall idx urls, only_calls trigger_call (prepare_all W fuel post idx media urls).
Proof.
  induction media as [| m media IH]; intros idx urls; cbn [prepare_all]; footprint.
Qed.
#[local] Hint Resolve prepare_all_footprint : footprint.

Lemma trigger_footprint (W : World) fuel :
  only_calls trigger_call (check_and_trigger_posts W fuel).
Proof.
  unfold check_and_trigger_posts, trigger_each, trigger_one,
    crud.find_posts_to_trigger, crud.update_post_status, crud.execute_query,
    facebook_graph.publish_photo, facebook_graph.publish_video,
    facebook_graph.publish_carousel, facebook_graph._post,
    facebook_graph._video_post, facebook_graph.post_to.
  footprint.
Qed.

Lemma upload_one_footprint (W : World) fid acc p :
  only_calls schedule_call (google_drive.upload_one W fid acc p).
Proof.
  unfold google_drive.upload_one, google_drive.upload_url,
    google_drive.upload_local, google_drive.requests_get_ok,
    google_drive.files_create.
  destruct acc. footprint.
Qed.
#[local] Hint Resolve upload_one_footprint : footprint.

Lemma schedule_footprint (W : World) req :
  only_calls schedule_call (schedular.schedule_post W req).
Proof.
  unfold schedular.schedule_post, google_drive.upload_files_to_drive,
    google_drive.finish_upload, google_drive.create_social_media_root_folder,
    google_calender.create_calendar_event, crud.add_scheduled_post,
    crud.execute_query, google_drive.files_create, google_drive.files_delete,
    google_drive.get_google_creds, google_drive.build.
  footprint.
Qed.

(** X11: each entry point keeps to its own external calls, whatever
    they answer.  The cleanup job only reads the clock, queries the table and
    deletes from Drive; a calendar notification only looks the event up and
    queries the table; the trigger job never deletes from Drive, never lists
    it and never touches the calendar; a scheduling request never posts to
    the Graph API and never encodes an image: publishing is left to the
    trigger job. *)
Theorem entry_points_keep_to_their_calls (W : World) :
  only_calls cleanup_call (check_and_delete_posts W)
  /\ (forall r, only_calls notification_call
                  (google_calender.handle_calendar_notification W r))
  /\ (forall fuel, only_calls trigger_call (check_and_trigger_posts W fuel))
  /\ (forall req, only_calls schedule_call (schedular.schedule_post W req)).
Proof.
  split; [apply cleanup_footprint |].
  split; [intros; apply notification_footprint |].
  split; [intros; apply trigger_footprint | intros; apply schedule_footprint].
Qed.

Lemma get_media_bytes_footprint (W : World) m :
  only_calls fetch_call (publisher_service.get_media_bytes W m).
Proof.
  unfold publisher_service.get_media_bytes, publisher_service.attempt,
    google_drive.download_file_bytes, google_drive.requests_get_ok,
    google_drive.get_google_creds, google_drive.build.
  cbv zeta. footprint.
Qed.

(** Without a Drive file id the credentials are not touched. *)
Lemma get_media_bytes_reads (W : World) m :
  truthy_str (uploaded_file_id m) = false ->
  only_calls read_call (publisher_service.get_media_bytes W m).
Proof.
  intros H.
  unfold publisher_service.get_media_bytes, publisher_service.attempt,
    google_drive.requests_get_ok.
  cbv zeta. revert H.
  destruct (uploaded_file_id m) as [d |]; intros H; [rewrite H |]; footprint.
Qed.

Lemma graph_host_call rest d :
  graph_call (CallRequestsPost ("https://graph.facebook.com/" ++ rest) d) = true.
Proof. cbn. destruct rest; reflexivity. Qed.

Lemma graph_video_host_call rest d :
  graph_call (CallRequestsPost ("https://graph-video.facebook.com/" ++ rest) d)
  = true.
Proof. cbn. destruct rest; reflexivity. Qed.

Lemma post_to_graph_footprint (W : World) path d :
  only_calls graph_call (facebook_graph._post W path d).
Proof.
  unfold facebook_graph._post, facebook_graph.post_to, facebook_graph._graph_url.
  apply only_calls_bind; [| intros; apply only_calls_ret].
  apply only_calls_ask, graph_host_call.
Qed.

Lemma video_post_graph_footprint (W : World) path d :
  only_calls graph_call (facebook_graph._video_post W path d).
Proof.
  unfold facebook_graph._video_post, facebook_graph.post_to.
  apply only_calls_bind; [| intros; apply only_calls_ret].
  apply only_calls_ask, graph_video_host_call.
Qed.
#[local] Hint Resolve post_to_graph_footprint video_post_graph_footprint
  : footprint.

Lemma create_children_graph_footprint (W : World) tok ig urls :
  forall acc, only_calls graph_call
                (facebook_graph.create_children W tok ig urls acc).
Proof.
  induction urls as [| u urls IH]; intros acc;
    cbn [facebook_graph.create_children]; footprint.
Qed.
#[local] Hint Resolve create_children_graph_footprint : footprint.

(** X12: get_media_bytes makes no other external calls than reads (the
    R2 download, Drive metadata and content, HTTP GET, the file system) and,
    before it reads from Drive, get_google_creds and build, which are no
    reads: get_google_creds may refresh the token and rewrite the token file.
    It uploads nothing, deletes nothing and touches neither the table nor the
    calendar, and for an entry without uploaded_file_id it only reads.  The
    three publish functions call nothing but requests.post, and only on URLs
    of graph.facebook.com or graph-video.facebook.com, so the access token
    they send goes to no other host. *)
Theorem helpers_keep_to_their_calls (W : World) :
  (forall m, only_calls fetch_call (publisher_service.get_media_bytes W m))
  /\ (forall m, truthy_str (uploaded_file_id m) = false ->
                only_calls read_call (publisher_service.get_media_bytes W m))
  /\ (forall u cap, only_calls graph_call (facebook_graph.publish_photo W u cap))
  /\ (forall us cap, only_calls graph_call (facebook_graph.publish_carousel W us cap))
  /\ (forall u cap, only_calls graph_call (facebook_graph.publish_video W u cap)).
Proof.
  split; [intros; apply get_media_bytes_footprint |].
  split; [intros; apply get_media_bytes_reads; assumption |].
  split; [| split]; intros.
  - unfold facebook_graph.publish_photo. footprint.
  - unfold facebook_graph.publish_carousel. footprint.
  - unfold facebook_graph.publish_video. footprint.
Qed.

(* ------------------------------------------------------------------ *)
(** ** An upload that goes through *)

Lemma bind_Ok_inv {A B} (m : M A) (k : A -> M B) s b s' :
  bind m k s = (Ok b, s') ->
  exists a s1, m s = (Ok a, s1) /\ k a s1 = (Ok b, s').
Proof.
  unfold bind. destruct (m s) as [[a | e |] s1]; try discriminate. eauto.
Qed.

Lemma only_calls_run P {A} (m : M A) s r s' :
  only_calls P m -> m s = (r, s') ->
  exists cs, calls s' = calls s ++ cs /\ forallb P cs = true.
Proof. intros H E. specialize (H s). rewrite E in H. exact H. Qed.

(** One pass of the media loop either records the upload of the path or
    records one missing entry; it never raises. *)
Lemma upload_one_step (W : World) fid acc p s :
  exists r,
    fst (google_drive.upload_one W fid acc p s) = Ok r
    /\ ((exists e, r = (fst acc ++ [e], snd acc) /\ requested_path e = Some p)
        \/ (exists x, r = (fst acc, snd acc ++ [x]))).
Proof.
  destruct acc as [uploaded missing].
  unfold google_drive.upload_one, google_drive.upload_url,
    google_drive.upload_local, google_drive.requests_get_ok,
    google_drive.files_create, try_except, ask_exn, ask_pure, ask, bind,
    ret, raise.
  cbn [fst snd].
  run_cases.
  all: cbn [fst snd].
  all: eexists; split; [reflexivity |].
  all: first [ left; eexists; split; reflexivity
             | right; eexists; reflexivity ].
Qed.

Lemma fold_upload_order (W : World) fid paths :
  forall acc s,
    exists u' m',
      fst (fold_m paths acc (google_drive.upload_one W fid) s)
      = Ok (fst acc ++ u', snd acc ++ m')
      /\ (m' = [] -> map requested_path u' = map Some paths)
      /\ (List.length u' + List.length m' = List.length paths)%nat.
Proof.
  induction paths as [| p paths IH]; intros acc s; cbn [fold_m].
  - exists [], []. rewrite !app_nil_r. destruct acc. auto.
  - destruct (upload_one_step W fid acc p s) as (r & E & Hr).
    unfold bind.
    destruct (google_drive.upload_one W fid acc p s) as [r0 s1].
    cbn [fst] in E. subst r0.
    destruct (IH r s1) as (u' & m' & E' & Hord & Hlen).
    destruct Hr as [(e & -> & He) | (x & ->)]; cbn [fst snd] in E'.
    + exists (e :: u'), m'. rewrite <- app_assoc in E'.
      split; [exact E' |]. split; [| cbn [List.length]; lia].
      intros Hm. cbn [map]. rewrite He, (Hord Hm). reflexivity.
    + exists u', (x :: m'). rewrite <- app_assoc in E'.
      split; [exact E' |]. split; [discriminate | cbn [List.length]; lia].
Qed.

Lemma upload_one_upload_footprint (W : World) fid acc p :
  only_calls upload_call (google_drive.upload_one W fid acc p).
Proof.
  unfold google_drive.upload_one, google_drive.upload_url,
    google_drive.upload_local, google_drive.requests_get_ok,
    google_drive.files_create.
  destruct acc. footprint.
Qed.

Lemma trace_trans (P : call -> bool) (s s1 s2 : state) :
  (exists cs, calls s1 = calls s ++ cs /\ forallb P cs = true) ->
  (exists cs, calls s2 = calls s1 ++ cs /\ forallb P cs = true) ->
  exists cs, calls s2 = calls s ++ cs /\ forallb P cs = true.
Proof.
  intros (c1 & H1 & A1) (c2 & H2 & A2). exists (c1 ++ c2).
  rewrite H2, H1, app_assoc, forallb_app, A1, A2. auto.
Qed.

(** X13: when upload_files_to_drive returns, it returns one media entry
    per requested path, in the order of the request, each recording the path
    it was uploaded for; no media was missing.  The caption file was the last
    thing created, in the returned folder, and nothing was deleted from Drive
    on the way. *)
Theorem upload_files_to_drive_success (W : World) (paths : list string)
    (cap : string) (pt : option string) (s : state)
    (fid : option string) (uploaded : list MediaEntry) (s' : state) :
  google_drive.upload_files_to_drive W paths cap pt s = (Ok (fid, uploaded), s') ->
  map requested_path uploaded = map Some paths
  /\ exists cs,
       calls s'
       = calls s ++ cs
         ++ [CallDriveCreate (mkDriveCreate "caption.txt" "text/plain"
                                            (Some [fid]))]
       /\ forallb upload_call cs = true.
Proof.
  intros H. unfold google_drive.upload_files_to_drive in H.
  apply bind_Ok_inv in H. destruct H as ([] & s1 & E1 & H).
  apply bind_Ok_inv in H. destruct H as ([] & s2 & E2 & H).
  apply bind_Ok_inv in H. destruct H as (root & s3 & E3 & H).
  apply bind_Ok_inv in H. destruct H as (now & s4 & E4 & H).
  apply bind_Ok_inv in H. destruct H as (folder & s5 & E5 & H).
  apply bind_Ok_inv in H. destruct H as ([u m] & s6 & E6 & H).
  destruct (fold_upload_order W folder paths ([], []) s5)
    as (u' & m' & Efold & Hord & _).
  rewrite E6 in Efold. cbn [fst snd app] in Efold.
  injection Efold as -> ->.
  unfold google_drive.finish_upload in H.
  destruct m' as [| x m'].
  2: { unfold bind, raise in H.
       destruct (try_except _ _ s6) as [[[] | |] ?]; discriminate. }
  apply bind_Ok_inv in H. destruct H as (cid & s7 & E7 & H).
  unfold ret in H. injection H as -> -> ->.
  split; [apply Hord; reflexivity |].
  assert (R1 : exists cs, calls s1 = calls s ++ cs /\ forallb upload_call cs = true).
  { eapply only_calls_run; [| exact E1].
    unfold google_drive.get_google_creds. footprint. }
  assert (R2 : exists cs, calls s2 = calls s1 ++ cs /\ forallb upload_call cs = true).
  { eapply only_calls_run; [| exact E2]. unfold google_drive.build. footprint. }
  assert (R3 : exists cs, calls s3 = calls s2 ++ cs /\ forallb upload_call cs = true).
  { eapply only_calls_run; [| exact E3].
    unfold google_drive.create_social_media_root_folder,
      google_drive.files_create. footprint. }
  assert (R4 : exists cs, calls s4 = calls s3 ++ cs /\ forallb upload_call cs = true).
  { eapply only_calls_run; [| exact E4]. footprint. }
  assert (R5 : exists cs, calls s5 = calls s4 ++ cs /\ forallb upload_call cs = true).
  { eapply only_calls_run; [| exact E5]. unfold google_drive.files_create.
    footprint. }
  assert (R6 : exists cs, calls s6 = calls s5 ++ cs /\ forallb upload_call cs = true).
  { eapply only_calls_run; [| exact E6].
    apply only_calls_fold_m. intros; apply upload_one_upload_footprint. }
  pose proof (trace_trans _ _ _ _ (trace_trans _ _ _ _ (trace_trans _ _ _ _
               (trace_trans _ _ _ _ (trace_trans _ _ _ _ R1 R2) R3) R4) R5) R6)
    as (cs & Hcs & Hall).
  exists cs. split; [| exact Hall].
  unfold google_drive.files_create, ask in E7.
  destruct (drive_create_file W (tick s6) _); [| discriminate].
  injection E7 as _ <-. cbn [step_world calls].
  rewrite Hcs, app_assoc. reflexivity.
Qed.

Lemma upload_files_to_drive_success_witness :
  exists fid uploaded s',
    google_drive.upload_files_to_drive examples.healthy
      ["/temp_generated_images/a.png"; "https://example.com/b.png"] "Hello"
      (Some "static") examples.empty_state
    = (Ok (fid, uploaded), s')
    /\ map requested_path uploaded
       = [Some "/temp_generated_images/a.png"; Some "https://example.com/b.png"].
Proof.
  eexists _, _, _. split; [vm_compute; reflexivity |].
  exact (proj1 (upload_files_to_drive_success examples.healthy
                  ["/temp_generated_images/a.png"; "https://example.com/b.png"]
                  "Hello" (Some "static") examples.empty_state _ _ _ eq_refl)).
Defined.

(* ------------------------------------------------------------------ *)
(** ** The life of a row *)












Lemma handle_calendar_notification_rows (W : World) r s :
  let s' := snd (google_calender.handle_calendar_notification W r s) in
  next_id s' = next_id s /\ Forall2 (cancel_step r) (db s) (db s').
Proof.
  cbv zeta.
  unfold google_calender.handle_calendar_notification,
    google_drive.get_google_creds, google_drive.build,
    crud.cancel_post_by_event_id, crud.execute_query,
    try_except_HttpError, try_except, ask_fault, ask_exn, ask, bind, ret,
    get_db, put_db.
  run_cases.
  all: cbn [fst snd db next_id step_world].
  all: split; [reflexivity |].
  all: first [apply cancel_rows_steps
             | apply Forall2_same; intros; left; reflexivity].
Qed.





(* ------------------------------------------------------------------ *)
(** ** The retry helper *)

(** How the loop can end after [k] caught failures that were slept on: the
    attempts are used up, or the next call ends the loop, or the next call
    fails once more and the sleep after it raises. *)
Lemma retry_loop_outcome {St A} (func : St -> result A * St)
    (exceptions : exn -> bool) (retries : Z) (delay backoff : float)
    (float_pow : float -> Z -> float + exn) (time_sleep : float -> option exn)
    (fuel : nat) :
  let loop := retry.loop func exceptions retries delay backoff float_pow
                time_sleep fuel in
  forall attempt last0 s sleeps,
    (Z.to_nat (retries - attempt) < fuel)%nat ->
    exists k s1 last ls,
      retry.failures func exceptions delay backoff float_pow time_sleep
        k attempt s s1 last0 last ls
      /\ attempt + Z.of_nat k <= Z.max attempt retries
      /\ snd (loop attempt last0 s sleeps) = sleeps ++ ls
      /\ ((retries <= attempt + Z.of_nat k
           /\ fst (loop attempt last0 s sleeps) = (retry.raise_last last, s1))
          \/ (attempt + Z.of_nat k < retries
              /\ retry.ends_loop exceptions (fst (func s1))
              /\ fst (loop attempt last0 s sleeps) = func s1)
          \/ (attempt + Z.of_nat k < retries
              /\ exists e s2 e',
                   func s1 = (Raise e, s2) /\ exceptions e = true
                   /\ retry.sleep_after delay backoff float_pow time_sleep
                        (attempt + Z.of_nat k) = inr e'
                   /\ fst (loop attempt last0 s sleeps) = (Raise e', s2))).
Proof.
  cbv zeta.
  induction fuel as [| fuel IH]; intros attempt last0 s sleeps Hfuel; [lia |].
  cbn [retry.loop].
  destruct (Z.ltb_spec attempt retries) as [Hlt | Hge].
  - destruct (func s) as [[a | e |] s'] eqn:Ef.
    + exists 0%nat, s, last0, []. cbn [fst snd]. rewrite app_nil_r, Ef.
      split; [constructor |]. split; [lia |]. split; [reflexivity |].
      right. left. cbn. split; [lia | auto].
    + destruct (exceptions e) eqn:Ee.
      * destruct (retry.sleep_after delay backoff float_pow time_sleep attempt)
          as [secs | e'] eqn:Esl.
        -- destruct (IH (attempt + 1) (Some e) s' (sleeps ++ [secs]))
             as (k & s1 & last & ls & Hf & Hk & Hsl & Hres); [lia |].
           exists (S k), s1, last, (secs :: ls).
           split; [econstructor; eassumption |]. split; [lia |].
           split; [rewrite Hsl, <- app_assoc; reflexivity |].
           replace (attempt + Z.of_nat (S k)) with (attempt + 1 + Z.of_nat k)
             by lia.
           exact Hres.
        -- exists 0%nat, s, last0, []. cbn [fst snd]. rewrite app_nil_r, Z.add_0_r.
           split; [constructor |]. split; [lia |]. split; [reflexivity |].
           right. right. split; [lia |]. exists e, s', e'. auto.
      * exists 0%nat, s, last0, []. cbn [fst snd]. rewrite app_nil_r, Ef.
        split; [constructor |]. split; [lia |]. split; [reflexivity |].
        right. left. cbn. split; [lia | auto].
    + exists 0%nat, s, last0, []. cbn [fst snd]. rewrite app_nil_r, Ef.
      split; [constructor |]. split; [lia |]. split; [reflexivity |].
      right. left. cbn. split; [lia | auto].
  - exists 0%nat, s, last0, []. cbn [fst snd]. rewrite app_nil_r.
    split; [constructor |]. split; [lia |]. split; [reflexivity |].
    left. split; [lia | reflexivity].
Qed.

(** X15: retry runs to an end once the fuel exceeds [retries].  It calls
    func until a call returns, raises an exception the except clause does not
    catch, or [retries] calls have failed; after every caught failure, the
    last one included, it sleeps delay * backoff ** attempt with attempt 0,
    1, 2, ... in this order.  A call that ends the loop gives the outcome of
    retry; after [retries] caught failures that were slept on retry raises
    the last exception; when the power or time.sleep raises (a negative, NaN
    or too large length), that exception leaves retry at once, without a
    further call; and with [retries] at most 0 it never calls func and raises
    a TypeError, since last_exc is still None. *)
Theorem retry_outcome {St A} (func : St -> result A * St)
    (exceptions : exn -> bool) (retries : Z) (delay backoff : float)
    (float_pow : float -> Z -> float + exn) (time_sleep : float -> option exn)
    (fuel : nat) (s : St) :
  (Z.to_nat retries < fuel)%nat ->
  let run := retry.retry func exceptions retries delay backoff float_pow
               time_sleep fuel s in
  let sleep_after := retry.sleep_after delay backoff float_pow time_sleep in
  exists k s1 last sleeps,
    retry.failures func exceptions delay backoff float_pow time_sleep
      k 0 s s1 None last sleeps
    /\ Z.of_nat k <= Z.max 0 retries
    /\ snd run = sleeps
    /\ ((retries <= Z.of_nat k /\ fst run = (retry.raise_last last, s1))
        \/ (Z.of_nat k < retries
            /\ retry.ends_loop exceptions (fst (func s1))
            /\ fst run = func s1)
        \/ (Z.of_nat k < retries
            /\ exists e s2 e',
                 func s1 = (Raise e, s2) /\ exceptions e = true
                 /\ sleep_after (Z.of_nat k) = inr e'
                 /\ fst run = (Raise e', s2)))
    /\ (retries <= 0 ->
        run = (Raise (PyError "TypeError"
                        "exceptions must derive from BaseException"), s, [])).
Proof.
  intros Hfuel. cbv zeta. unfold retry.retry.
  destruct (retry_loop_outcome func exceptions retries delay backoff float_pow
              time_sleep fuel 0 None s [])
    as (k & s1 & last & ls & Hf & Hk & Hsl & Hres);
    [rewrite Z.sub_0_r; exact Hfuel |].
  exists k, s1, last, ls. cbn [app] in Hsl. rewrite !Z.add_0_l in Hres.
  split; [exact Hf |]. split; [lia |]. split; [exact Hsl |].
  split; [exact Hres |].
  intros Hle. destruct fuel as [| fuel]; [lia |]. cbn [retry.loop].
  destruct (Z.ltb_spec 0 retries); [lia | reflexivity].
Qed.

Lemma retry_outcome_witness :
  retry.retry flaky is_HttpError 3 1%float 2%float repeated_mul
    sleep_nonnegative 4 0%nat
  = (Raise (PyError "ConnectionError" "reset"), 1%nat, [])
  /\ retry.retry flaky (fun _ => true) 3 1%float 2%float repeated_mul
       sleep_nonnegative 4 0%nat
     = (Ok 2%nat, 3%nat, [1%float; 2%float])
  /\ retry.retry flaky (fun _ => true) 2 1%float 2%float repeated_mul
       sleep_nonnegative 3 0%nat
     = (Raise (PyError "ConnectionError" "reset"), 2%nat, [1%float; 2%float])
  /\ retry.retry flaky (fun _ => true) 3 (-1)%float 2%float repeated_mul
       sleep_nonnegative 4 0%nat
     = (Raise (PyError "ValueError" "sleep length must be non-negative"),
        1%nat, [])
  /\ exists k s1 last sleeps,
       retry.failures flaky (fun _ => true) 1%float 2%float repeated_mul
         sleep_nonnegative k 0 0%nat s1 None last sleeps
       /\ snd (retry.retry flaky (fun _ => true) 3 1%float 2%float repeated_mul
                 sleep_nonnegative 4 0%nat)
          = sleeps.
Proof.
  split; [reflexivity |]. split; [reflexivity |]. split; [reflexivity |].
  split; [reflexivity |].
  destruct (retry_outcome flaky (fun _ => true) 3 1%float 2%float repeated_mul
              sleep_nonnegative 4 0%nat)
    as (k & s1 & last & ls & Hf & _ & Hsl & _); [cbn; lia |].
  exists k, s1, last, ls. auto.
Defined.

(* ------------------------------------------------------------------ *)
(** ** Fetching media with retries *)

Lemma get_media_bytes_ends (W : World) (m : MediaEntry) (s : state) :
  let run := publisher_service.get_media_bytes W m s in
  fst run = Raise (PyError "RuntimeError"
                           "No available source found for media entry")
  \/ exists b, fst run = Ok b
               /\ In (publisher_service.source b) ["r2"; "drive"; "http"; "local"].
Proof.
  cbv zeta.
  unfold publisher_service.get_media_bytes, publisher_service.attempt,
    google_drive.download_file_bytes, google_drive.requests_get_ok,
    google_drive.get_google_creds, google_drive.build,
    ask_fault, ask_exn, ask, bind, try_except, ret, raise.
  run_cases.
  all: cbn [fst].
  all: first [ left; reflexivity
             | right; eexists; split; [reflexivity |];
               cbn [publisher_service.source In]; tauto ].
Qed.

(** X16: the webhook routes fetch each media entry with at most two
    calls of get_media_bytes, sleeping delay * backoff ** attempt = 1.0 * 2.0
    ** 0 and 1.0 * 2.0 ** 1 after them; Python computes these powers as 1.0
    and 2.0 and sleeps such lengths without an error.  The fetch either
    yields bytes from one of the four sources, at the first call without any
    sleep or at the second after one sleep of 1.0, or, when both calls found
    no source, raises HTTPException 502 'Failed to fetch media: ... - No
    available source found for media entry' after sleeping 1.0 and then 2.0:
    the second sleep is made although no call follows it.  Whatever happens,
    the fetch makes no other external calls than reads and, for Drive,
    get_google_creds and build. *)
Theorem fetch_media_outcome (W : World)
    (float_pow : float -> Z -> float + exn) (time_sleep : float -> option exn)
    (fuel : nat) (m : MediaEntry) (s : state) :
  (2 < fuel)%nat ->
  float_pow 2%float 0 = inl 1%float ->
  float_pow 2%float 1 = inl 2%float ->
  time_sleep 1%float = None ->
  time_sleep 2%float = None ->
  let run := webhook.fetch_media W float_pow time_sleep fuel m s in
  ((exists b, fst (fst run) = Ok b
              /\ In (publisher_service.source b) ["r2"; "drive"; "http"; "local"]
              /\ (snd run = [] \/ snd run = [1%float]))
   \/ (fst (fst run)
       = Raise (HTTPException 502
                  ("Failed to fetch media: "
                   ++ fmt_opt (or_str (requested_path m) (r2_url m))
                   ++ " - No available source found for media entry"))
       /\ snd run = [1%float; 2%float]))
  /\ exists cs, calls (snd (fst run)) = calls s ++ cs
                /\ forallb fetch_call cs = true.
Proof.
  intros Hfuel Hp0 Hp1 Hs1 Hs2. cbv zeta.
  destruct fuel as [| [| [| fuel]]]; try lia.
  unfold webhook.fetch_media, retry.retry. cbv zeta.
  set (d := mkMediaEntry _ _ _ _ _ None).
  assert (S0 : retry.sleep_after 1%float 2%float float_pow time_sleep 0
               = inl 1%float).
  { unfold retry.sleep_after. rewrite Hp0. cbv zeta.
    change (PrimFloat.mul 1 1) with 1%float. rewrite Hs1. reflexivity. }
  assert (S1 : retry.sleep_after 1%float 2%float float_pow time_sleep 1
               = inl 2%float).
  { unfold retry.sleep_after. rewrite Hp1. cbv zeta.
    change (PrimFloat.mul 1 2) with 2%float. rewrite Hs2. reflexivity. }
  cbn [retry.loop Z.ltb Z.compare].
  pose proof (get_media_bytes_ends W d s) as H1.
  pose proof (get_media_bytes_footprint W d s) as F1.
  destruct (publisher_service.get_media_bytes W d s) as [r1 s1].
  cbv zeta in H1. cbn [fst snd] in H1, F1.
  destruct H1 as [-> | (b & -> & Hb)].
  2: { cbn [fst snd]. split; [left; exists b; auto | exact F1]. }
  rewrite S0.
  cbn [Z.add Z.ltb Z.compare Pos.compare Pos.compare_cont app].
  pose proof (get_media_bytes_ends W d s1) as H2.
  pose proof (get_media_bytes_footprint W d s1) as F2.
  destruct (publisher_service.get_media_bytes W d s1) as [r2 s2].
  cbv zeta in H2. cbn [fst snd] in H2, F2.
  assert (F : exists cs, calls s2 = calls s ++ cs /\ forallb fetch_call cs = true)
    by (eapply trace_trans; eassumption).
  destruct H2 as [-> | (b & -> & Hb)].
  - rewrite S1.
    cbn [fst snd str_exn app Z.add Pos.add]. split; [right; auto | exact F].
  - cbn [fst snd]. split; [left; exists b; auto | exact F].
Qed.

Lemma fetch_media_outcome_witness :
  exists cs,
    calls (snd (fst (webhook.fetch_media examples.healthy repeated_mul
                       sleep_nonnegative 3 examples.entry
                       examples.empty_state)))
    = calls examples.empty_state ++ cs
    /\ forallb fetch_call cs = true.
Proof.
  refine (proj2 (fetch_media_outcome examples.healthy repeated_mul
                   sleep_nonnegative 3 examples.entry examples.empty_state
                   _ _ _ _ _)).
  - lia.
  - reflexivity.
  - reflexivity.
  - reflexivity.
  - reflexivity.
Defined.

(* ------------------------------------------------------------------ *)
(** ** The Instagram notification endpoint *)

Lemma process_changes_no_403 cs : forall logged d,
  fst (instagram_events.process_changes cs logged) <> Some (HTTPException 403 d).
Proof.
  induction cs as [| c cs IH]; intros logged d; cbn [instagram_events.process_changes].
  - discriminate.
  - destruct (instagram_events.process_change c) as [ev | e |] eqn:E;
      [apply IH | | discriminate].
    cbn [fst]. intros [= ->]. revert E.
    unfold instagram_events.process_change, instagram_events.value_get,
      pyfloat.rbind.
    run_cases; discriminate.
Qed.

Lemma verify_signature_true cfg hmac body sig :
  instagram_events.verify_signature cfg hmac body sig = Ok true ->
  truthy_str (FACEBOOK_APP_SECRET cfg) = false
  \/ exists secret,
       FACEBOOK_APP_SECRET cfg = Some secret
       /\ sig = ("sha256=" ++ hmac secret body)%string.
Proof.
  unfold instagram_events.verify_signature, instagram_events.compare_digest.
  destruct (FACEBOOK_APP_SECRET cfg) as [secret |]; [| auto].
  destruct (truthy_str (Some secret)); cbn [negb]; [| auto].
  destruct (_ && _); [| discriminate].
  destruct (String.eqb_spec ("sha256=" ++ hmac secret body) sig) as [E | E];
    [| discriminate].
  intros _. right. exists secret. auto.
Qed.

Lemma handle_verified_no_403 json_loads validate body d :
  fst (instagram_events.handle_verified json_loads validate body)
  <> Raise (HTTPException 403 d).
Proof.
  unfold instagram_events.handle_verified.
  destruct (json_loads body) as [payload | | k m]; try discriminate.
  destruct (validate payload) as [entries |]; [| discriminate].
  pose proof (process_changes_no_403
                (flat_map instagram_events.changes entries) [] d) as H.
  destruct (instagram_events.process_changes _ []) as [[e |] logged];
    cbn [fst] in *; congruence.
Qed.

(** X17: the notification endpoint acknowledges a request only if it
    passed the signature check and its body parsed and validated, and it logs
    events only for such requests.  It answers 403 exactly when the signature
    header is missing or empty, or when a secret is configured and the (ASCII)
    signature differs from 'sha256=' + HMAC(secret, body).  When no app
    secret is configured the check is off: the outcome does not depend on the
    signature, as long as there is one. *)
Theorem handle_webhook_gate (cfg : Settings) (hmac : string -> bytes -> string)
    (json_loads : bytes -> instagram_events.loads_outcome)
    (validate : json -> option (list instagram_events.InstagramWebhookEntry))
    (signature : option string) (body : bytes) :
  let run := instagram_events.handle_webhook cfg hmac json_loads validate
               signature body in
  (forall j, fst run = Ok j ->
     j = JObj [("status", JStr "ok")]
     /\ signed cfg hmac signature body
     /\ exists payload entries,
          json_loads body = instagram_events.Loaded payload
          /\ validate payload = Some entries)
  /\ (snd run <> [] -> signed cfg hmac signature body)
  /\ (forall d, fst run = Raise (HTTPException 403 d) <->
        (truthy_str signature = false /\ d = "Missing signature"%string)
        \/ (d = "Invalid signature"%string
            /\ exists sig secret,
                 signature = Some sig /\ sig <> ""%string
                 /\ FACEBOOK_APP_SECRET cfg = Some secret /\ secret <> ""%string
                 /\ instagram_events.isascii sig = true
                 /\ instagram_events.isascii ("sha256=" ++ hmac secret body) = true
                 /\ sig <> ("sha256=" ++ hmac secret body)%string))
  /\ (truthy_str (FACEBOOK_APP_SECRET cfg) = false ->
      forall sig sig', sig <> ""%string -> sig' <> ""%string ->
        instagram_events.handle_webhook cfg hmac json_loads validate
          (Some sig) body
        = instagram_events.handle_webhook cfg hmac json_loads validate
            (Some sig') body).
Proof.
  cbv zeta. split; [| split; [| split]].
  - (* acknowledged *)
    intros j. unfold instagram_events.handle_webhook.
    destruct signature as [sig |]; [| discriminate].
    destruct (truthy_str (Some sig)) eqn:Hs; cbn [negb]; [| discriminate].
    destruct (instagram_events.verify_signature cfg hmac body sig)
      as [[|] | e |] eqn:Ev; try discriminate.
    unfold instagram_events.handle_verified.
    destruct (json_loads body) as [payload | | k m] eqn:Ej; try discriminate.
    destruct (validate payload) as [entries |] eqn:Eval; [| discriminate].
    destruct (instagram_events.process_changes _ []) as [[e |] logged];
      [discriminate |].
    cbn [fst]. intros [= <-]. split; [reflexivity |]. split.
    + exists sig. split; [reflexivity |].
      split; [apply truthy_str_Some, Hs | apply verify_signature_true, Ev].
    + eauto.
  - (* events *)
    unfold instagram_events.handle_webhook.
    destruct signature as [sig |]; [| intros H; contradiction H; reflexivity].
    destruct (truthy_str (Some sig)) eqn:Hs; cbn [negb];
      [| intros H; contradiction H; reflexivity].
    destruct (instagram_events.verify_signature cfg hmac body sig)
      as [[|] | e |] eqn:Ev;
      try (intros H; contradiction H; reflexivity).
    intros _. exists sig. split; [reflexivity |].
    split; [apply truthy_str_Some, Hs | apply verify_signature_true, Ev].
  - (* 403 *)
    intros d. unfold instagram_events.handle_webhook.
    destruct signature as [sig |].
    2: { split.
         - intros [= <-]. left. auto.
         - intros [[_ ->] | (-> & s & secret & H & _)];
             [reflexivity | discriminate]. }
    destruct (truthy_str (Some sig)) eqn:Hs; cbn [negb].
    2: { split.
         - intros [= <-]. left. auto.
         - intros [[_ ->] | (-> & s & secret & [= <-] & Hne & _)];
             [reflexivity |].
           apply truthy_str_Some in Hne. congruence. }
    pose proof (handle_verified_no_403 json_loads validate body d) as Hpast.
    unfold instagram_events.verify_signature, instagram_events.compare_digest.
    destruct (FACEBOOK_APP_SECRET cfg) as [secret |] eqn:Esec.
    + destruct (truthy_str (Some secret)) eqn:Hsec; cbn [negb].
      * destruct (instagram_events.isascii ("sha256=" ++ hmac secret body))
          eqn:Ha1; cbn [andb].
        -- destruct (instagram_events.isascii sig) eqn:Ha2.
           ++ destruct (String.eqb_spec ("sha256=" ++ hmac secret body) sig)
                as [Heq | Hne].
              ** split; [intros H; contradiction (Hpast H) |].
                 intros [[H _] | (_ & s & sec & [= <-] & _ & [= <-] & _ & _ & _ & H)];
                   [discriminate | congruence].
              ** split.
                 --- intros [= <-]. right. split; [reflexivity |].
                     exists sig, secret.
                     split; [reflexivity |].
                     split; [apply truthy_str_Some, Hs |].
                     split; [reflexivity |].
                     split; [apply truthy_str_Some, Hsec |].
                     repeat split; auto.
                 --- intros [[H _] | (-> & _)]; [discriminate | reflexivity].
           ++ split; [discriminate |].
              intros [[H _] | (_ & s & sec & [= <-] & _ & _ & _ & H & _)];
                congruence.
        -- split; [discriminate |].
           intros [[H _] | (_ & s & sec & [= <-] & _ & [= <-] & _ & _ & H & _)];
             congruence.
      * split; [intros H; contradiction (Hpast H) |].
        intros [[H _] | (_ & s & sec & _ & _ & [= <-] & Hne & _)];
          [discriminate |].
        apply truthy_str_Some in Hne. congruence.
    + split; [intros H; contradiction (Hpast H) |].
      intros [[H _] | (_ & s & sec & _ & _ & H & _)]; discriminate.
  - (* no secret *)
    intros Hoff sig sig' Hsig Hsig'.
    unfold instagram_events.handle_webhook, instagram_events.verify_signature.
    rewrite (proj2 (truthy_str_Some sig) Hsig),
      (proj2 (truthy_str_Some sig') Hsig').
    cbn [negb].
    destruct (FACEBOOK_APP_SECRET cfg) as [secret |]; [| reflexivity].
    rewrite Hoff. reflexivity.
Qed.

(* ------------------------------------------------------------------ *)
(** ** Posts that are never published *)

Lemma encode_loop_prepare_footprint (W : World) fuel :
  forall dims q, only_calls prepare_call (encode_loop W fuel dims q).
Proof.
  induction fuel as [| fuel IH]; intros dims q; cbn [encode_loop]; footprint.
Qed.
#[local] Hint Resolve encode_loop_prepare_footprint : footprint.

Lemma prepare_media_prepare_footprint (W : World) fuel post idx m urls :
  only_calls prepare_call (prepare_media W fuel post idx m urls).
Proof.
  unfold prepare_media, prepare_from_drive, validate_and_prepare_image,
    google_drive.download_file_bytes, google_drive.get_public_download_url,
    google_drive.files_create, google_drive.get_google_creds,
    google_drive.build.
  footprint.
Qed.
#[local] Hint Resolve prepare_media_prepare_footprint : footprint.

Lemma prepare_all_prepare_footprint (W : World) fuel post media :
  forall idx urls, only_calls prepare_call (prepare_all W fuel post idx media urls).
Proof.
  induction media as [| m media IH]; intros idx urls; cbn [prepare_all]; footprint.
Qed.
#[local] Hint Resolve prepare_all_prepare_footprint : footprint.

(** Without R2, the media of a video that has no usable R2 URL is skipped. *)
Lemma prepare_media_video_skipped (W : World) fuel post idx m urls s :
  post_type post = "video"%string -> r2_configured W = false ->
  opt_startswith (r2_url m) "http" = false ->
  fst (prepare_media W fuel post idx m urls s) = Ok urls.
Proof.
  intros Hpt Hr2 Hm. unfold prepare_media. rewrite Hm.
  unfold prepare_from_drive. rewrite Hpt, Hr2. cbn [String.eqb Ascii.eqb Bool.eqb].
  unfold google_drive.download_file_bytes, google_drive.get_google_creds,
    google_drive.build, try_except, ask_fault, ask_exn, ask, bind, ret, raise,
    logger.
  run_cases; reflexivity.
Qed.

Lemma prepare_all_video_skipped (W : World) fuel post media :
  post_type post = "video"%string -> r2_configured W = false ->
  Forall (fun m => opt_startswith (r2_url m) "http" = false) media ->
  forall idx urls s, fst (prepare_all W fuel post idx media urls s) = Ok urls.
Proof.
  intros Hpt Hr2 Hall. induction Hall as [| m media Hm _ IH]; intros idx urls s;
    cbn [prepare_all]; [reflexivity |].
  unfold bind.
  pose proof (prepare_media_video_skipped W fuel post idx m urls s Hpt Hr2 Hm)
    as E.
  destruct (prepare_media W fuel post idx m urls s) as [r s1].
  cbn [fst] in E. subst r. apply IH.
Qed.

Lemma trigger_one_never_publishes (W : World) fuel p :
  never_publishable W p ->
  silent (trigger_one W fuel p) /\ only_calls prepare_call (trigger_one W fuel p).
Proof.
  intros Hp. unfold trigger_one.
  destruct (media_paths p) as [media |] eqn:Em;
    [| split; [silence | footprint]].
  destruct Hp as [Hp | [(H1 & H2 & H3) | (Hpt & Hr2 & Hall)]]; [congruence | |].
  - assert (H2' : String.eqb (post_type p) "carousel" = false).
    { destruct (String.eqb_spec (post_type p) "carousel") as [E |]; [| reflexivity].
      rewrite E in H2. discriminate. }
    cbv zeta. rewrite H1, H2, H2', H3. cbn [orb]. split; [silence | footprint].
  - specialize (Hall media Em).
    assert (E : forall s,
               (insta_urls <- prepare_all W fuel p 0 media [] ;;
                match insta_urls with
                | [] => logger (LogNoValidUrls (id p))
                | first :: _ =>
                    let pt := post_type p in
                    let cap := caption p in
                    outcome <-
                      (if String.eqb pt "static" then
                         r <- facebook_graph.publish_photo W first cap ;;
                         ret (Some r)
                       else if startswith pt "carousel" || String.eqb pt "carousel"
                       then
                         r <- facebook_graph.publish_carousel W insta_urls cap ;;
                         ret (Some r)
                       else if String.eqb pt "video" then
                         r <- facebook_graph.publish_video W first cap ;;
                         ret (Some r)
                       else logger (LogUnsupportedPostType pt) ;; ret None) ;;
                    match outcome with
                    | None => ret tt
                    | Some (published, status_msg) =>
                        if published : bool
                        then logger (LogPublished (id p) status_msg) ;;
                             crud.update_post_status W (id p) "triggered"
                        else logger (LogPublishFailed (id p) status_msg)
                    end
                end) s
               = logger (LogNoValidUrls (id p))
                        (snd (prepare_all W fuel p 0 media [] s))).
    { intros s. unfold bind at 1.
      pose proof (prepare_all_video_skipped W fuel p media Hpt Hr2 Hall 0%nat [] s)
        as E.
      destruct (prepare_all W fuel p 0 media [] s) as [r s1].
      cbn [fst snd] in *. subst r. reflexivity. }
    split; intros s; rewrite E; unfold logger; cbn [snd db next_id log calls].
    + rewrite filter_app. cbn [filter is_publish_event]. rewrite app_nil_r.
      apply silent_prepare_all.
    + apply prepare_all_prepare_footprint.
Qed.

(** X18: a post that has no media list, or a type other than static,
    carousel and video, or that is a video without a usable R2 URL while R2
    is not configured, is never published: whatever the services answer, a
    trigger of it returns normally, makes no call to the Graph API or to the
    table, leaves every row and the id counter as they were and logs no
    publish line. *)
Theorem trigger_each_never_publishes (W : World) (k : nat)
    (p : ScheduledPost) (s : state) :
  never_publishable W p ->
  let run := trigger_each W (6 + k) p s in
  fst run = Ok tt
  /\ db (snd run) = db s
  /\ next_id (snd run) = next_id s
  /\ filter is_publish_event (log (snd run)) = filter is_publish_event (log s)
  /\ exists cs, calls (snd run) = calls s ++ cs
                /\ forallb prepare_call cs = true.
Proof.
  intros Hp. cbv zeta.
  destruct (trigger_one_never_publishes W (6 + k) p Hp) as [Hsil Hfoot].
  assert (Hs : silent (trigger_each W (6 + k) p)).
  { unfold trigger_each. apply silent_try_except; [exact Hsil |].
    intros e. apply silent_logger. reflexivity. }
  assert (Hf : only_calls prepare_call (trigger_each W (6 + k) p)).
  { unfold trigger_each. apply only_calls_try_except; [exact Hfoot |].
    intros e. apply only_calls_logger. }
  destruct (returns_trigger_each W k p s) as [[] Hr].
  destruct (Hs s) as (Hd & Hn & Hl).
  repeat split; auto.
Qed.

Lemma trigger_each_never_publishes_witness :
  let p := mkPost 7 "reel" "Hello" 0 (Some "folder1") (Some "evt123")
                  "scheduled" (Some [examples.entry]) 0 in
  db (snd (trigger_each examples.healthy 6 p (examples.state_with [p]))) = [p].
Proof.
  exact (proj1 (proj2 (trigger_each_never_publishes examples.healthy 0
           (mkPost 7 "reel" "Hello" 0 (Some "folder1") (Some "evt123")
                   "scheduled" (Some [examples.entry]) 0)
           (examples.state_with
              [mkPost 7 "reel" "Hello" 0 (Some "folder1") (Some "evt123")
                      "scheduled" (Some [examples.entry]) 0])
           (or_intror (or_introl (conj eq_refl (conj eq_refl eq_refl))))))).
Defined.

(* ------------------------------------------------------------------ *)
(** ** The URLs prepared for a post *)

Lemma appends_ret_same urls : appends urls (ret urls).
Proof. intros s urls' [= <-]. exists []. rewrite app_nil_r. auto. Qed.

Lemma appends_ret_snoc urls u : appends urls (ret (urls ++ [u])).
Proof. intros s urls' [= <-]. exists [u]. auto. Qed.

Lemma appends_raise urls e : appends urls (raise e).
Proof. intros s urls'; discriminate. Qed.

Lemma appends_bind {A} urls (m : M A) k :
  (forall a, appends urls (k a)) -> appends urls (bind m k).
Proof.
  intros Hk s urls'. unfold bind.
  destruct (m s) as [[a | e |] s1]; try discriminate. apply Hk.
Qed.

Lemma appends_try_except urls m h :
  appends urls m -> (forall e, appends urls (h e)) ->
  appends urls (try_except m h).
Proof.
  intros Hm Hh s urls'. unfold try_except. specialize (Hm s).
  destruct (m s) as [[a | e |] s1]; try discriminate; [exact (Hm urls') |].
  apply Hh.
Qed.

(** One media entry adds at most one URL, at the end; an entry with a usable
    R2 URL adds this URL, without any call. *)
Lemma prepare_media_appends (W : World) fuel post idx m urls :
  appends urls (prepare_media W fuel post idx m urls).
Proof.
  unfold prepare_media, prepare_from_drive.
  repeat first
    [ apply appends_ret_same | apply appends_ret_snoc | apply appends_raise
    | apply appends_try_except; [| intros]
    | apply appends_bind; intros
    | match goal with
      | |- appends _ (match ?x with _ => _ end) => destruct x
      | |- appends _ (if ?b then _ else _) => destruct b
      end ].
Qed.

Lemma prepare_media_r2 (W : World) fuel post idx m urls s :
  opt_startswith (r2_url m) "http" = true ->
  prepare_media W fuel post idx m urls s
  = (Ok (urls ++ [r2_url m]),
     snd (logger (LogUsingR2 (fmt_opt (r2_url m))) s)).
Proof. intros H. unfold prepare_media. rewrite H. reflexivity. Qed.

(** X19: the URLs prepared for a post are in the order of its media
    list: each entry adds at most one URL, after those of the entries before
    it, and an entry with an http R2 URL adds exactly this URL.  When every
    entry has one, the URLs are the R2 URLs of the entries in their order, and
    preparing them makes no external call.  It is the list publish_carousel
    is given, which posts the images in this order. *)
Theorem prepare_all_keeps_order (W : World) (fuel : nat) (post : ScheduledPost)
    (media : list MediaEntry) :
  forall (idx : nat) (urls : list (option string)) (s : state),
    let run := prepare_all W fuel post idx media urls s in
    (forall urls', fst run = Ok urls' ->
       exists pieces,
         urls' = urls ++ List.concat pieces
         /\ Forall2 (fun m piece =>
                       (List.length piece <= 1)%nat
                       /\ (opt_startswith (r2_url m) "http" = true ->
                           piece = [r2_url m]))
                    media pieces)
    /\ (Forall (fun m => opt_startswith (r2_url m) "http" = true) media ->
        fst run = Ok (urls ++ map r2_url media)
        /\ calls (snd run) = calls s /\ tick (snd run) = tick s).
Proof.
  induction media as [| m media IH]; intros idx urls s; cbv zeta;
    cbn [prepare_all].
  - split.
    + intros urls' [= <-]. exists []. cbn. rewrite app_nil_r. auto.
    + intros _. cbn. rewrite app_nil_r. auto.
  - split.
    + intros urls' H. unfold bind in H.
      pose proof (prepare_media_appends W fuel post idx m urls s) as Ha.
      pose proof (prepare_media_r2 W fuel post idx m urls s) as Hr.
      destruct (prepare_media W fuel post idx m urls s) as [[u1 | e |] s1];
        try discriminate.
      destruct (Ha u1 eq_refl) as (piece & -> & Hlen).
      destruct (proj1 (IH (S idx) (urls ++ piece) s1) urls' H)
        as (pieces & -> & HF).
      exists (piece :: pieces). cbn [List.concat]. rewrite app_assoc.
      split; [reflexivity |]. constructor; [| exact HF].
      split; [exact Hlen |]. intros Hm. specialize (Hr Hm).
      injection Hr as Hr _. apply app_inv_head in Hr. exact Hr.
    + intros Hall. inversion Hall as [| m' media' Hm Hrest]; subst.
      unfold bind. rewrite (prepare_media_r2 W fuel post idx m urls s Hm).
      destruct (proj2 (IH (S idx) (urls ++ [r2_url m])
                          (snd (logger (LogUsingR2 (fmt_opt (r2_url m))) s)))
                      Hrest) as (E & Hc & Ht).
      cbn [map]. rewrite <- app_assoc in E. cbn [app] in E.
      split; [exact E |]. split; [exact Hc | exact Ht].
Qed.

(* ------------------------------------------------------------------ *)
(** ** The calendar notification route *)

Lemma converges_handle_calendar_notification W r :
  converges (google_calender.handle_calendar_notification W r).
Proof.
  unfold google_calender.handle_calendar_notification,
    crud.cancel_post_by_event_id. converge.
Qed.

Lemma cancel_rows_None rows : crud.cancel_rows None rows = rows.
Proof. unfold crud.cancel_rows. apply map_id. Qed.

Lemma cancel_step_None p p' : cancel_step None p p' -> p' = p.
Proof. intros [-> | (_ & H & _)]; [reflexivity | contradiction H; reflexivity]. Qed.

Lemma cancel_steps_None l l' : Forall2 (cancel_step None) l l' -> l' = l.
Proof.
  induction 1 as [| p p' l l' Hp _ IH]; [reflexivity |].
  rewrite (cancel_step_None _ _ Hp), IH. reflexivity.
Qed.

(** X20: the calendar route answers {'status': 'ok'} or raises
    HTTPException 500 'Internal server error', nothing else.  The event it
    looks up is the value of the header named exactly 'X-Goog-Resource-ID' in
    the header dict: a resourceId in the body is overwritten.  So the body
    does not matter as long as it is empty, not JSON, or a JSON object, and
    when the dict has no key of exactly this name (as when header names are
    lower-case) no row is ever cancelled.  A row the route changes was
    'scheduled', carries that event id and becomes 'cancelled'. *)
Theorem calendar_webhook_outcome (W : World)
    (json_loads : bytes -> instagram_events.loads_outcome)
    (headers : list (string * string)) (body : bytes) (s : state) :
  let run := calendar_route.calendar_webhook W json_loads headers body s in
  let ev := calendar_route.header_get "X-Goog-Resource-ID" headers in
  (fst run = Ok (JObj [("status", JStr "ok")])
   \/ fst run = Raise (HTTPException 500 "Internal server error"))
  /\ next_id (snd run) = next_id s
  /\ Forall2 (cancel_step ev) (db s) (db (snd run))
  /\ (ev = None -> db (snd run) = db s)
  /\ (usable_body json_loads body ->
      run = calendar_route.calendar_webhook W json_loads headers [] s).
Proof.
  cbv zeta.
  set (ev := calendar_route.header_get "X-Goog-Resource-ID" headers).
  assert (Hempty :
    calendar_route.calendar_webhook W json_loads headers [] s
    = match google_calender.handle_calendar_notification W ev s with
      | (Ok _, s') => (Ok (JObj [("status", JStr "ok")]), s')
      | (Raise _, s') => (Raise (HTTPException 500 "Internal server error"), s')
      | (Diverge, s') => (Diverge, s')
      end).
  { unfold calendar_route.calendar_webhook, calendar_route.notification_resource_id,
      try_except, bind, ret, raise. fold ev.
    destruct (google_calender.handle_calendar_notification W ev s)
      as [[[] | e |] s']; reflexivity. }
  assert (Husable : usable_body json_loads body ->
    calendar_route.calendar_webhook W json_loads headers body s
    = calendar_route.calendar_webhook W json_loads headers [] s).
  { intros [-> | [E | (f & E)]]; [reflexivity | |];
      unfold calendar_route.calendar_webhook,
        calendar_route.notification_resource_id;
      destruct body as [| b body]; try reflexivity; rewrite E; reflexivity. }
  pose proof (handle_calendar_notification_rows W ev s) as Hrows.
  pose proof (converges_handle_calendar_notification W ev s) as Hconv.
  cbv zeta in Hrows.
  assert (Hcases :
    calendar_route.calendar_webhook W json_loads headers body s
    = calendar_route.calendar_webhook W json_loads headers [] s
    \/ calendar_route.calendar_webhook W json_loads headers body s
       = (Raise (HTTPException 500 "Internal server error"), s)).
  { destruct body as [| b body]; [left; reflexivity |].
    destruct (json_loads (b :: body)) as [[| | | | | f] | | k m] eqn:E;
      try (right;
           unfold calendar_route.calendar_webhook,
             calendar_route.notification_resource_id, try_except, bind, raise;
           rewrite E; reflexivity).
    - left. apply Husable. right. right. eauto.
    - left. apply Husable. right. left. exact E. }
  split; [| split; [| split; [| split]]].
  - destruct Hcases as [-> | ->]; [| right; reflexivity]. rewrite Hempty.
    destruct (google_calender.handle_calendar_notification W ev s)
      as [[[] | e |] s']; cbn [fst] in *; auto. congruence.
  - destruct Hcases as [-> | ->]; [| reflexivity]. rewrite Hempty.
    destruct Hrows as [Hn _].
    destruct (google_calender.handle_calendar_notification W ev s)
      as [[[] | e |] s']; exact Hn.
  - destruct Hcases as [-> | ->];
      [| apply Forall2_same; intros; left; reflexivity].
    rewrite Hempty. destruct Hrows as [_ HF].
    destruct (google_calender.handle_calendar_notification W ev s)
      as [[[] | e |] s']; exact HF.
  - intros Hev. destruct Hcases as [-> | ->]; [| reflexivity].
    rewrite Hempty. destruct Hrows as [_ HF]. clearbody ev. subst ev.
    assert (Hsame : db (snd (google_calender.handle_calendar_notification W None s))
                    = db s).
    { apply cancel_steps_None, HF. }
    destruct (google_calender.handle_calendar_notification W None s)
      as [[[] | e |] s']; exact Hsame.
  - exact Husable.
Qed.

(* ------------------------------------------------------------------ *)
(** ** R2 URLs, there and back *)

Lemma split_once_prefix c prefix rest :
  lacks c prefix = true ->
  r2_service.split_once c (prefix ++ String c rest) = Some (prefix, rest).
Proof.
  induction prefix as [| a prefix IH]; cbn [lacks append r2_service.split_once].
  - intros _. rewrite Ascii.eqb_refl. reflexivity.
  - intros H. apply andb_prop in H. destruct H as [Ha Hp].
    apply negb_true_iff in Ha. rewrite Ha, (IH Hp). reflexivity.
Qed.

Lemma lstrip_lacks c s rest :
  lacks c s = true -> s <> ""%string ->
  lstrip_char c (s ++ rest) = (s ++ rest)%string.
Proof.
  destruct s as [| a s]; [congruence |]. cbn [lacks append lstrip_char].
  intros H _. apply andb_prop in H. destruct H as [Ha _].
  apply negb_true_iff in Ha. rewrite Ha. reflexivity.
Qed.

Lemma endswith_app a suffix : r2_service.endswith (a ++ suffix) suffix = true.
Proof.
  induction a as [| c a IH]; cbn [append].
  - destruct suffix; cbn [r2_service.endswith]; rewrite String.eqb_refl;
      reflexivity.
  - cbn [r2_service.endswith]. rewrite IH.
    destruct (String.eqb (String c (a ++ suffix)) suffix); reflexivity.
Qed.

Lemma append_length a b :
  String.length (a ++ b) = (String.length a + String.length b)%nat.
Proof. induction a as [| c a IH]; cbn; [reflexivity | now rewrite IH]. Qed.

Lemma string_app_assoc (a b c : string) :
  ((a ++ b) ++ c)%string = (a ++ (b ++ c))%string.
Proof. induction a as [| x a IH]; cbn; [reflexivity | now rewrite IH]. Qed.

Lemma append_longer a b : a <> ""%string -> (a ++ b)%string <> b.
Proof.
  intros Ha H. apply (f_equal String.length) in H. rewrite append_length in H.
  destruct a; [congruence | cbn in H; lia].
Qed.

Lemma lstrip_slash_key prefix rest :
  lacks "/"%char prefix = true -> prefix <> ""%string ->
  lstrip_char "/"%char ("/" ++ prefix ++ rest) = (prefix ++ rest)%string.
Proof.
  intros Hl Hne. cbn [append lstrip_char Ascii.eqb Bool.eqb].
  apply lstrip_lacks; assumption.
Qed.

(** X21: an object uploaded with upload_file_to_r2 under a prefix
    without '/' has the key prefix/basename.  Given its URL back,
    download_bytes_from_r2_url asks the bucket for this key only for URLs of
    the default public form https://bucket.r2.cloudflarestorage.com/key, and
    for internal URLs whose endpoint host does not end in
    .r2.cloudflarestorage.com.  For a URL under a configured public URL
    (without path) it asks for the basename alone, the prefix taken for the
    bucket, and for an internal URL on an R2 endpoint host it asks for
    bucket/key. *)
Theorem r2_url_round_trip (cfg : Settings) (has_keys : bool)
    (urlparse : string -> string * string)
    (s3_upload : string -> string -> option exn)
    (s3_get_object : string -> reply bytes)
    (file_path key_prefix : string) (public : bool)
    (key url netloc : string) :
  lacks "/"%char key_prefix = true -> key_prefix <> ""%string ->
  r2_service.upload_file_to_r2 cfg has_keys s3_upload file_path key_prefix public
  = Ok (key, url) ->
  let name := last_segment "/"%char file_path "" in
  let bucket := fmt_opt (CLOUDFLARE_R2_BUCKET cfg) in
  let download :=
    r2_service.download_bytes_from_r2_url cfg has_keys urlparse s3_get_object
      url in
  key = (key_prefix ++ "/" ++ name)%string
  /\ (public = true -> truthy_str (CLOUDFLARE_R2_PUBLIC_URL cfg) = true ->
      urlparse url = (netloc, ("/" ++ key)%string) ->
      r2_service.endswith netloc r2_service.SUFFIX = false ->
      download = r2_service.get_object s3_get_object name /\ name <> key)
  /\ (public = true -> truthy_str (CLOUDFLARE_R2_PUBLIC_URL cfg) = false ->
      urlparse url = ((bucket ++ r2_service.SUFFIX)%string, ("/" ++ key)%string) ->
      url = ("https://" ++ bucket ++ ".r2.cloudflarestorage.com/" ++ key)%string
      /\ download = r2_service.get_object s3_get_object key)
  /\ (public = false -> lacks "/"%char bucket = true ->
      urlparse url = (netloc, ("/" ++ bucket ++ "/" ++ key)%string) ->
      download
      = r2_service.get_object s3_get_object
          (if r2_service.endswith netloc r2_service.SUFFIX
           then (bucket ++ "/" ++ key)%string else key)).
Proof.
  intros Hlacks Hne Hup. cbv zeta.
  unfold r2_service.upload_file_to_r2 in Hup.
  destruct (r2_service.R2Client cfg has_keys) as [b | e |] eqn:Ec;
    cbn [pyfloat.rbind] in Hup; try discriminate.
  destruct (s3_upload file_path _); [discriminate |].
  injection Hup as Hkey Hurl.
  assert (Hb : b = fmt_opt (CLOUDFLARE_R2_BUCKET cfg)
               /\ fmt_opt (CLOUDFLARE_R2_BUCKET cfg) <> ""%string).
  { unfold r2_service.R2Client in Ec.
    destruct (negb has_keys); cbn [orb] in Ec; [discriminate |].
    destruct (negb (truthy_str (CLOUDFLARE_R2_ENDPOINT cfg))); cbn [orb] in Ec;
      [discriminate |].
    destruct (CLOUDFLARE_R2_BUCKET cfg) as [bk |]; [| discriminate].
    destruct (truthy_str (Some bk)) eqn:Hbk; cbn [negb] in Ec; [| discriminate].
    injection Ec as <-. split; [reflexivity |]. apply truthy_str_Some, Hbk. }
  destruct Hb as [-> Hbne].
  split; [symmetry; exact Hkey |].
  unfold r2_service.download_bytes_from_r2_url. rewrite Ec.
  cbn [pyfloat.rbind].
  split; [| split].
  - intros _ _ Hparse Hhost. rewrite Hparse, Hhost. rewrite <- Hkey.
    assert (Hneq : last_segment "/" file_path ""
                   <> (key_prefix ++ "/" ++ last_segment "/" file_path "")%string).
    { intros H. symmetry in H. revert H.
      rewrite <- (string_app_assoc key_prefix "/").
      apply append_longer.
      destruct key_prefix; [congruence | discriminate]. }
    split; [| exact Hneq].
    rewrite lstrip_slash_key by assumption.
    change ("/" ++ last_segment "/" file_path "")%string
      with (String "/" (last_segment "/" file_path "")).
    rewrite split_once_prefix by assumption.
    reflexivity.
  - intros Hpub Hoff Hparse. split.
    + rewrite <- Hurl, <- Hkey. unfold r2_service.object_url.
      rewrite Hpub, Hoff. reflexivity.
    + rewrite Hparse, endswith_app, <- Hkey.
      rewrite lstrip_slash_key by assumption. reflexivity.
  - intros _ Hbl Hparse. rewrite Hparse.
    rewrite lstrip_slash_key by assumption.
    destruct (r2_service.endswith netloc r2_service.SUFFIX); [reflexivity |].
    change ("/" ++ key)%string with (String "/" key).
    rewrite split_once_prefix by assumption. reflexivity.
Qed.

(** With a public URL configured, the object just uploaded is not found. *)
Lemma r2_url_round_trip_witness :
  r2_service.download_bytes_from_r2_url examples.cfg true
    (fun _ => ("pub.r2.dev", "/instagram_ready/a.jpg"))
    (one_object "instagram_ready/a.jpg")
    "https://pub.r2.dev/instagram_ready/a.jpg"
  = Raise (PyError "RuntimeError"
             "Failed to download object from R2: NoSuchKey").
Proof.
  refine (proj1 (proj1 (proj2 (r2_url_round_trip examples.cfg true
            (fun _ => ("pub.r2.dev", "/instagram_ready/a.jpg"))
            (fun _ _ => None) (one_object "instagram_ready/a.jpg")
            "app/frontend/temp_generated_images/a.jpg" "instagram_ready" true
            "instagram_ready/a.jpg" "https://pub.r2.dev/instagram_ready/a.jpg"
            "pub.r2.dev" _ _ _)) _ _ _ _));
    try reflexivity.
  discriminate.
Defined.
